(** * ORAN-DRISHTI: drift-and-anomaly analysis engine

    A shallow embedding of the TypeScript analysis engine
    (geospatialEngine.ts in its two versions, and modelEngine.ts) and the
    properties of its specification, followed by the simulator of the zones
    (dataSimulator.ts), the computations of the interface (App.tsx,
    ChartPanel.tsx, Map.tsx) and further properties of the code.

    Numbers.  A JavaScript [number] is modelled by [JS.num]: the IEEE special
    values NaN, -Infinity and +Infinity are kept, with the arithmetic and the
    comparisons ECMAScript gives them, and a finite value is an exact real
    number.  Rounding (also the one of a store into a [Float32Array]),
    overflow and the sign of zero are not modelled.

    Where the source stores a value into a [Float32Array], the statements
    write it under [fround]; where rounding could change an outcome, they
    give a computed quantity by the expression of the source rather than
    by a closed form, or keep a margin.  The properties of the harmonic
    analysis are those of the exact transform. *)

From Stdlib Require Import String.
From Stdlib Require Import Reals Lra Lia ZArith List Bool Psatz.
From Stdlib Require Import Sorted Permutation.
Import ListNotations.

Set Implicit Arguments.

(* ================================================================== *)
(** * JavaScript numbers *)
(* ================================================================== *)

Module JS.

Local Open Scope R_scope.

Inductive num : Type :=
| NaN
| NInf
| Fin (r : R)
| PInf.

Definition Rltb (a b : R) : bool := if Rlt_dec a b then true else false.
Definition Reqb (a b : R) : bool := if Req_dec_T a b then true else false.

(** [x < y] *)
Definition ltb (x y : num) : bool :=
  match x, y with
  | NaN, _ | _, NaN => false
  | NInf, NInf => false
  | NInf, _ => true
  | _, NInf => false
  | PInf, _ => false
  | Fin _, PInf => true
  | Fin a, Fin b => Rltb a b
  end.

(** [x > y] *)
Definition gtb (x y : num) : bool := ltb y x.

(** [x === y] on numbers *)
Definition eqb (x y : num) : bool :=
  match x, y with
  | NInf, NInf | PInf, PInf => true
  | Fin a, Fin b => Reqb a b
  | _, _ => false
  end.

(** [x <= y] *)
Definition leb (x y : num) : bool := ltb x y || eqb x y.

(** [x >= y] *)
Definition geb (x y : num) : bool := leb y x.

(** unary minus *)
Definition neg (x : num) : num :=
  match x with
  | NaN => NaN
  | NInf => PInf
  | Fin a => Fin (- a)
  | PInf => NInf
  end.

(** [x + y] *)
Definition add (x y : num) : num :=
  match x, y with
  | NaN, _ | _, NaN => NaN
  | NInf, PInf | PInf, NInf => NaN
  | NInf, _ | _, NInf => NInf
  | PInf, _ | _, PInf => PInf
  | Fin a, Fin b => Fin (a + b)
  end.

(** [x - y] *)
Definition sub (x y : num) : num := add x (neg y).

(** the infinity with the sign of [s * t], for an infinite operand [s]
    (positive when [pos] holds) and a finite one of value [b] *)
Definition inf_signed (pos : bool) (b : R) : num :=
  if Rltb b 0 then (if pos then NInf else PInf)
  else (if pos then PInf else NInf).

(** [x * y] *)
Definition mul (x y : num) : num :=
  match x, y with
  | NaN, _ | _, NaN => NaN
  | NInf, NInf | PInf, PInf => PInf
  | NInf, PInf | PInf, NInf => NInf
  | PInf, Fin b | Fin b, PInf => if Reqb b 0 then NaN else inf_signed true b
  | NInf, Fin b | Fin b, NInf => if Reqb b 0 then NaN else inf_signed false b
  | Fin a, Fin b => Fin (a * b)
  end.

(** [x / y]; a zero divisor is the positive zero *)
Definition div (x y : num) : num :=
  match x, y with
  | NaN, _ | _, NaN => NaN
  | (NInf | PInf), (NInf | PInf) => NaN
  | PInf, Fin b => inf_signed true b
  | NInf, Fin b => inf_signed false b
  | Fin _, (NInf | PInf) => Fin 0
  | Fin a, Fin b =>
      if Reqb b 0 then
        (if Reqb a 0 then NaN else if Rltb a 0 then NInf else PInf)
      else Fin (a / b)
  end.

(** A value read from an array or an object field: [None] is [undefined]. *)
Definition value := option num.

(** [Number(v)] (ToNumber): [undefined] becomes NaN. *)
Definition Number (v : value) : num :=
  match v with Some x => x | None => NaN end.

(** [Math.fround], the conversion of a store into a [Float32Array]; exact
    in this model. *)
Definition fround (x : num) : num := x.

(** A non-negative integer as a number (an array length, a loop index). *)
Definition of_nat (n : nat) : num := Fin (INR n).

(** floor and ceiling of a real number *)
Definition Zfloor (r : R) : Z := Int_part r.
Definition Zceil (r : R) : Z := (- Int_part (- r))%Z.

Definition is_int (r : R) : bool := Reqb (IZR (Zfloor r)) r.

Definition Math_floor (x : num) : num :=
  match x with Fin a => Fin (IZR (Zfloor a)) | _ => x end.

Definition Math_ceil (x : num) : num :=
  match x with Fin a => Fin (IZR (Zceil a)) | _ => x end.

Definition Math_abs (x : num) : num :=
  match x with
  | NaN => NaN
  | NInf | PInf => PInf
  | Fin a => Fin (Rabs a)
  end.

Definition Math_max (x y : num) : num :=
  match x, y with
  | NaN, _ | _, NaN => NaN
  | _, _ => if ltb x y then y else x
  end.

(** [Math.log], the natural logarithm *)
Definition Math_log (x : num) : num :=
  match x with
  | NaN | NInf => NaN
  | PInf => PInf
  | Fin a => if Rltb a 0 then NaN else if Reqb a 0 then NInf else Fin (ln a)
  end.

(** [Math.log2] *)
Definition Math_log2 (x : num) : num :=
  match x with
  | NaN | NInf => NaN
  | PInf => PInf
  | Fin a => if Rltb a 0 then NaN else if Reqb a 0 then NInf else Fin (ln a / ln 2)
  end.

(** [Math.pow], after Number::exponentiate of ECMAScript. *)
Definition Math_pow (base exponent : num) : num :=
  match exponent with
  | NaN => NaN
  | PInf =>
      match base with
      | NaN => NaN
      | NInf | PInf => PInf
      | Fin b => if Rltb 1 (Rabs b) then PInf
                 else if Reqb (Rabs b) 1 then NaN else Fin 0
      end
  | NInf =>
      match base with
      | NaN => NaN
      | NInf | PInf => Fin 0
      | Fin b => if Rltb 1 (Rabs b) then Fin 0
                 else if Reqb (Rabs b) 1 then NaN else PInf
      end
  | Fin e =>
      if Reqb e 0 then Fin 1 else
      match base with
      | NaN => NaN
      | PInf => if Rltb 0 e then PInf else Fin 0
      | NInf => if Rltb 0 e
                then (if is_int e && Z.odd (Zfloor e) then NInf else PInf)
                else Fin 0
      | Fin b =>
          if Reqb b 0 then (if Rltb 0 e then Fin 0 else PInf)
          else if Rltb 0 b then Fin (Rpower b e)
          else if is_int e
               then Fin (if Z.odd (Zfloor e) then - Rpower (- b) e else Rpower (- b) e)
               else NaN
      end
  end.

(** The position a number denotes as an array index, if any. *)
Definition index_of (x : num) : option nat :=
  match x with
  | Fin r => if is_int r && negb (Rltb r 0) then Some (Z.to_nat (Zfloor r)) else None
  | _ => None
  end.

(** [l[x]] for a number [x] *)
Definition get (l : list num) (x : num) : value :=
  match index_of x with
  | Some i => nth_error l i
  | None => None
  end.

(** [l[i] = v] on a typed array: a store out of range is ignored *)
Fixpoint upd {A : Type} (l : list A) (i : nat) (v : A) : list A :=
  match l, i with
  | [], _ => []
  | _ :: t, O => v :: t
  | h :: t, S j => h :: upd t j v
  end.

(** [for (let i = 0; i < n; i++) body] over a loop state *)
Definition for_loop {S : Type} (n : nat) (body : nat -> S -> S) (init : S) : S :=
  fold_left (fun s i => body i s) (seq 0 n) init.

(** The order of [TypedArray.prototype.sort] without a comparator: numeric,
    ascending, NaN last. *)
Definition sort_leb (x y : num) : bool :=
  match x, y with
  | _, NaN => true
  | NaN, _ => false
  | _, _ => leb x y
  end.

Fixpoint insert (x : num) (l : list num) : list num :=
  match l with
  | [] => [x]
  | h :: t => if sort_leb x h then x :: l else h :: insert x t
  end.

(** [a.sort()] *)
Fixpoint sort (l : list num) : list num :=
  match l with
  | [] => []
  | h :: t => insert h (sort t)
  end.

Definition sort_le (x y : num) : Prop := sort_leb x y = true.

(** The body of a loop that sets the mask to 1 and counts, at the indices
    that pass the test [p]. *)
Definition flag_body (p : nat -> bool) (i : nat) (st : list Z * nat)
    : list Z * nat :=
  let '(anomalies, count) := st in
  if p i then (upd anomalies i 1%Z, S count) else (anomalies, count).

End JS.

Import JS.

(* ================================================================== *)
(** * Raster data and drift (geospatialEngine.ts, both versions) *)
(* ================================================================== *)

(** [Float32Array | Uint16Array | Uint8Array] *)
Inductive TypedArray : Type :=
| Float32Array (l : list num)
| Uint16Array (l : list Z)
| Uint8Array (l : list Z).

Definition ta_length (a : TypedArray) : nat :=
  match a with
  | Float32Array l => length l
  | Uint16Array l | Uint8Array l => length l
  end.

(** [a[i]]: a number, or [undefined] out of range *)
Definition ta_get (a : TypedArray) (i : nat) : value :=
  match a with
  | Float32Array l => nth_error l i
  | Uint16Array l | Uint8Array l => option_map (fun z => Fin (IZR z)) (nth_error l i)
  end.

Record RasterData : Type := mkRaster {
  width : Z;
  height : Z;
  data : TypedArray;
  min : num;
  max : num
}.

Inductive exn : Type := Error (msg : string).

Inductive result (A : Type) : Type :=
| Ok (a : A)
| Throw (e : exn).
Arguments Ok {A} a.
Arguments Throw {A} e.

(** The error of the spec's taxonomy. *)
Definition ShapeMismatch : exn := Error "Image dimensions do not match".

Definition calculateDrift (past present : RasterData) : result (list num) :=
  if negb (width past =? width present)%Z || negb (height past =? height present)%Z
  then Throw ShapeMismatch
  else
    let length := ta_length (data past) in
    let drift := repeat (Fin 0) length in
    Ok (for_loop length
          (fun i drift =>
             upd drift i (fround (sub (Number (ta_get (data present) i))
                                      (Number (ta_get (data past) i)))))
          drift).

(** The invariant of a grid: the buffer holds width x height samples. *)
Definition grid_wf (g : RasterData) : Prop :=
  Z.of_nat (ta_length (data g)) = (width g * height g)%Z.

(** Every sample of the grid is a finite number. *)
Definition grid_finite (g : RasterData) : Prop :=
  forall i, i < ta_length (data g) ->
    exists r, ta_get (data g) i = Some (Fin r).

(** A 1 x 1 grid of 32-bit floats whose only sample is [Infinity]. *)
Definition infinite_pixel : RasterData :=
  mkRaster 1 1 (Float32Array [PInf]) PInf PInf.

(** A 2 x 2 grid of bytes and one of 32-bit floats. *)
Definition bytes_2x2 : RasterData :=
  mkRaster 2 2 (Uint8Array [5; 5; 5; 5]%Z) (Fin 5) (Fin 5).

Definition floats_2x2 : RasterData :=
  mkRaster 2 2 (Float32Array [Fin 1; Fin 5; Fin 5; Fin 5]) (Fin 1) (Fin 5).

(** The grids of the scenario of the spec. *)
Definition scenario_past : RasterData :=
  mkRaster 2 2 (Float32Array [Fin 0.5; Fin 0.5; Fin 0.5; Fin 0.5]) (Fin 0.5) (Fin 0.5).

Definition scenario_present : RasterData :=
  mkRaster 2 2 (Float32Array [Fin 0.1; Fin 0.5; Fin 0.5; Fin 0.5]) (Fin 0.1) (Fin 0.5).

(* ================================================================== *)
(** * Randomness *)
(* ================================================================== *)

(** The outcomes of the successive calls of [Math.random] are an arbitrary
    sequence of numbers; a computation that draws from it threads the
    sequence of the outcomes still to come. *)
Definition rng : Type := nat -> R.

Definition Rand (A : Type) : Type := rng -> A * rng.

Definition ret {A : Type} (a : A) : Rand A := fun s => (a, s).

Definition bind {A B : Type} (m : Rand A) (k : A -> Rand B) : Rand B :=
  fun s => let (a, s') := m s in k a s'.

Notation "x <- m ;; k" := (bind m (fun x => k))
  (at level 61, m at next level, right associativity).

(** [Math.random()] *)
Definition Math_random : Rand num :=
  fun s => (Fin (s 0), fun k => s (S k)).

(** A [for] loop whose body draws random numbers. *)
Fixpoint for_loopM_from {S : Type} (i n : nat) (body : nat -> S -> Rand S)
    (st : S) : Rand S :=
  match n with
  | O => ret st
  | Datatypes.S n' => st' <- body i st ;; for_loopM_from (Datatypes.S i) n' body st'
  end.

Definition for_loopM {S : Type} (n : nat) (body : nat -> S -> Rand S)
    (init : S) : Rand S :=
  for_loopM_from 0 n body init.

(* ================================================================== *)
(** * Anomaly detection, Median / MAD (geospatialEngine.ts, second version) *)
(* ================================================================== *)

Module RobustMAD.

Record Stats : Type := mkStats {
  median : value;
  mad : value;
  limit : num
}.

Record AnomalyResult : Type := mkResult {
  anomalies : list Z;
  count : nat;
  stats : Stats
}.

(** step 1: the statistics are taken on the whole array, or on 100000
    random draws when it holds more than a million values *)
Definition takeSample (drift : list num) : Rand (list num) :=
  if (1000000 <? Z.of_nat (length drift))%Z then
    let sampleSize := Z.to_nat 100000 in
    for_loopM sampleSize
      (fun i sample =>
         r <- Math_random ;;
         ret (upd sample i
                (fround (Number (get drift
                   (Math_floor (mul r (of_nat (length drift)))))))))
      (repeat (Fin 0) sampleSize)
  else ret drift.

(** steps 2 to 4: median, MAD and the limit, from the sample *)
Definition statistics (sample : list num) : Stats :=
  let sorted := sort sample in
  let mid := length sorted / 2 in
  let median := nth_error sorted mid in
  let deviations :=
    for_loop (length sorted)
      (fun i deviations =>
         upd deviations i
           (fround (Math_abs (sub (Number (nth_error sorted i)) (Number median)))))
      (repeat (Fin 0) (length sorted)) in
  let deviations := sort deviations in
  let mad := nth_error deviations mid in
  let robustMad :=
    match mad with
    | Some m => if eqb m (Fin 0) then Some (Fin 0.01) else mad
    | None => mad
    end in
  let threshold := mul (Fin 3) (Number robustMad) in
  let limit := sub (Number median) threshold in
  mkStats median mad limit.

(** the last loop: flag the values under the limit *)
Definition flag (drift : list num) (limit : num) : list Z * nat :=
  for_loop (length drift)
    (fun i '(anomalies, count) =>
       if ltb (Number (nth_error drift i)) limit
       then (upd anomalies i 1%Z, S count)
       else (anomalies, count))
    (repeat 0%Z (length drift), 0).

(** The two middle elements of a sorted sample of even size. *)
Definition lower_middle (sorted : list num) : value :=
  nth_error sorted (length sorted / 2 - 1).

Definition upper_middle (sorted : list num) : value :=
  nth_error sorted (length sorted / 2).

Definition detectAnomalies (drift : list num) : Rand AnomalyResult :=
  sample <- takeSample drift ;;
  let st := statistics sample in
  let '(anomalies, count) := flag drift (limit st) in
  ret (mkResult anomalies count st).

End RobustMAD.

(* ================================================================== *)
(** * Anomaly detection, isolation forest (geospatialEngine.ts, first
      version) *)
(* ================================================================== *)

Module IsolationForest.

Inductive node : Type :=
| leaf (size : nat)
| inner (splitValue : num) (l r : node).

Record Stats : Type := mkStats {
  maxScore : num;
  minScore : num;
  threshold : num
}.

Record AnomalyResult : Type := mkResult {
  anomalies : list Z;
  count : nat;
  stats : Stats
}.

Definition numTrees : nat := 10.

Definition anomalyThreshold : num := Fin 0.65.

(** [Math.min(n, 256)] on a length *)
Definition subSampleSize (n : nat) : nat := Nat.min n 256.

Definition heightLimit (n : nat) : num :=
  Math_ceil (Math_log2 (of_nat (subSampleSize n))).

(** the bounds of a partition, from [Infinity] and [-Infinity] *)
Definition minmax (data : list num) : num * num :=
  fold_left
    (fun '(mn, mx) x => (if ltb x mn then x else mn, if gtb x mx then x else mx))
    data (PInf, NInf).

(** [buildTree(data, depth)].  The recursion of the source is bounded by the
    height limit; here it runs on [fuel], and [None] is a recursion that the
    fuel did not let finish. *)
Fixpoint buildTree (fuel : nat) (hl : num) (data : list num) (depth : nat)
    : Rand (option node) :=
  if geb (of_nat depth) hl || (length data <=? 1) then
    ret (Some (leaf (length data)))
  else
    let '(mn, mx) := minmax data in
    if eqb mn mx then ret (Some (leaf (length data)))
    else
      r <- Math_random ;;
      let splitValue := add mn (mul r (sub mx mn)) in
      let '(leftData, rightData) :=
        partition (fun x => ltb x splitValue) data in
      match fuel with
      | O => ret None
      | S fuel' =>
          lt <- buildTree fuel' hl leftData (depth + 1) ;;
          rt <- buildTree fuel' hl rightData (depth + 1) ;;
          ret (match lt, rt with
               | Some lt, Some rt => Some (inner splitValue lt rt)
               | _, _ => None
               end)
      end.

(** the average path length of an unsuccessful search in a tree of [size]
    values *)
Definition c (size : nat) : num :=
  if size <=? 1 then Fin 0
  else sub (mul (Fin 2) (add (Math_log (sub (of_nat size) (Fin 1))) (Fin 0.5772156649)))
           (div (mul (Fin 2) (sub (of_nat size) (Fin 1))) (of_nat size)).

Fixpoint pathLength (val : num) (nd : node) (depth : nat) : num :=
  match nd with
  | leaf size => add (of_nat depth) (c size)
  | inner splitValue l r =>
      if ltb val splitValue then pathLength val l (depth + 1)
      else pathLength val r (depth + 1)
  end.

(** one random subsample, drawn with replacement *)
Definition drawSample (drift : list num) : Rand (list num) :=
  let n := length drift in
  for_loopM (subSampleSize n)
    (fun j sample =>
       r <- Math_random ;;
       ret (upd sample j
              (fround (Number (get drift (Math_floor (mul r (of_nat n))))))))
    (repeat (Fin 0) (subSampleSize n)).

(** the forest: [numTrees] trees, each on a subsample of its own *)
Definition buildForest (fuel : nat) (drift : list num) : Rand (option (list node)) :=
  for_loopM numTrees
    (fun i forest =>
       sample <- drawSample drift ;;
       t <- buildTree fuel (heightLimit (length drift)) sample 0 ;;
       ret (match forest, t with
            | Some forest, Some t => Some (forest ++ [t])
            | _, _ => None
            end))
    (Some []).

(** the score of one value: 2^(-E(h(x)) / c(n)) *)
Definition score (forest : list node) (n : nat) (val : num) : num :=
  let avgPathLen :=
    fold_left (fun avgPathLen t => add avgPathLen (pathLength val t 0))
      forest (Fin 0) in
  let avgPathLen := div avgPathLen (of_nat numTrees) in
  Math_pow (Fin 2) (div (neg avgPathLen) (c (subSampleSize n))).

(** the scoring loop: the array of the scores, [minScore] and [maxScore] *)
Definition scoreAll (forest : list node) (drift : list num) : list num * num * num :=
  let n := length drift in
  for_loop n
    (fun i '(scores, minScore, maxScore) =>
       let sc := score forest n (Number (nth_error drift i)) in
       (upd scores i (fround sc),
        if ltb sc minScore then sc else minScore,
        if gtb sc maxScore then sc else maxScore))
    (repeat (Fin 0) n, PInf, NInf).

(** the thresholding loop: a high score and a negative drift *)
Definition flag (drift scores : list num) : list Z * nat :=
  for_loop (length drift)
    (fun i '(anomalies, count) =>
       if gtb (Number (nth_error scores i)) anomalyThreshold
          && ltb (Number (nth_error drift i)) (neg (Fin 0.05))
       then (upd anomalies i 1%Z, S count)
       else (anomalies, count))
    (repeat 0%Z (length drift), 0).


Definition detectAnomalies (fuel : nat) (drift : list num)
    : Rand (option AnomalyResult) :=
  forest <- buildForest fuel drift ;;
  match forest with
  | None => ret None
  | Some forest =>
      let '(scores, minScore, maxScore) := scoreAll forest drift in
      let '(anomalies, count) := flag drift scores in
      ret (Some (mkResult anomalies count
                   (mkStats maxScore minScore anomalyThreshold)))
  end.

End IsolationForest.

(* ================================================================== *)
(** * Solar validation (geospatialEngine.ts, first version) *)
(* ================================================================== *)

Definition validateShadowDepth (sunAltitude anomalyScore : num) : bool :=
  gtb sunAltitude (Fin 30) && gtb anomalyScore (Fin 0.5).

(* ================================================================== *)
(** * Harmonic analysis (modelEngine.ts) *)
(* ================================================================== *)

(** [for (let i = lo; i < hi; i++) body]; no iteration when [hi <= lo] *)
Definition for_range {S : Type} (lo hi : nat) (body : nat -> S -> S) (init : S) : S :=
  fold_left (fun s i => body i s) (seq lo (hi - lo)) init.

(** [l.map((x, i) => f x i)] *)
Fixpoint mapi_from {A B : Type} (i : nat) (f : A -> nat -> B) (l : list A) : list B :=
  match l with
  | [] => []
  | x :: t => f x i :: mapi_from (S i) f t
  end.

Definition mapi {A B : Type} (f : A -> nat -> B) (l : list A) : list B :=
  mapi_from 0 f l.

(** The number of iterations of [for (let i = 0; i < x; i++)] for a number
    [x].  The loop does not end for [Infinity], which no bound of this
    program takes. *)
Definition iterations (x : num) : nat :=
  match x with
  | Fin r => Z.to_nat (Zceil r)
  | _ => 0
  end.

Module FFT.

Local Open Scope R_scope.

(** The library fft.js, which modelEngine.ts imports, is not part of the
    repository.  Its transform is modelled from the spec: the discrete
    Fourier transform of the given size, on a complex array stored as
    interleaved real and imaginary parts.  The constructor of the library
    takes a size that is a power of two greater than 1; the sizes of this
    program are of the form max(2, 2^k). *)

(** Modelled from the spec: a complex array of [size] zeros. *)
Definition createComplexArray (size : nat) : list num :=
  repeat (Fin 0) (2 * size).

Definition theta (size n k : nat) : R := 2 * PI * INR (n * k) / INR size.

Definition re (data : list num) (n : nat) : num := Number (nth_error data (2 * n)).
Definition im (data : list num) (n : nat) : num := Number (nth_error data (2 * n + 1)).

(** the sum of [f 0], ..., [f (n - 1)] *)
Definition num_sum (f : nat -> num) (n : nat) : num :=
  fold_left (fun acc i => add acc (f i)) (seq 0 n) (Fin 0).

(** bin [k] of the forward transform: the sum of [data[n] * exp(-i theta)] *)
Definition forward_bin (size : nat) (data : list num) (k : nat) : list num :=
  [ num_sum (fun n => add (mul (re data n) (Fin (cos (theta size n k))))
                          (mul (im data n) (Fin (sin (theta size n k))))) size;
    num_sum (fun n => sub (mul (im data n) (Fin (cos (theta size n k))))
                          (mul (re data n) (Fin (sin (theta size n k))))) size ].

(** sample [k] of the inverse transform: the sum of [data[n] * exp(i theta)] *)
Definition inverse_bin (size : nat) (data : list num) (k : nat) : list num :=
  [ num_sum (fun n => sub (mul (re data n) (Fin (cos (theta size n k))))
                          (mul (im data n) (Fin (sin (theta size n k))))) size;
    num_sum (fun n => add (mul (im data n) (Fin (cos (theta size n k))))
                          (mul (re data n) (Fin (sin (theta size n k))))) size ].

(** Modelled from the spec: the forward discrete Fourier transform of size
    [size]; the array it returns is the one [f.transform(out, data)] writes
    to [out]. *)
Definition transform (size : nat) (data : list num) : list num :=
  flat_map (forward_bin size data) (seq 0 size).

(** Modelled from the spec: the inverse transform, unnormalized, as the
    spec and the comment of [performHarmonicAnalysis] have it: the caller
    divides by the size. *)
Definition inverseTransform (size : nat) (data : list num) : list num :=
  flat_map (inverse_bin size data) (seq 0 size).

End FFT.

Record TimeSeriesPoint : Type := mkPoint {
  date : string;
  ndvi : num;
  viirs : num;
  seasonal : num;
  trend : num
}.

(** [{ ...point, seasonal: v }] *)
Definition with_seasonal (point : TimeSeriesPoint) (v : num) : TimeSeriesPoint :=
  mkPoint (date point) (ndvi point) (viirs point) v (trend point).

Definition nextPow2 (n : nat) : num :=
  Math_max (Fin 2) (Math_pow (Fin 2) (Math_ceil (Math_log2 (of_nat n)))).

Definition cutoff : nat := 10.

(** the input of the transform: the NDVI values, zero-padded *)
Definition fillInput (history : list TimeSeriesPoint) (size : nat) : list num :=
  let n := length history in
  for_loop size
    (fun i input =>
       if i <? n then
         upd (upd input (2 * i) (Number (option_map ndvi (nth_error history i))))
             (2 * i + 1) (Fin 0)
       else
         upd (upd input (2 * i) (Fin 0)) (2 * i + 1) (Fin 0))
    (FFT.createComplexArray size).

(** the low-pass filter: the bins from [cutoff] to [size - cutoff - 1] are
    cleared *)
Definition lowPass (size : nat) (output : list num) : list num :=
  for_range cutoff (size - cutoff)
    (fun i output => upd (upd output (2 * i) (Fin 0)) (2 * i + 1) (Fin 0))
    output.

Definition performHarmonicAnalysis (history : list TimeSeriesPoint)
    : list TimeSeriesPoint :=
  let n := length history in
  let nextPow2 := nextPow2 n in
  let size := iterations nextPow2 in
  let input := fillInput history size in
  let output := FFT.transform size input in
  let output := lowPass size output in
  let input := FFT.inverseTransform size output in
  let smoothed :=
    mapi (fun point i =>
            with_seasonal point (div (Number (nth_error input (2 * i))) nextPow2))
         history in
  smoothed.

(** ** The transform on real signals

    The real and imaginary parts of a complex array as functions of the
    index, and the transforms of the library on them. *)

Section RealView.

Local Open Scope R_scope.

Fixpoint Rsum (f : nat -> R) (n : nat) : R :=
  match n with
  | O => 0
  | S k => Rsum f k + f k
  end.

Definition angle (size j : nat) : R := 2 * PI * INR j / INR size.

(** bin [k] survives the low-pass filter *)
Definition keep (size k : nat) : bool :=
  negb ((cutoff <=? k)%nat && (k <? size - cutoff)%nat).

Definition dft_re (size : nat) (xr xi : nat -> R) (k : nat) : R :=
  Rsum (fun n => xr n * cos (angle size (n * k)) + xi n * sin (angle size (n * k))) size.

Definition dft_im (size : nat) (xr xi : nat -> R) (k : nat) : R :=
  Rsum (fun n => xi n * cos (angle size (n * k)) - xr n * sin (angle size (n * k))) size.

Definition idft_re (size : nat) (yr yi : nat -> R) (k : nat) : R :=
  Rsum (fun n => yr n * cos (angle size (n * k)) - yi n * sin (angle size (n * k))) size.

Definition idft_im (size : nat) (yr yi : nat -> R) (k : nat) : R :=
  Rsum (fun n => yi n * cos (angle size (n * k)) + yr n * sin (angle size (n * k))) size.

Definition low_pass (size : nat) (f : nat -> R) (k : nat) : R :=
  if keep size k then f k else 0.

(** the real part of the filtered signal, for a real input [x] *)
Definition smoothed_re (size : nat) (x : nat -> R) (i : nat) : R :=
  idft_re size (low_pass size (dft_re size x (fun _ => 0)))
               (low_pass size (dft_im size x (fun _ => 0))) i.

Definition const_signal (N : nat) (c : R) (n : nat) : R :=
  if (n <? N)%nat then c else 0.

(** the interleaved array [data] holds the complex signal [fr + i fi] *)
Definition represents (size : nat) (data : list num) (fr fi : nat -> R) : Prop :=
  length data = (2 * size)%nat /\
  forall k, (k < size)%nat ->
    nth_error data (2 * k) = Some (Fin (fr k)) /\
    nth_error data (2 * k + 1) = Some (Fin (fi k)).

End RealView.

(** the size of the transform for a series of [n] points *)
Definition fft_size (n : nat) : nat := Nat.max 2 (2 ^ Nat.log2_up n).

(** the NDVI values of a series as a real signal, zero past its end *)
Definition ndvi_real (history : list TimeSeriesPoint) (i : nat) : R :=
  match nth_error history i with
  | Some p => match ndvi p with Fin r => r | _ => 0%R end
  | None => 0%R
  end.

(** a series of [n] points that all have the NDVI value [c] *)
Definition constant_series (n : nat) (c : R) : list TimeSeriesPoint :=
  repeat (mkPoint "2023-01-01" (Fin c) (Fin 0) (Fin 0) (Fin 0)) n.

Definition all_finite (history : list TimeSeriesPoint) : Prop :=
  forall p, In p history -> exists r, ndvi p = Fin r.

(* ================================================================== *)
(** * Loading a raster (geospatialEngine.ts, both versions) *)
(* ================================================================== *)

(** The library geotiff is not part of the repository.  What
    [loadGeoTiff] takes from it is the decoded image: its width, its
    height and its first band, [readRasters()[0]]. *)
Record GeoTiffImage : Type := mkImage {
  getWidth : Z;
  getHeight : Z;
  rasters0 : TypedArray
}.

Definition loadGeoTiff (image : GeoTiffImage) : RasterData :=
  let width := getWidth image in
  let height := getHeight image in
  let data := rasters0 image in
  let '(min, max) :=
    for_loop (ta_length data)
      (fun i '(min, max) =>
         let val := Number (ta_get data i) in
         (if ltb val min then val else min,
          if gtb val max then val else max))
      (PInf, NInf) in
  mkRaster width height data min max.

(** the samples of a buffer, as numbers *)
Definition samples (a : TypedArray) : list num :=
  match a with
  | Float32Array l => l
  | Uint16Array l | Uint8Array l => map (fun z => Fin (IZR z)) l
  end.

(* ================================================================== *)
(** * Rendering (geospatialEngine.ts, both versions) *)
(* ================================================================== *)

(** [ToUint8Clamp], the conversion of a store into a [Uint8ClampedArray]:
    NaN becomes 0, the value is clamped to [0, 255] and rounded to the
    nearest integer, ties to even. *)
Definition ToUint8Clamp (x : num) : Z :=
  match x with
  | NaN | NInf => 0
  | PInf => 255
  | Fin r =>
      if Rltb r 0 then 0 else if Rltb 255 r then 255 else
      let f := Zfloor r in
      if Rltb (IZR f + 0.5) r then f + 1
      else if Rltb r (IZR f + 0.5) then f
      else if Z.even f then f else f + 1
  end%Z.

(** [x || y] on numbers: 0 and NaN are falsy *)
Definition or_else (x y : num) : num :=
  match x with
  | NaN => y
  | Fin r => if Reqb r 0 then y else x
  | _ => x
  end.

(** The 2d context of a canvas: the smoothing flag and the bitmap, four
    bytes (R, G, B, A) per pixel, row after row. *)
Record Context2D : Type := mkContext {
  imageSmoothingEnabled : bool;
  bitmap : list Z
}.

Record HTMLCanvasElement : Type := mkCanvas {
  getContext2d : option Context2D;
  canvas_width : Z;
  canvas_height : Z
}.

Definition IndexSizeError : exn := Error "IndexSizeError".

(** [ctx.createImageData(sw, sh)] of the canvas API: transparent black, and
    an error for a zero dimension *)
Definition createImageData (sw sh : Z) : result (list Z) :=
  if (sw =? 0)%Z || (sh =? 0)%Z then Throw IndexSizeError
  else Ok (repeat 0%Z (Z.to_nat (4 * Z.abs sw * Z.abs sh))).

(** [overlay && overlay[i] === 1] *)
Definition overlay_set (overlay : option (list Z)) (i : nat) : bool :=
  match overlay with
  | Some o => match nth_error o i with Some v => (v =? 1)%Z | None => false end
  | None => false
  end.

(** [renderToCanvas(raster, canvas, overlay)].  The canvas that results, or
    the error of [createImageData]; [putImageData] at the origin of a canvas
    that was just given the size of the image makes the image the bitmap. *)
Definition renderToCanvas (raster : RasterData) (canvas : HTMLCanvasElement)
    (overlay : option (list Z)) : result HTMLCanvasElement :=
  match getContext2d canvas with
  | None => Ok canvas
  | Some ctx =>
      let width := width raster in
      let height := height raster in
      let data := data raster in
      let min := min raster in
      let max := max raster in
      match createImageData width height with
      | Throw e => Throw e
      | Ok imageData =>
          let range := or_else (sub max min) (Fin 1) in
          let imageData :=
            for_loop (ta_length data)
              (fun i imageData =>
                 let val := Number (ta_get data i) in
                 let normalized := div (sub val min) range in
                 let pixelIdx := 4 * i in
                 let gray := Math_floor (mul normalized (Fin 255)) in
                 if overlay_set overlay i then
                   upd (upd (upd (upd imageData pixelIdx 255%Z)
                                 (pixelIdx + 1) 0%Z)
                            (pixelIdx + 2) 0%Z)
                       (pixelIdx + 3) 255%Z
                 else
                   upd (upd (upd (upd imageData pixelIdx 0%Z)
                                 (pixelIdx + 1) (ToUint8Clamp gray))
                            (pixelIdx + 2) 0%Z)
                       (pixelIdx + 3) 255%Z)
              imageData in
          Ok (mkCanvas (Some (mkContext false imageData)) width height)
      end
  end.

(** the gray level of a sample *)
Definition grayLevel (raster : RasterData) (i : nat) : num :=
  Math_floor
    (mul (div (sub (Number (ta_get (data raster) i)) (min raster))
              (or_else (sub (max raster) (min raster)) (Fin 1)))
         (Fin 255)).

(** the four bytes of pixel [i] of a bitmap *)
Definition pixel (bitmap : list Z) (i : nat) : list (option Z) :=
  [nth_error bitmap (4 * i); nth_error bitmap (4 * i + 1);
   nth_error bitmap (4 * i + 2); nth_error bitmap (4 * i + 3)].

(** the number of pixels, among the first [n], that a bitmap shows in full
    red *)
Definition red_count (bitmap : list Z) (n : nat) : nat :=
  length (filter (fun i => match nth_error bitmap (4 * i) with
                           | Some v => (v =? 255)%Z
                           | None => false
                           end) (seq 0 n)).

(** A 2 x 1 grid of bytes with the bounds 10 and 30, and the flat one. *)
Definition ramp_2x1 : RasterData :=
  mkRaster 2 1 (Uint8Array [10; 30]%Z) (Fin 10) (Fin 30).

Definition flat_2x1 : RasterData :=
  mkRaster 2 1 (Uint8Array [7; 7]%Z) (Fin 7) (Fin 7).

Definition blank_canvas : HTMLCanvasElement :=
  mkCanvas (Some (mkContext true [])) 300 150.

(* ================================================================== *)
(** * The position of the sun (geospatialEngine.ts, first version) *)
(* ================================================================== *)

Section SunDefs.
Local Open Scope R_scope.

Definition Math_sin (x : num) : num :=
  match x with Fin a => Fin (sin a) | _ => NaN end.

Definition Math_cos (x : num) : num :=
  match x with Fin a => Fin (cos a) | _ => NaN end.

Definition Math_asin (x : num) : num :=
  match x with
  | Fin a => if Rltb a (-1) || Rltb 1 a then NaN else Fin (asin a)
  | _ => NaN
  end.

Definition Math_PI : num := Fin PI.

(** What [calculateSunPosition] reads of a [Date]: its time value, and the
    time value of [new Date(date.getFullYear(), 0, 0)], the local midnight
    that ends the year before.  A time value is NaN or an integral number
    of milliseconds, of at most 8.64e15 in absolute value, and the date is
    at most 367 days after the start. *)
Record JSDate : Type := mkDate {
  getTime : num;
  startOfYear : num
}.

(** [calculateSunPosition].  The trigonometry of the model is exact, so the
    argument of [Math_asin] never leaves [-1, 1]; in double precision it
    can exceed 1 by a rounding error when the latitude meets the
    declination of the day, and [Math.asin] is then NaN.  The properties
    below keep the latitude 0.05 degrees away from the declination. *)
Definition calculateSunPosition (lat lon : num) (date : JSDate) : num :=
  let start := startOfYear date in
  let diff := sub (getTime date) start in
  let oneDay := mul (mul (mul (Fin 1000) (Fin 60)) (Fin 60)) (Fin 24) in
  let day := Math_floor (div diff oneDay) in
  let declination :=
    mul (Fin 23.45)
        (Math_sin (mul (div (mul (Fin 2) Math_PI) (Fin 365)) (sub day (Fin 81)))) in
  let hourAngle := Fin 0 in
  let latRad := mul lat (div Math_PI (Fin 180)) in
  let decRad := mul declination (div Math_PI (Fin 180)) in
  let elevation :=
    Math_asin (add (mul (Math_sin latRad) (Math_sin decRad))
                   (mul (mul (Math_cos latRad) (Math_cos decRad))
                        (Math_cos hourAngle))) in
  mul elevation (div (Fin 180) Math_PI).

(** the day of the year and the declination of the sun, in degrees, as
    [calculateSunPosition] computes them from two time values *)
Definition dayOfYear (t t0 : R) : Z := Zfloor ((t - t0) / 86400000).

Definition declinationDeg (t t0 : R) : R :=
  23.45 * sin (2 * PI / 365 * (IZR (dayOfYear t t0) - 81)).

End SunDefs.

(** Every value of an array is a finite number. *)
(** every value of the array is a finite number *)
Definition all_Fin (l : list num) : Prop :=
  forall x, In x l -> exists r, x = Fin r.

(* ================================================================== *)
(** * Measures of a tree, outcomes of Math.random *)
(* ================================================================== *)

(** The number of values that the leaves of a tree hold, and the height of
    a tree. *)
Fixpoint tree_size (t : IsolationForest.node) : nat :=
  match t with
  | IsolationForest.leaf size => size
  | IsolationForest.inner _ l r => tree_size l + tree_size r
  end.

Fixpoint tree_height (t : IsolationForest.node) : nat :=
  match t with
  | IsolationForest.leaf _ => 0
  | IsolationForest.inner _ l r => S (Nat.max (tree_height l) (tree_height r))
  end.

(** [Math.random] returns a number of [0, 1): a sequence of such outcomes. *)
Definition unit_rng (s : rng) : Prop := forall k, (0 <= s k < 1)%R.

(** the seasonal estimates of a series as a real signal, zero past its end *)
Definition seasonal_real (history : list TimeSeriesPoint) (i : nat) : R :=
  match nth_error history i with
  | Some p => match seasonal p with Fin r => r | _ => 0%R end
  | None => 0%R
  end.

(* ================================================================== *)
(** * The simulator of the zones (dataSimulator.ts) *)
(* ================================================================== *)

(** [Math.min] *)
Definition Math_min (x y : num) : num :=
  match x, y with
  | NaN, _ | _, NaN => NaN
  | _, _ => if ltb y x then y else x
  end.

Module DataSimulator.

Inductive ZoneType : Type := sacred_grove | mining_drift.

Record ZoneData : Type := mkZone {
  id : string;
  name : string;
  lat : num;
  lon : num;
  type : ZoneType;
  riskScore : num;
  history : list TimeSeriesPoint
}.

Definition days : nat := 365 * 3.

(** The body of the loop of [generateZoneData], for the day [i].  The
    library date-fns is not part of the repository: [dayString i] stands
    for [format(addDays(startDate, i), 'yyyy-MM-dd')]. *)
Definition generatePoint (type : ZoneType) (dayString : nat -> string)
    (phaseShift : num) (i : nat) (history : list TimeSeriesPoint)
    : Rand (list TimeSeriesPoint) :=
  let t := div (of_nat i) (Fin 365.0) in
  let seasonal :=
    add (Fin 0.6)
        (mul (Fin 0.2)
             (Math_sin (add (mul (mul (Fin 2) Math_PI) t) phaseShift))) in
  tv <- match type with
        | sacred_grove =>
            r <- Math_random ;;
            ret (Fin 0, add (Fin 0.1) (mul r (Fin 0.1)))
        | mining_drift =>
            if gtb t (Fin 1.5) then
              r <- Math_random ;;
              ret (mul (neg (Fin 0.3)) (sub t (Fin 1.5)),
                   add (Fin 0.8) (mul r (Fin 0.2)))
            else
              r <- Math_random ;;
              ret (Fin 0, add (Fin 0.1) (mul r (Fin 0.1)))
        end ;;
  let '(trend, viirsBase) := tv in
  r <- Math_random ;;
  let noise := mul (sub r (Fin 0.5)) (Fin 0.05) in
  let ndvi := add (add seasonal trend) noise in
  let ndvi := Math_max (Fin 0) (Math_min (Fin 1) ndvi) in
  ret (history ++ [mkPoint (dayString i) ndvi viirsBase seasonal trend]).

(** [history.slice(-30)] *)
Definition recent (history : list TimeSeriesPoint) : list TimeSeriesPoint :=
  skipn (length history - 30) history.

(** [recent.reduce((sum, p) => sum + f(p), 0) / recent.length] *)
Definition average (f : TimeSeriesPoint -> num) (recent : list TimeSeriesPoint) : num :=
  div (fold_left (fun sum p => add sum (f p)) recent (Fin 0))
      (of_nat (length recent)).

Definition generateZoneData (dayString : nat -> string)
    (id name : string) (lat lon : num) (type : ZoneType) : Rand ZoneData :=
  r <- Math_random ;;
  let phaseShift := mul (mul r Math_PI) (Fin 2) in
  history <- for_loopM days (generatePoint type dayString phaseShift) [] ;;
  let recent := recent history in
  let avgNdvi := average ndvi recent in
  let avgViirs := average viirs recent in
  let riskScore := add (mul (sub (Fin 1) avgNdvi) (Fin 0.5)) (mul avgViirs (Fin 0.5)) in
  let riskScore :=
    match type with
    | mining_drift => add riskScore (Fin 0.2)
    | sacred_grove => riskScore
    end in
  ret (mkZone id name lat lon type
              (Math_min (Fin 1) (Math_max (Fin 0) riskScore)) history).

Definition generateMockZones (dayString : nat -> string) : Rand (list ZoneData) :=
  z1 <- generateZoneData dayString "z1" "Grove Alpha (North)"
          (Fin 24.5854) (Fin 73.7125) sacred_grove ;;
  z2 <- generateZoneData dayString "z2" "Grove Beta (East)"
          (Fin 24.5900) (Fin 73.7200) sacred_grove ;;
  z3 <- generateZoneData dayString "z3" "Sector Gamma (Drift)"
          (Fin 24.5800) (Fin 73.7150) mining_drift ;;
  z4 <- generateZoneData dayString "z4" "Grove Delta (South)"
          (Fin 24.5750) (Fin 73.7100) sacred_grove ;;
  z5 <- generateZoneData dayString "z5" "Sector Epsilon (Drift)"
          (Fin 24.5820) (Fin 73.7250) mining_drift ;;
  ret [z1; z2; z3; z4; z5].

(** What a point of a simulated series satisfies, at the day [i]: the
    ranges of its fields; a stable zone, which a drift zone is up to the day
    547 (t <= 1.5), has no trend, low lights and an NDVI within the noise of
    the seasonal value; from the day 548 on a drift zone has the falling
    trend and bright lights. *)
Definition point_ok (type : ZoneType) (dayString : nat -> string) (i : nat)
    (p : TimeSeriesPoint) : Prop :=
  date p = dayString i /\
  exists n v se tr : R,
    ndvi p = Fin n /\ viirs p = Fin v /\ seasonal p = Fin se /\ trend p = Fin tr /\
    (0 <= n <= 1 /\ 0.1 <= v < 1 /\ 0.4 <= se <= 0.8 /\ tr <= 0)%R /\
    (type = sacred_grove \/ i <= 547 ->
       tr = 0%R /\ (v < 0.2)%R /\ (- 0.025 <= n - se <= 0.025)%R) /\
    (type = mining_drift -> 548 <= i ->
       tr = (- 0.3 * (INR i / 365 - 1.5))%R /\ (0.8 <= v)%R /\
       (n <= Rmax 0 (se + tr + 0.025))%R).

End DataSimulator.

(* ================================================================== *)
(** * The analysis of two rasters and the chart (App.tsx) *)
(* ================================================================== *)

(** An integer of the program (a width, a height) as a number. *)
Definition of_Z (z : Z) : num := Fin (IZR z).

(** [v || y] for a value read from an object: [undefined], 0 and NaN are
    falsy *)
Definition value_or_else (v : value) (y : num) : num :=
  match v with
  | Some x => or_else x y
  | None => y
  end.

(** The solar validation of [runAnalysis] (App.tsx): the altitude of the
    sun over the simulated location at the simulated date, and the verdict
    for [stats.maxScore || 0.8]. *)
Definition solarValidation (maxScore : value) (simDate : JSDate) : num * bool :=
  let altitude := calculateSunPosition (Fin 24.5) (Fin 73.0) simDate in
  let isConfirmed :=
    validateShadowDepth altitude (value_or_else maxScore (Fin 0.8)) in
  (altitude, isConfirmed).

(** [getBoundingClientRect()] *)
Record DOMRect : Type := mkRect {
  rect_left : num;
  rect_top : num;
  rect_width : num;
  rect_height : num
}.

(** [handleCanvasClick] (App.tsx), once the result is ready: the pixel that
    [setSelectedPixel] receives, or [None] when the click selects nothing. *)
Definition handleCanvasClick (clientX clientY : num) (rect : DOMRect)
    (canvas : HTMLCanvasElement) (past : RasterData) : option (num * num) :=
  let x := Math_floor (mul (sub clientX (rect_left rect))
                           (div (of_Z (canvas_width canvas)) (rect_width rect))) in
  let y := Math_floor (mul (sub clientY (rect_top rect))
                           (div (of_Z (canvas_height canvas)) (rect_height rect))) in
  if geb x (Fin 0) && ltb x (of_Z (width past))
     && geb y (Fin 0) && ltb y (of_Z (height past))
  then Some (x, y)
  else None.

(** [getChartData] (App.tsx): the three points of the chart of the selected
    pixel, as pairs of a name and an NDVI value. *)
Definition getChartData (selectedPixel : option (num * num))
    (past present : RasterData) : list (string * num) :=
  match selectedPixel with
  | None => []
  | Some (x, y) =>
      let idx := add (mul y (of_Z (width past))) x in
      let pastVal := Number (get (samples (data past)) idx) in
      let presentVal := Number (get (samples (data present)) idx) in
      [ ("2023 (Past)"%string, pastVal);
        ("2024 (Inter)"%string, div (add pastVal presentVal) (Fin 2));
        ("2025 (Present)"%string, presentVal) ]
  end.

(* ================================================================== *)
(** * The colours of a zone (ChartPanel.tsx, Map.tsx) *)
(* ================================================================== *)

(** The class of the risk score in the panel of a zone (ChartPanel.tsx):
    [zone.riskScore > 0.5 ? 'text-red-600' : 'text-green-600']. *)
Definition riskClass (zone : DataSimulator.ZoneData) : string :=
  if gtb (DataSimulator.riskScore zone) (Fin 0.5)
  then "text-red-600" else "text-green-600".

(** The colour of the marker of a zone on the map (Map.tsx):
    [zone.type === 'sacred_grove' ? '#22c55e' : '#ef4444']. *)
Definition markerColor (zone : DataSimulator.ZoneData) : string :=
  match DataSimulator.type zone with
  | DataSimulator.sacred_grove => "#22c55e"
  | DataSimulator.mining_drift => "#ef4444"
  end.

(* ================================================================== *)
(** * Numbers, arrays and loops: basic facts *)
(* ================================================================== *)

Section NumFacts.

Local Open Scope R_scope.

Lemma Rltb_true a b : Rltb a b = true <-> a < b.
Proof. unfold Rltb; destruct (Rlt_dec a b); split; try easy. Qed.

Lemma Rltb_false a b : Rltb a b = false <-> b <= a.
Proof. unfold Rltb; destruct (Rlt_dec a b); split; try easy; lra. Qed.

Lemma Reqb_true a b : Reqb a b = true <-> a = b.
Proof. unfold Reqb; destruct (Req_dec_T a b); split; easy. Qed.

Lemma Reqb_false a b : Reqb a b = false <-> a <> b.
Proof. unfold Reqb; destruct (Req_dec_T a b); split; easy. Qed.

Lemma Reqb_refl a : Reqb a a = true.
Proof. now apply Reqb_true. Qed.

Lemma ltb_Fin a b : ltb (Fin a) (Fin b) = true <-> a < b.
Proof. apply Rltb_true. Qed.

Lemma gtb_Fin a b : gtb (Fin a) (Fin b) = true <-> a > b.
Proof. unfold gtb. rewrite ltb_Fin. lra. Qed.

(** [x >= y] excludes [x < y]. *)
Lemma geb_not_ltb x y : geb x y = true -> ltb x y = false.
Proof.
  unfold geb, leb.
  destruct x as [| |a|], y as [| |b|]; simpl; try easy.
  intros H. apply Rltb_false.
  apply orb_true_iff in H as [H|H].
  - apply Rltb_true in H. lra.
  - apply Reqb_true in H. lra.
Qed.

Lemma sub_Fin a b : sub (Fin a) (Fin b) = Fin (a - b).
Proof. reflexivity. Qed.

Lemma neg_sub_Fin a b : neg (sub (Fin a) (Fin b)) = sub (Fin b) (Fin a).
Proof. simpl. f_equal. lra. Qed.

Lemma leb_Fin a b : leb (Fin a) (Fin b) = true <-> a <= b.
Proof.
  unfold leb. simpl. rewrite orb_true_iff, Rltb_true, Reqb_true. lra.
Qed.

Lemma geb_Fin a b : geb (Fin a) (Fin b) = true <-> b <= a.
Proof. unfold geb. apply leb_Fin. Qed.

(** ** Floor, ceiling and the binary logarithm of a length *)

Lemma Zceil_spec r z : IZR z - 1 < r <= IZR z -> Zceil r = z.
Proof.
  intros H. unfold Zceil.
  rewrite <- (Int_part_spec (- r) (- z)); [lia|].
  rewrite opp_IZR. lra.
Qed.

Lemma Zceil_INR n : Zceil (INR n) = Z.of_nat n.
Proof. apply Zceil_spec. rewrite <- INR_IZR_INZ. lra. Qed.

Lemma Zfloor_INR n : Zfloor (INR n) = Z.of_nat n.
Proof. apply Int_part_INR. Qed.

Lemma iterations_of_nat n : iterations (of_nat n) = n.
Proof. unfold iterations, of_nat. rewrite Zceil_INR. lia. Qed.

Lemma ln_2_pos : 0 < ln 2.
Proof. pose proof ln_lt_2. lra. Qed.

Lemma ln_le_mono x y : 0 < x -> x <= y -> ln x <= ln y.
Proof.
  intros Hx [Hlt | ->]; [|lra].
  left. now apply ln_increasing.
Qed.

Lemma ln_pow2 k : ln (INR (2 ^ k)) = INR k * ln 2.
Proof. rewrite pow_INR. simpl (INR 2). apply ln_pow. lra. Qed.

Lemma INR_pow2_pos k : 0 < INR (2 ^ k).
Proof. rewrite pow_INR. apply pow_lt. simpl. lra. Qed.

Lemma Math_log2_of_nat n :
  (1 <= n)%nat -> Math_log2 (of_nat n) = Fin (ln (INR n) / ln 2).
Proof.
  intros Hn. unfold Math_log2, of_nat.
  assert (1 <= INR n) by (replace 1 with (INR 1) by reflexivity; now apply le_INR).
  rewrite (proj2 (Rltb_false _ _)) by lra.
  rewrite (proj2 (Reqb_false _ _)) by lra.
  reflexivity.
Qed.

Lemma Math_log2_zero : Math_log2 (of_nat 0) = NInf.
Proof.
  unfold Math_log2, of_nat. simpl (INR 0).
  rewrite (proj2 (Rltb_false _ _)) by lra.
  now rewrite Reqb_refl.
Qed.

(** [Math.ceil(Math.log2(n))] is the rounded-up binary logarithm. *)
Lemma ceil_log2_of_nat n :
  (1 <= n)%nat ->
  Math_ceil (Math_log2 (of_nat n)) = of_nat (Nat.log2_up n).
Proof.
  intros Hn. rewrite Math_log2_of_nat by exact Hn.
  unfold Math_ceil, of_nat. f_equal.
  rewrite (INR_IZR_INZ (Nat.log2_up n)). f_equal.
  apply Zceil_spec. rewrite <- INR_IZR_INZ.
  pose proof ln_2_pos as H2.
  assert (Hn1 : 1 <= INR n)
    by (replace 1 with (INR 1) by reflexivity; now apply le_INR).
  destruct (Nat.eq_dec n 1) as [-> | Hne].
  - simpl. rewrite ln_1. unfold Rdiv. rewrite Rmult_0_l. lra.
  - destruct (Nat.log2_up_spec n) as [Hlo Hhi]; [lia|].
    assert (Hk : (1 <= Nat.log2_up n)%nat) by (apply Nat.log2_up_pos; lia).
    split.
    + apply Rmult_lt_reg_r with (ln 2); [exact H2|].
      unfold Rdiv. rewrite Rmult_assoc, Rinv_l, Rmult_1_r by lra.
      replace (INR (Nat.log2_up n) - 1) with (INR (Nat.pred (Nat.log2_up n))).
      * rewrite <- ln_pow2. apply ln_increasing; [apply INR_pow2_pos|].
        now apply lt_INR.
      * rewrite <- Nat.sub_1_r, minus_INR by exact Hk. reflexivity.
    + apply Rmult_le_reg_r with (ln 2); [exact H2|].
      unfold Rdiv. rewrite Rmult_assoc, Rinv_l, Rmult_1_r by lra.
      rewrite <- ln_pow2. apply ln_le_mono; [lra|]. now apply le_INR.
Qed.

Lemma of_nat_inj_le a b : (a <= b)%nat -> geb (of_nat b) (of_nat a) = true.
Proof. intros H. apply geb_Fin. now apply le_INR. Qed.

End NumFacts.

(** Evaluation of the comparisons of explicit real numbers: each test is
    replaced by its value, which [lra] proves. *)
Ltac decide_R :=
  repeat match goal with
  | |- context [Rabs ?a] =>
      first [ rewrite (Rabs_right a) by lra | rewrite (Rabs_left a) by lra ]
  | |- context [Rltb ?a ?b] =>
      first [ rewrite (proj2 (Rltb_true a b)) by lra
            | rewrite (proj2 (Rltb_false a b)) by lra ]
  | |- context [Reqb ?a ?b] =>
      first [ rewrite (proj2 (Reqb_true a b)) by lra
            | rewrite (proj2 (Reqb_false a b)) by lra ]
  end.

Ltac eval_R :=
  repeat (progress (cbn; unfold leb, geb, gtb, fround; cbn; decide_R)).

Section ArrayFacts.

Context {A : Type}.

Lemma upd_length (l : list A) i v : length (upd l i v) = length l.
Proof.
  revert i; induction l as [|h t IH]; intros [|i]; simpl; auto.
Qed.

Lemma upd_app_here (l1 l2 : list A) x i v :
  i = length l1 -> upd (l1 ++ x :: l2) i v = l1 ++ v :: l2.
Proof.
  intros ->. induction l1 as [|h t IH]; simpl; [reflexivity | now rewrite IH].
Qed.

Lemma nth_error_upd_same (l : list A) i v :
  i < length l -> nth_error (upd l i v) i = Some v.
Proof.
  revert i; induction l as [|h t IH]; intros [|i] Hi; simpl in *; try lia; auto.
  apply IH; lia.
Qed.

Lemma nth_error_upd_other (l : list A) i j v :
  i <> j -> nth_error (upd l i v) j = nth_error l j.
Proof.
  revert i j; induction l as [|h t IH]; intros [|i] [|j] Hij; simpl; auto; try lia.
Qed.

(** A loop that stores [f i] at every index [i] of a fresh array builds the
    array of the [f i]. *)
Lemma for_loop_fill (f : nat -> A) (d : A) (n : nat) :
  for_loop n (fun i a => upd a i (f i)) (repeat d n) = map f (seq 0 n).
Proof.
  unfold for_loop.
  assert (H : forall k, k <= n ->
             fold_left (fun a i => upd a i (f i)) (seq 0 k) (repeat d n)
             = map f (seq 0 k) ++ repeat d (n - k)).
  { induction k as [|k IH]; intros Hk.
    - simpl. now rewrite Nat.sub_0_r.
    - rewrite seq_S, fold_left_app, IH by lia. simpl.
      replace (n - k) with (S (n - S k)) by lia. simpl.
      rewrite map_app. simpl.
      rewrite upd_app_here by now rewrite length_map, length_seq.
      now rewrite <- app_assoc. }
  rewrite H by lia. rewrite Nat.sub_diag. simpl. apply app_nil_r.
Qed.

Lemma map_nth_error_seq {B : Type} (g : option A -> B) (l : list A) :
  map (fun i => g (nth_error l i)) (seq 0 (length l)) = map (fun x => g (Some x)) l.
Proof.
  induction l as [|h t IH]; simpl; [reflexivity|].
  f_equal. rewrite <- seq_shift, map_map. exact IH.
Qed.

Lemma map_const_seq (z : A) a n : map (fun _ => z) (seq a n) = repeat z n.
Proof. revert a; induction n as [|n IH]; simpl; intros; f_equal; auto. Qed.

Lemma filter_none (p : A -> bool) l :
  (forall x, In x l -> p x = false) -> filter p l = [].
Proof.
  induction l as [|h t IH]; intros H; [reflexivity|].
  cbn [filter]. rewrite (H h) by (now left).
  apply IH. intros x Hx. apply H. now right.
Qed.

End ArrayFacts.

Section FlagLoop.

(** The thresholding loops of the two detectors: the mask holds 1 exactly at
    the indices that pass the test, and the counter is their number. *)
Variable p : nat -> bool.

Lemma flag_loop_inv n k :
  k <= n ->
  fold_left (fun s i => flag_body p i s) (seq 0 k) (repeat 0%Z n, 0)
  = (map (fun i => if p i then 1%Z else 0%Z) (seq 0 k) ++ repeat 0%Z (n - k),
     length (filter p (seq 0 k))).
Proof.
  induction k as [|k IH]; intros Hk.
  - simpl. now rewrite Nat.sub_0_r.
  - rewrite seq_S, fold_left_app, IH by lia. simpl.
    rewrite map_app, filter_app, length_app. simpl.
    replace (n - k) with (S (n - S k)) by lia. simpl.
    destruct (p k); simpl.
    + rewrite upd_app_here by now rewrite length_map, length_seq.
      rewrite <- app_assoc. simpl. f_equal. lia.
    + rewrite <- app_assoc. simpl. f_equal. lia.
Qed.

Lemma flag_loop n :
  for_loop n (flag_body p) (repeat 0%Z n, 0)
  = (map (fun i => if p i then 1%Z else 0%Z) (seq 0 n),
     length (filter p (seq 0 n))).
Proof.
  unfold for_loop. rewrite flag_loop_inv by lia.
  rewrite Nat.sub_diag. simpl. now rewrite app_nil_r.
Qed.

Lemma count_ones_mask l :
  count_occ Z.eq_dec (map (fun i => if p i then 1%Z else 0%Z) l) 1%Z
  = length (filter p l).
Proof.
  induction l as [|h t IH]; simpl; [reflexivity|].
  destruct (p h); simpl.
  - destruct (Z.eq_dec 1 1); [now rewrite IH | contradiction].
  - destruct (Z.eq_dec 0 1); [discriminate | exact IH].
Qed.

End FlagLoop.

Section SortFacts.

Lemma sort_leb_total x y : sort_leb x y = true \/ sort_leb y x = true.
Proof.
  destruct x as [| |a|], y as [| |b|]; simpl; auto.
  unfold leb; simpl. unfold Rltb, Reqb.
  destruct (Rlt_dec a b); simpl; auto.
  destruct (Rlt_dec b a); simpl; auto.
  destruct (Req_dec_T a b); auto. exfalso. apply n1. lra.
Qed.

Lemma insert_perm x l : Permutation (x :: l) (insert x l).
Proof.
  induction l as [|h t IH]; simpl; [reflexivity|].
  destruct (sort_leb x h); [reflexivity|].
  rewrite perm_swap. now apply perm_skip.
Qed.

Lemma sort_perm l : Permutation l (sort l).
Proof.
  induction l as [|h t IH]; simpl; [reflexivity|].
  rewrite <- insert_perm. now apply perm_skip.
Qed.

Lemma sort_length l : length (sort l) = length l.
Proof. symmetry. apply Permutation_length, sort_perm. Qed.

Lemma insert_sorted x l : Sorted sort_le l -> Sorted sort_le (insert x l).
Proof.
  induction 1 as [|h t Hs IH Hh]; simpl.
  - repeat constructor.
  - destruct (sort_leb x h) eqn:E.
    + constructor; [now constructor | now constructor].
    + constructor; [exact IH|].
      assert (Hhx : sort_le h x)
        by (destruct (sort_leb_total x h) as [H|H]; [congruence | exact H]).
      destruct t as [|h' t']; simpl.
      * now constructor.
      * destruct (sort_leb x h'); constructor; auto.
        now inversion Hh.
Qed.

Lemma sort_sorted l : Sorted sort_le (sort l).
Proof.
  induction l as [|h t IH]; simpl; [constructor | now apply insert_sorted].
Qed.

End SortFacts.

(* ================================================================== *)
(** * Properties of the drift computation *)
(* ================================================================== *)

Section Drift.

Lemma calculateDrift_shape_ok past present :
  width past = width present -> height past = height present ->
  calculateDrift past present =
    Ok (map (fun i => fround (sub (Number (ta_get (data present) i))
                                  (Number (ta_get (data past) i))))
            (seq 0 (ta_length (data past)))).
Proof.
  intros Hw Hh. unfold calculateDrift.
  rewrite Hw, Hh, !Z.eqb_refl. cbn [negb orb]. now rewrite for_loop_fill.
Qed.

Lemma calculateDrift_shape_err past present :
  width past <> width present \/ height past <> height present ->
  calculateDrift past present = Throw ShapeMismatch.
Proof.
  intros H. unfold calculateDrift.
  destruct (Z.eqb_spec (width past) (width present));
    destruct (Z.eqb_spec (height past) (height present)); simpl; try reflexivity.
  destruct H; contradiction.
Qed.

(** C1. [calculateDrift] throws the shape-mismatch error, and returns no
    array, exactly when the grids differ in width or in height; otherwise it
    returns an array with one element per sample of [past], the element at
    index [i] being [Number(present[i]) - Number(past[i])], whatever the
    element types of the two buffers. *)
Theorem calculateDrift_spec (past present : RasterData) :
  ((width past <> width present \/ height past <> height present) <->
   calculateDrift past present = Throw ShapeMismatch) /\
  ((width past <> width present \/ height past <> height present) <->
   forall drift, calculateDrift past present <> Ok drift) /\
  ((width past = width present /\ height past = height present) ->
   exists drift,
     calculateDrift past present = Ok drift /\
     length drift = ta_length (data past) /\
     forall i, i < ta_length (data past) ->
       nth_error drift i =
         Some (fround (sub (Number (ta_get (data present) i))
                           (Number (ta_get (data past) i))))).
Proof.
  assert (Hdec : (width past = width present /\ height past = height present) \/
                 (width past <> width present \/ height past <> height present)) by lia.
  repeat split.
  - apply calculateDrift_shape_err.
  - intros Hthrow. destruct Hdec as [[Hw Hh]|Hd]; [|exact Hd].
    rewrite (calculateDrift_shape_ok _ _ Hw Hh) in Hthrow. discriminate.
  - intros Hd drift. rewrite (calculateDrift_shape_err _ _ Hd). discriminate.
  - intros Hno. destruct Hdec as [[Hw Hh]|Hd]; [|exact Hd].
    exfalso. eapply Hno. apply (calculateDrift_shape_ok _ _ Hw Hh).
  - intros [Hw Hh]. eexists. split; [apply (calculateDrift_shape_ok _ _ Hw Hh)|].
    split.
    + now rewrite length_map, length_seq.
    + intros i Hi.
      rewrite nth_error_map, nth_error_seq.
      destruct (Nat.ltb_spec i (ta_length (data past))); [reflexivity | lia].
Qed.

(** The scenario of the spec: the drift is -0.4, 0, 0, 0. *)
Example calculateDrift_scenario :
  calculateDrift scenario_past scenario_present
  = Ok [Fin (-0.4); Fin 0; Fin 0; Fin 0].
Proof.
  rewrite calculateDrift_shape_ok by reflexivity.
  cbn. unfold fround. repeat f_equal; lra.
Qed.

(** Grids of different element types: a grid of bytes against a grid of
    32-bit floats. *)
Example calculateDrift_mixed_types :
  calculateDrift bytes_2x2 floats_2x2
  = Ok [Fin (-4); Fin 0; Fin 0; Fin 0].
Proof.
  rewrite calculateDrift_shape_ok by reflexivity.
  cbn. unfold fround. repeat f_equal; lra.
Qed.

Lemma grid_finite_number g i :
  grid_finite g -> i < ta_length (data g) ->
  exists r, Number (ta_get (data g) i) = Fin r.
Proof. intros Hf Hi. destruct (Hf i Hi) as [r Hr]. exists r. now rewrite Hr. Qed.

(** C6, as stated, fails: the drift of a grid against itself is NaN, not
    zero, at a sample that is [Infinity]. *)
Lemma calculateDrift_self_infinite :
  grid_wf infinite_pixel /\
  calculateDrift infinite_pixel infinite_pixel = Ok [NaN] /\
  eqb NaN (Fin 0) = false.
Proof. repeat split. Qed.

(** C6, amended.  For well-formed grids whose samples are all finite: the
    drift of a grid against itself is zero at every index, and for two grids
    of the same shape the drift from [A] to [B] is, index by index, the
    opposite of the drift from [B] to [A]. *)
Theorem calculateDrift_antisymmetric (A B : RasterData) :
  grid_wf A -> grid_wf B -> grid_finite A -> grid_finite B ->
  width A = width B -> height A = height B ->
  (exists dAA,
      calculateDrift A A = Ok dAA /\
      length dAA = ta_length (data A) /\
      forall i, i < ta_length (data A) -> nth_error dAA i = Some (Fin 0)) /\
  (exists dAB dBA,
      calculateDrift A B = Ok dAB /\ calculateDrift B A = Ok dBA /\
      length dAB = ta_length (data A) /\ length dBA = ta_length (data A) /\
      forall i, i < ta_length (data A) ->
        exists x y, nth_error dAB i = Some x /\ nth_error dBA i = Some y /\
                    x = neg y /\ eqb x (neg y) = true).
Proof.
  intros HwfA HwfB HfA HfB Hw Hh.
  assert (Hlen : ta_length (data B) = ta_length (data A)).
  { unfold grid_wf in *. rewrite Hw, Hh, <- HwfB in HwfA. lia. }
  split.
  - eexists. split; [apply calculateDrift_shape_ok; reflexivity|].
    split; [now rewrite length_map, length_seq|].
    intros i Hi. rewrite nth_error_map, nth_error_seq.
    destruct (Nat.ltb_spec i (ta_length (data A))); [|lia]. simpl.
    destruct (grid_finite_number HfA Hi) as [a ->].
    unfold fround. rewrite sub_Fin. do 2 f_equal. lra.
  - do 2 eexists.
    split; [apply calculateDrift_shape_ok; assumption|].
    split; [apply calculateDrift_shape_ok; symmetry; assumption|].
    rewrite !length_map, !length_seq. repeat split; auto.
    intros i Hi. rewrite !nth_error_map, !nth_error_seq, Hlen.
    destruct (Nat.ltb_spec i (ta_length (data A))); [|lia]. simpl.
    destruct (grid_finite_number HfA Hi) as [a ->].
    destruct (@grid_finite_number B i HfB) as [b ->]; [lia|].
    unfold fround. do 2 eexists. repeat split.
    + now rewrite neg_sub_Fin.
    + rewrite neg_sub_Fin. simpl. apply Reqb_refl.
Qed.

Lemma bytes_2x2_finite : grid_finite bytes_2x2.
Proof.
  intros i Hi. simpl in Hi.
  destruct i as [|[|[|[|i]]]]; simpl; eauto; lia.
Qed.

Lemma floats_2x2_finite : grid_finite floats_2x2.
Proof.
  intros i Hi. simpl in Hi.
  destruct i as [|[|[|[|i]]]]; simpl; eauto; lia.
Qed.

Lemma calculateDrift_antisymmetric_witness :
  grid_wf bytes_2x2 /\ grid_wf floats_2x2 /\
  grid_finite bytes_2x2 /\ grid_finite floats_2x2 /\
  (exists dAB dBA,
      calculateDrift bytes_2x2 floats_2x2 = Ok dAB /\
      calculateDrift floats_2x2 bytes_2x2 = Ok dBA /\
      length dAB = 4 /\ length dBA = 4 /\
      forall i, i < 4 ->
        exists x y, nth_error dAB i = Some x /\ nth_error dBA i = Some y /\
                    x = neg y /\ eqb x (neg y) = true).
Proof.
  split; [reflexivity|]. split; [reflexivity|].
  split; [exact bytes_2x2_finite|]. split; [exact floats_2x2_finite|].
  exact (proj2 (@calculateDrift_antisymmetric bytes_2x2 floats_2x2
                  eq_refl eq_refl bytes_2x2_finite floats_2x2_finite
                  eq_refl eq_refl)).
Defined.

End Drift.

(* ================================================================== *)
(** * Properties of the Median / MAD detector *)
(* ================================================================== *)

Section MAD.

Import RobustMAD.

Lemma statistics_median sample :
  median (statistics sample) = nth_error (sort sample) (length sample / 2).
Proof. unfold statistics. cbn [median]. now rewrite sort_length. Qed.

Lemma statistics_mad sample :
  mad (statistics sample) =
  nth_error
    (sort (map (fun x => Math_abs (sub x (Number (median (statistics sample)))))
               (sort sample)))
    (length sample / 2).
Proof.
  rewrite statistics_median. unfold statistics. cbn [mad].
  rewrite for_loop_fill, !sort_length.
  rewrite <- (sort_length sample) at 1.
  rewrite (map_nth_error_seq
             (fun v => fround (Math_abs (sub (Number v)
                (Number (nth_error (sort sample) (length sample / 2))))))).
  reflexivity.
Qed.

Lemma statistics_limit sample :
  let st := statistics sample in
  (forall m, mad st = Some m -> eqb m (Fin 0) = true ->
     limit st = sub (Number (median st)) (mul (Fin 3) (Fin 0.01))) /\
  (forall m, mad st = Some m -> eqb m (Fin 0) = false ->
     limit st = sub (Number (median st)) (mul (Fin 3) m)).
Proof.
  unfold statistics. cbv zeta. cbn [mad limit median].
  split; intros m Hm He; rewrite Hm, He; reflexivity.
Qed.

Lemma detectAnomalies_unfold drift s :
  detectAnomalies drift s =
  (mkResult (fst (flag drift (limit (statistics (fst (takeSample drift s))))))
            (snd (flag drift (limit (statistics (fst (takeSample drift s))))))
            (statistics (fst (takeSample drift s))),
   snd (takeSample drift s)).
Proof.
  unfold detectAnomalies, bind, ret.
  destruct (takeSample drift s) as [sample s']. cbn [fst snd].
  destruct (flag drift (limit (statistics sample))). reflexivity.
Qed.

Lemma flag_spec drift lim :
  flag drift lim =
  (map (fun i => if ltb (Number (nth_error drift i)) lim then 1%Z else 0%Z)
       (seq 0 (length drift)),
   length (filter (fun i => ltb (Number (nth_error drift i)) lim)
                  (seq 0 (length drift)))).
Proof.
  unfold flag.
  exact (flag_loop (fun i => ltb (Number (nth_error drift i)) lim) (length drift)).
Qed.

Lemma takeSample_small drift s :
  (Z.of_nat (length drift) <= 1000000)%Z -> takeSample drift s = (drift, s).
Proof.
  intros H. unfold takeSample.
  destruct (Z.ltb_spec 1000000 (Z.of_nat (length drift))); [lia | reflexivity].
Qed.

(** The deviations as the [Float32Array] holds them: each one goes through
    the store. *)
Lemma statistics_mad_stored sample :
  mad (statistics sample) =
  nth_error
    (sort (map (fun x => fround (Math_abs (sub x (Number (median (statistics sample))))))
               (sort sample)))
    (length sample / 2).
Proof.
  rewrite statistics_median. unfold statistics. cbn [mad].
  rewrite for_loop_fill, !sort_length.
  rewrite <- (sort_length sample) at 1.
  rewrite (map_nth_error_seq
             (fun v => fround (Math_abs (sub (Number v)
                (Number (nth_error (sort sample) (length sample / 2))))))).
  reflexivity.
Qed.

(** The limit, as the source computes it from the median and the MAD. *)
Lemma statistics_limit_eq sample :
  limit (statistics sample) =
  sub (Number (median (statistics sample)))
      (mul (Fin 3)
           (Number (match mad (statistics sample) with
                    | Some m => if eqb m (Fin 0) then Some (Fin 0.01) else Some m
                    | None => None
                    end))).
Proof.
  unfold statistics. cbv zeta. cbn [mad limit median].
  match goal with
  | |- context [match ?x with Some _ => _ | None => _ end] => destruct x as [m|]
  end; [destruct (eqb m (Fin 0))|]; reflexivity.
Qed.

(** A loop that stores, at every index of a fresh array, a value computed
    from one outcome of [Math.random]: the array of these values. *)
Lemma random_fill_loop {A : Type} (g : num -> A) (d : A) (size : nat) (s0 : rng) :
  forall k i (s' : rng),
    i + k <= size ->
    (forall t, s' t = s0 (i + t)) ->
    fst (for_loopM_from i k
           (fun j sample => r <- Math_random ;; ret (upd sample j (g r)))
           (map (fun j => g (Fin (s0 j))) (seq 0 i) ++ repeat d (size - i)) s')
    = map (fun j => g (Fin (s0 j))) (seq 0 (i + k)) ++ repeat d (size - (i + k)).
Proof.
  induction k as [|k IH]; intros i s' Hik Hs'; cbn [for_loopM_from].
  - now rewrite Nat.add_0_r.
  - unfold bind at 1. unfold bind at 1. cbn [Math_random ret].
    replace (size - i) with (S (size - S i)) by lia. cbn [repeat].
    rewrite upd_app_here by now rewrite length_map, length_seq.
    rewrite Hs', Nat.add_0_r.
    replace (map (fun j => g (Fin (s0 j))) (seq 0 i) ++ g (Fin (s0 i)) :: repeat d (size - S i))
      with (map (fun j => g (Fin (s0 j))) (seq 0 (S i)) ++ repeat d (size - S i))
      by (rewrite seq_S, map_app, <- app_assoc; reflexivity).
    rewrite (IH (S i) (fun k0 => s' (S k0))).
    + now replace (S i + k) with (i + S k) by lia.
    + lia.
    + intros t. rewrite Hs'. f_equal. lia.
Qed.

Lemma random_fill {A : Type} (g : num -> A) (d : A) (size : nat) (s : rng) :
  fst (for_loopM size
         (fun j sample => r <- Math_random ;; ret (upd sample j (g r)))
         (repeat d size) s)
  = map (fun j => g (Fin (s j))) (seq 0 size).
Proof.
  unfold for_loopM.
  pose proof (@random_fill_loop A g d size s size 0 s) as Hl.
  change (map (fun j => g (Fin (s j))) (seq 0 0) ++ repeat d (size - 0))
    with (repeat d (size - 0)) in Hl.
  rewrite Nat.sub_0_r in Hl. rewrite Hl by (try reflexivity; lia).
  change (0 + size) with size. rewrite Nat.sub_diag. apply app_nil_r.
Qed.

(** Above 1,000,000 values the sample is made of 100000 draws: the draw [j]
    reads the drift at the index that the outcome [j] of [Math.random]
    gives. *)
Lemma takeSample_large drift s :
  (1000000 < Z.of_nat (length drift))%Z ->
  fst (takeSample drift s) =
  map (fun j => fround (Number (get drift
                  (Math_floor (mul (Fin (s j)) (of_nat (length drift)))))))
      (seq 0 (Z.to_nat 100000)).
Proof.
  intros H. unfold takeSample.
  destruct (Z.ltb_spec 1000000 (Z.of_nat (length drift))) as [_ | Hle]; [|lia].
  exact (random_fill
           (fun r => fround (Number (get drift
              (Math_floor (mul r (of_nat (length drift)))))))
           (Fin 0) (Z.to_nat 100000) s).
Qed.

Lemma takeSample_length drift s :
  length (fst (takeSample drift s)) =
  if (1000000 <? Z.of_nat (length drift))%Z then Z.to_nat 100000 else length drift.
Proof.
  destruct (Z.ltb_spec 1000000 (Z.of_nat (length drift))) as [H | H].
  - rewrite takeSample_large by exact H. now rewrite length_map, length_seq.
  - now rewrite takeSample_small.
Qed.

Lemma takeSample_nonempty drift s : drift <> [] -> fst (takeSample drift s) <> [].
Proof.
  intros Hne E. apply (f_equal (@length num)) in E.
  rewrite takeSample_length in E. cbn [length] in E.
  destruct (1000000 <? Z.of_nat (length drift))%Z; [lia|].
  destruct drift; [contradiction | discriminate E].
Qed.

(** C2. The mask of the Median / MAD detector holds 1 exactly at the indices
    whose drift is under the limit, and 0 at the others, in particular where
    the drift is at least the limit; the count is the number of ones.  The
    limit is the median minus three times the MAD, or three times 0.01 when
    the MAD is 0, where the median and the MAD are the elements at the index
    floor(n/2) of the sample sorted in ascending order and of its sorted
    stored deviations; on a drift array that is not empty both exist.  The sample is the drift
    array itself up to 1,000,000 values, and 100000 draws from it above. *)
Theorem robustMAD_flags (drift : list num) (s : rng) :
  let res := fst (detectAnomalies drift s) in
  let st := stats res in
  let sample := fst (takeSample drift s) in
  length (anomalies res) = length drift /\
  (forall i d, nth_error drift i = Some d ->
     nth_error (anomalies res) i = Some (if ltb d (limit st) then 1%Z else 0%Z)) /\
  (forall i d, nth_error drift i = Some d ->
     (nth_error (anomalies res) i = Some 1%Z <-> ltb d (limit st) = true)) /\
  (forall i d, nth_error drift i = Some d -> geb d (limit st) = true ->
     nth_error (anomalies res) i = Some 0%Z) /\
  count res = count_occ Z.eq_dec (anomalies res) 1%Z /\
  (forall m, mad st = Some m -> eqb m (Fin 0) = true ->
     limit st = sub (Number (median st)) (mul (Fin 3) (Fin 0.01))) /\
  (forall m, mad st = Some m -> eqb m (Fin 0) = false ->
     limit st = sub (Number (median st)) (mul (Fin 3) m)) /\
  limit st =
    sub (Number (median st))
        (mul (Fin 3)
             (Number (match mad st with
                      | Some m => if eqb m (Fin 0) then Some (Fin 0.01) else Some m
                      | None => None
                      end))) /\
  Sorted sort_le (sort sample) /\ Permutation sample (sort sample) /\
  median st = nth_error (sort sample) (length sample / 2) /\
  mad st =
    nth_error
      (sort (map (fun x => fround (Math_abs (sub x (Number (median st)))))
                 (sort sample)))
      (length sample / 2) /\
  ((Z.of_nat (length drift) <= 1000000)%Z -> sample = drift) /\
  ((1000000 < Z.of_nat (length drift))%Z ->
     sample =
     map (fun j => fround (Number (get drift
                     (Math_floor (mul (Fin (s j)) (of_nat (length drift)))))))
         (seq 0 (Z.to_nat 100000))) /\
  (drift <> [] ->
     exists M m, median st = Some M /\ mad st = Some m /\ In M sample).
Proof.
  rewrite detectAnomalies_unfold. cbn [fst stats anomalies count].
  set (sample := fst (takeSample drift s)).
  set (st := statistics sample).
  rewrite flag_spec. cbn [fst snd].
  assert (Hnth : forall i d, nth_error drift i = Some d ->
            nth_error
              (map (fun i => if ltb (Number (nth_error drift i)) (limit st)
                             then 1%Z else 0%Z) (seq 0 (length drift))) i
            = Some (if ltb d (limit st) then 1%Z else 0%Z)).
  { intros i d Hd.
    assert (Hi : i < length drift) by (apply nth_error_Some; congruence).
    rewrite nth_error_map, nth_error_seq.
    destruct (Nat.ltb_spec i (length drift)); [|lia]. simpl. now rewrite Hd. }
  split; [now rewrite length_map, length_seq|].
  split; [exact Hnth|].
  split.
  { intros i d Hd. rewrite (Hnth i d Hd).
    destruct (ltb d (limit st)); split; congruence. }
  split.
  { intros i d Hd Hge. rewrite (Hnth i d Hd), (geb_not_ltb _ _ Hge). reflexivity. }
  split; [now rewrite count_ones_mask|].
  split; [exact (proj1 (statistics_limit sample))|].
  split; [exact (proj2 (statistics_limit sample))|].
  split; [exact (statistics_limit_eq sample)|].
  split; [apply sort_sorted|]. split; [apply sort_perm|].
  split; [exact (statistics_median sample)|].
  split; [exact (statistics_mad_stored sample)|].
  split; [intros H; unfold sample; now rewrite takeSample_small|].
  split; [intros H; unfold sample; now apply takeSample_large|].
  intros Hne.
  pose proof (@takeSample_nonempty drift s Hne) as Hsne. fold sample in Hsne.
  assert (Hlen : 1 <= length sample)
    by (destruct sample; [contradiction | cbn; lia]).
  assert (Hmid : length sample / 2 < length sample) by (apply Nat.div_lt; lia).
  unfold st. rewrite statistics_mad_stored, statistics_median.
  destruct (nth_error (sort sample) (length sample / 2)) as [M|] eqn:HM.
  2:{ apply nth_error_None in HM. rewrite sort_length in HM. lia. }
  match goal with
  | |- exists M0 m, _ /\ nth_error ?l ?i = Some m /\ _ =>
      destruct (nth_error l i) as [m|] eqn:Hm
  end.
  2:{ apply nth_error_None in Hm.
      rewrite sort_length, length_map, sort_length in Hm. lia. }
  exists M, m. split; [reflexivity|]. split; [reflexivity|].
  eapply Permutation_in; [symmetry; apply sort_perm|].
  eapply nth_error_In; exact HM.
Qed.

(** The scenario of the spec: the drift -0.4, 0, 0, 0 has median 0 and MAD
    0, so that the limit is -0.03 and index 0 alone is flagged. *)
Example robustMAD_scenario :
  fst (detectAnomalies [Fin (-0.4); Fin 0; Fin 0; Fin 0] (fun _ => 0%R)) =
  mkResult [1; 0; 0; 0]%Z 1
           (mkStats (Some (Fin 0)) (Some (Fin 0)) (Fin (-0.03))).
Proof.
  rewrite detectAnomalies_unfold, takeSample_small by (simpl; lia).
  unfold statistics, flag, for_loop. eval_R.
  repeat f_equal; lra.
Qed.

(** C7, as stated, fails: on the drift array 1, 2, 3, 4 the median of the
    detector is 3, the upper of the two middle elements, while the lower
    middle element of the sorted sample is 2. *)
Lemma median_of_four_not_lower_middle :
  median (stats (fst (detectAnomalies [Fin 1; Fin 2; Fin 3; Fin 4] (fun _ => 0%R))))
    = Some (Fin 3) /\
  lower_middle (sort [Fin 1; Fin 2; Fin 3; Fin 4]) = Some (Fin 2) /\
  Fin 3 <> Fin 2.
Proof.
  assert (Hs : sort [Fin 1; Fin 2; Fin 3; Fin 4] = [Fin 1; Fin 2; Fin 3; Fin 4]).
  { eval_R. reflexivity. }
  rewrite detectAnomalies_unfold. cbn [fst stats].
  rewrite takeSample_small by (simpl; lia). cbn [fst].
  rewrite statistics_median. unfold lower_middle. rewrite Hs.
  repeat split. intros H. injection H. lra.
Qed.

(** C7, amended.  The median of the detector is the element at index
    floor(n/2) of the sample sorted in ascending order, which for an even
    count is the upper of the two middle elements; the MAD is the element at
    the same index of the sorted array of the absolute deviations from that
    median, each of them as the [Float32Array] of the deviations stores it.
    A sample that is not empty has both. *)
Theorem robustMAD_median_mad (drift : list num) (s : rng) :
  let sample := fst (takeSample drift s) in
  let st := stats (fst (detectAnomalies drift s)) in
  let sorted := sort sample in
  let deviations :=
    map (fun x => fround (Math_abs (sub x (Number (median st))))) sorted in
  Sorted sort_le sorted /\ Permutation sample sorted /\
  median st = nth_error sorted (length sample / 2) /\
  Sorted sort_le (sort deviations) /\ Permutation deviations (sort deviations) /\
  mad st = nth_error (sort deviations) (length sample / 2) /\
  (forall m, length sample = 2 * m -> 1 <= m ->
     median st = upper_middle sorted /\
     upper_middle sorted = nth_error sorted m /\
     lower_middle sorted = nth_error sorted (m - 1)) /\
  (sample <> [] ->
     exists M a x,
       median st = Some M /\ In M sample /\
       mad st = Some a /\ In x sample /\ a = fround (Math_abs (sub x M))).
Proof.
  rewrite detectAnomalies_unfold. cbn [fst stats].
  set (sample := fst (takeSample drift s)).
  split; [apply sort_sorted|]. split; [apply sort_perm|].
  split; [apply statistics_median|].
  split; [apply sort_sorted|]. split; [apply sort_perm|].
  split; [apply statistics_mad_stored|].
  split.
  2:{ intros Hsne.
      assert (Hlen : 1 <= length sample)
        by (destruct sample; [contradiction | cbn; lia]).
      assert (Hmid : length sample / 2 < length sample) by (apply Nat.div_lt; lia).
      rewrite statistics_mad_stored, statistics_median.
      destruct (nth_error (sort sample) (length sample / 2)) as [M|] eqn:HM.
      2:{ apply nth_error_None in HM. rewrite sort_length in HM. lia. }
      cbn [Number].
      destruct (nth_error
                  (sort (map (fun x => fround (Math_abs (sub x M))) (sort sample)))
                  (length sample / 2)) as [a|] eqn:Ha.
      2:{ apply nth_error_None in Ha.
          rewrite sort_length, length_map, sort_length in Ha. lia. }
      assert (Hain : In a (map (fun x => fround (Math_abs (sub x M))) (sort sample))).
      { eapply Permutation_in; [symmetry; apply sort_perm|].
        eapply nth_error_In; exact Ha. }
      apply in_map_iff in Hain as (x & Hx & Hxin).
      exists M, a, x. split; [reflexivity|]. split.
      { eapply Permutation_in; [symmetry; apply sort_perm|].
        eapply nth_error_In; exact HM. }
      split; [reflexivity|]. split; [|now symmetry].
      eapply Permutation_in; [symmetry; apply sort_perm | exact Hxin]. }
  intros m Hm Hm1. unfold upper_middle, lower_middle.
  rewrite statistics_median, sort_length, Hm.
  replace (2 * m / 2) with m by (rewrite Nat.mul_comm, Nat.div_mul; lia).
  auto.
Qed.

(** C10. On a drift array of at most 1,000,000 values the detector draws no
    random number: its result does not depend on the outcomes of
    [Math.random], which it leaves untouched. *)
Theorem robustMAD_deterministic (drift : list num) :
  (Z.of_nat (length drift) <= 1000000)%Z ->
  forall s1 s2 : rng,
    takeSample drift s1 = (drift, s1) /\
    snd (detectAnomalies drift s1) = s1 /\
    fst (detectAnomalies drift s1) = fst (detectAnomalies drift s2).
Proof.
  intros Hn s1 s2.
  rewrite !detectAnomalies_unfold, !takeSample_small by exact Hn.
  repeat split.
Qed.

Lemma robustMAD_deterministic_witness :
  (Z.of_nat (length [Fin (-0.4); Fin 0; Fin 0; Fin 0]) <= 1000000)%Z /\
  fst (detectAnomalies [Fin (-0.4); Fin 0; Fin 0; Fin 0] (fun _ => 0%R))
  = fst (detectAnomalies [Fin (-0.4); Fin 0; Fin 0; Fin 0] (fun _ => (1/2)%R)).
Proof.
  split; [simpl; lia|].
  apply (@robustMAD_deterministic [Fin (-0.4); Fin 0; Fin 0; Fin 0]).
  simpl; lia.
Defined.

End MAD.

(* ================================================================== *)
(** * Properties of the isolation-forest detector *)
(* ================================================================== *)

Section Forest.

Import IsolationForest.

(** ** The recursion of [buildTree] ends within the height limit *)

Lemma buildTree_small fuel hl data depth s :
  length data <= 1 ->
  buildTree fuel hl data depth s = (Some (leaf (length data)), s).
Proof.
  intros H. apply Nat.leb_le in H.
  destruct fuel; cbn [buildTree]; rewrite H, orb_true_r; reflexivity.
Qed.

Lemma buildTree_total fuel : forall hl data depth s,
  geb (of_nat (depth + fuel)) hl = true ->
  exists t s', buildTree fuel hl data depth s = (Some t, s').
Proof.
  induction fuel as [|fuel IH]; intros hl data depth s Hhl.
  - rewrite Nat.add_0_r in Hhl. cbn [buildTree]. rewrite Hhl.
    cbn [orb]. unfold ret. eauto.
  - cbn [buildTree].
    destruct (geb (of_nat depth) hl || (length data <=? 1)).
    + unfold ret. eauto.
    + destruct (minmax data) as [mn mx].
      destruct (eqb mn mx); [unfold ret; eauto|].
      unfold bind at 1. cbn [Math_random].
      destruct (partition _ data) as [leftData rightData].
      unfold bind.
      destruct (IH hl leftData (depth + 1) (fun k => s (S k)))
        as (lt & s1 & Hl); [now replace (depth + 1 + fuel) with (depth + S fuel) by lia|].
      rewrite Hl.
      destruct (IH hl rightData (depth + 1) s1)
        as (rt & s2 & Hr); [now replace (depth + 1 + fuel) with (depth + S fuel) by lia|].
      rewrite Hr. unfold ret. eauto.
Qed.

Lemma buildTree_S fuel hl data depth :
  buildTree (S fuel) hl data depth =
  if geb (of_nat depth) hl || (length data <=? 1) then
    ret (Some (leaf (length data)))
  else
    let '(mn, mx) := minmax data in
    if eqb mn mx then ret (Some (leaf (length data)))
    else
      r <- Math_random ;;
      let splitValue := add mn (mul r (sub mx mn)) in
      let '(leftData, rightData) :=
        partition (fun x => ltb x splitValue) data in
      lt <- buildTree fuel hl leftData (depth + 1) ;;
      rt <- buildTree fuel hl rightData (depth + 1) ;;
      ret (match lt, rt with
           | Some lt, Some rt => Some (inner splitValue lt rt)
           | _, _ => None
           end).
Proof. reflexivity. Qed.

(** More fuel does not change a tree that was built. *)
Lemma buildTree_more_fuel fuel : forall hl data depth s t s',
  buildTree fuel hl data depth s = (Some t, s') ->
  buildTree (S fuel) hl data depth s = (Some t, s').
Proof.
  induction fuel as [|fuel IH]; intros hl data depth s t s' H.
  - cbn [buildTree] in *.
    destruct (geb (of_nat depth) hl || (length data <=? 1)); [exact H|].
    destruct (minmax data) as [mn mx].
    destruct (eqb mn mx); [exact H|].
    unfold bind in H at 1. cbn [Math_random] in H.
    destruct (partition _ data) as [leftData rightData].
    discriminate H.
  - rewrite buildTree_S in H. rewrite buildTree_S.
    destruct (geb (of_nat depth) hl || (length data <=? 1)); [exact H|].
    destruct (minmax data) as [mn mx].
    destruct (eqb mn mx); [exact H|].
    unfold bind at 1. unfold bind in H at 1. cbn [Math_random] in *.
    destruct (partition _ data) as [leftData rightData].
    unfold bind in *.
    destruct (buildTree fuel hl leftData (depth + 1) (fun k => s (S k)))
      as [[lt|] s1] eqn:Hl.
    + rewrite (IH _ _ _ _ _ _ Hl).
      destruct (buildTree fuel hl rightData (depth + 1) s1) as [[rt|] s2] eqn:Hr.
      * rewrite (IH _ _ _ _ _ _ Hr). exact H.
      * discriminate H.
    + destruct (buildTree fuel hl rightData (depth + 1) s1) as [[rt|] s2];
        discriminate H.
Qed.

Lemma heightLimit_cases n :
  heightLimit n = NInf \/ exists k, k <= 8 /\ heightLimit n = of_nat k.
Proof.
  unfold heightLimit.
  destruct (subSampleSize n) as [|m] eqn:E.
  - left. now rewrite Math_log2_zero.
  - right. exists (Nat.log2_up (S m)). split.
    + change 8 with (Nat.log2_up 256). apply Nat.log2_up_le_mono.
      rewrite <- E. unfold subSampleSize. apply Nat.le_min_r.
    + apply ceil_log2_of_nat. lia.
Qed.

Lemma heightLimit_fuel n fuel :
  8 <= fuel -> geb (of_nat (0 + fuel)) (heightLimit n) = true.
Proof.
  intros Hf. destruct (heightLimit_cases n) as [-> | (k & Hk & ->)].
  - reflexivity.
  - apply of_nat_inj_le. lia.
Qed.

Lemma buildForest_loop fuel drift :
  8 <= fuel ->
  forall k i acc s,
  exists trees s',
    for_loopM_from i k
      (fun (i : nat) (forest : option (list node)) =>
         sample <- drawSample drift ;;
         t <- buildTree fuel (heightLimit (length drift)) sample 0 ;;
         ret (match forest, t with
              | Some forest, Some t => Some (forest ++ [t])
              | _, _ => None
              end))
      (Some acc) s
    = (Some (acc ++ trees), s') /\ length trees = k.
Proof.
  intros Hf. induction k as [|k IH]; intros i acc s.
  - exists [], s. rewrite app_nil_r. split; reflexivity.
  - cbn [for_loopM_from]. unfold bind at 1 2.
    destruct (drawSample drift s) as [sample s1].
    unfold bind at 1.
    destruct (@buildTree_total fuel (heightLimit (length drift)) sample 0 s1)
      as (t & s2 & Ht); [now apply heightLimit_fuel|].
    rewrite Ht. unfold ret at 1.
    destruct (IH (S i) (acc ++ [t]) s2) as (trees & s' & Hl & Hlen).
    exists (t :: trees), s'. rewrite Hl, <- app_assoc. simpl. auto.
Qed.

(** With fuel for the height limit the forest is built: ten trees. *)
Lemma buildForest_total fuel drift s :
  8 <= fuel ->
  exists forest s',
    buildForest fuel drift s = (Some forest, s') /\ length forest = numTrees.
Proof.
  intros Hf. unfold buildForest, for_loopM.
  destruct (@buildForest_loop fuel drift Hf numTrees 0 [] s)
    as (trees & s' & H & Hlen).
  exists trees, s'. split; assumption.
Qed.

(** ** The result does not depend on the fuel, from 8 on *)

Lemma buildTree_fuel fuel hl data s :
  8 <= fuel ->
  geb (of_nat 8) hl = true ->
  buildTree fuel hl data 0 s = buildTree 8 hl data 0 s.
Proof.
  intros Hf Hhl.
  destruct (@buildTree_total 8 hl data 0 s Hhl) as (t & s' & H8).
  rewrite H8. clear Hhl.
  induction Hf as [|fuel Hf IH]; [exact H8|].
  now apply buildTree_more_fuel.
Qed.

Lemma for_loopM_from_ext {S : Type} (body body' : nat -> S -> Rand S) :
  (forall i st s, body i st s = body' i st s) ->
  forall k i st s, for_loopM_from i k body st s = for_loopM_from i k body' st s.
Proof.
  intros H. induction k as [|k IH]; intros i st s; cbn [for_loopM_from].
  - reflexivity.
  - unfold bind. rewrite H. destruct (body' i st s) as [st' s1]. apply IH.
Qed.

Lemma buildForest_fuel fuel drift s :
  8 <= fuel -> buildForest fuel drift s = buildForest 8 drift s.
Proof.
  intros Hf. unfold buildForest, for_loopM.
  apply for_loopM_from_ext. intros i st s0.
  unfold bind. destruct (drawSample drift s0) as [sample s1].
  rewrite (@buildTree_fuel fuel) by (try exact Hf; apply (heightLimit_fuel _ (le_n 8))).
  reflexivity.
Qed.

Lemma detectAnomalies_fuel fuel drift s :
  8 <= fuel -> detectAnomalies fuel drift s = detectAnomalies 8 drift s.
Proof.
  intros Hf. unfold detectAnomalies, bind. now rewrite buildForest_fuel.
Qed.

(** ** The two loops on the scores *)

Lemma scoreAll_scores forest drift :
  fst (fst (scoreAll forest drift)) = map (score forest (length drift)) drift.
Proof.
  unfold scoreAll, for_loop.
  set (n := length drift).
  set (body := fun (s : list num * num * num) (i : nat) =>
         let '(scores, minScore, maxScore) := s in
         let sc := score forest n (Number (nth_error drift i)) in
         (upd scores i (fround sc),
          if ltb sc minScore then sc else minScore,
          if gtb sc maxScore then sc else maxScore)).
  assert (H : forall k, k <= n ->
            fst (fst (fold_left body (seq 0 k) (repeat (Fin 0) n, PInf, NInf)))
            = map (fun i => score forest n (Number (nth_error drift i))) (seq 0 k)
              ++ repeat (Fin 0) (n - k)).
  { induction k as [|k IH]; intros Hk.
    - simpl. now rewrite Nat.sub_0_r.
    - rewrite seq_S, fold_left_app. simpl.
      specialize (IH ltac:(lia)).
      destruct (fold_left body (seq 0 k) (repeat (Fin 0) n, PInf, NInf))
        as [[sc mn] mx].
      simpl in IH. subst sc. simpl.
      replace (n - k) with (S (n - S k)) by lia. simpl.
      rewrite upd_app_here by now rewrite length_map, length_seq.
      rewrite map_app, <- app_assoc. reflexivity. }
  change (fst (fst (fold_left body (seq 0 n) (repeat (Fin 0) n, PInf, NInf)))
          = map (score forest n) drift).
  rewrite H by lia. rewrite Nat.sub_diag, app_nil_r.
  unfold n. apply (map_nth_error_seq (fun v => score forest (length drift) (Number v))).
Qed.

Lemma forest_flag_spec drift scores :
  flag drift scores =
  (map (fun i => if gtb (Number (nth_error scores i)) anomalyThreshold
                    && ltb (Number (nth_error drift i)) (neg (Fin 0.05))
                 then 1%Z else 0%Z) (seq 0 (length drift)),
   length (filter (fun i => gtb (Number (nth_error scores i)) anomalyThreshold
                    && ltb (Number (nth_error drift i)) (neg (Fin 0.05)))
                  (seq 0 (length drift)))).
Proof.
  unfold flag.
  exact (flag_loop (fun i => gtb (Number (nth_error scores i)) anomalyThreshold
                    && ltb (Number (nth_error drift i)) (neg (Fin 0.05)))
                   (length drift)).
Qed.

Lemma detectAnomalies_forest fuel drift s forest s' :
  buildForest fuel drift s = (Some forest, s') ->
  detectAnomalies fuel drift s =
  (Some (mkResult
           (fst (flag drift (fst (fst (scoreAll forest drift)))))
           (snd (flag drift (fst (fst (scoreAll forest drift)))))
           (mkStats (snd (scoreAll forest drift))
                    (snd (fst (scoreAll forest drift)))
                    anomalyThreshold)),
   s').
Proof.
  intros H. unfold detectAnomalies, bind. rewrite H.
  destruct (scoreAll forest drift) as [[scores mn] mx]. cbn [fst snd].
  destruct (flag drift scores). reflexivity.
Qed.

(** C3. Given fuel for the height limit, the detector returns, and for
    every outcome of the random draws: an index it flags has a score above
    0.65 and a drift under -0.05; the count is the number of flagged
    indices; and when no drift value is under -0.05 the mask is all zeros
    and the count is 0, whatever the scores. *)
Theorem isolation_flags_gated (fuel : nat) (drift : list num) (s : rng) :
  8 <= fuel ->
  exists forest res s',
    buildForest fuel drift s = (Some forest, s') /\
    detectAnomalies fuel drift s = (Some res, s') /\
    length (anomalies res) = length drift /\
    count res = count_occ Z.eq_dec (anomalies res) 1%Z /\
    (forall i, nth_error (anomalies res) i = Some 1%Z ->
       exists sc d,
         nth_error (fst (fst (scoreAll forest drift))) i = Some sc /\
         nth_error drift i = Some d /\
         gtb sc (Fin 0.65) = true /\ ltb d (neg (Fin 0.05)) = true) /\
    ((forall d, In d drift -> geb d (neg (Fin 0.05)) = true) ->
       anomalies res = repeat 0%Z (length drift) /\ count res = 0).
Proof.
  intros Hf.
  destruct (@buildForest_total fuel drift s Hf) as (forest & s' & Hb & _).
  exists forest. eexists. exists s'.
  split; [exact Hb|]. split; [exact (detectAnomalies_forest _ _ _ Hb)|].
  cbn [anomalies count]. rewrite forest_flag_spec. cbn [fst snd].
  set (scores := fst (fst (scoreAll forest drift))).
  assert (Hlen : length scores = length drift)
    by (unfold scores; now rewrite scoreAll_scores, length_map).
  split; [now rewrite length_map, length_seq|].
  split; [now rewrite count_ones_mask|].
  split.
  - intros i Hi.
    assert (Hlt : i < length drift).
    { assert (Hne : nth_error
                      (map (fun i => if gtb (Number (nth_error scores i)) anomalyThreshold
                                        && ltb (Number (nth_error drift i)) (neg (Fin 0.05))
                                     then 1%Z else 0%Z) (seq 0 (length drift))) i <> None)
        by congruence.
      apply nth_error_Some in Hne. now rewrite length_map, length_seq in Hne. }
    rewrite nth_error_map, nth_error_seq in Hi.
    destruct (Nat.ltb_spec i (length drift)); [|lia].
    cbn [option_map Nat.add] in Hi.
    destruct (nth_error scores i) as [sc|] eqn:Hsc;
      [|apply nth_error_None in Hsc; lia].
    destruct (nth_error drift i) as [d|] eqn:Hd;
      [|apply nth_error_None in Hd; lia].
    exists sc, d. cbn [Number] in Hi.
    destruct (gtb sc anomalyThreshold) eqn:E1; [|discriminate].
    destruct (ltb d (neg (Fin 0.05))) eqn:E2; [|discriminate].
    auto.
  - intros Hall.
    assert (Hp : forall i, In i (seq 0 (length drift)) ->
               gtb (Number (nth_error scores i)) anomalyThreshold
               && ltb (Number (nth_error drift i)) (neg (Fin 0.05)) = false).
    { intros i Hi. apply in_seq in Hi.
      destruct (nth_error drift i) as [d|] eqn:Hd;
        [|apply nth_error_None in Hd; lia].
      simpl (Number (Some d)).
      rewrite (geb_not_ltb _ _ (Hall d (nth_error_In _ _ Hd))).
      apply andb_false_r. }
    split.
    + rewrite (map_ext_in _ (fun _ => 0%Z)).
      * apply map_const_seq.
      * intros i Hi. now rewrite (Hp i Hi).
    + now rewrite filter_none.
Qed.

Lemma isolation_flags_gated_witness :
  8 <= 8 /\
  exists forest res s',
    buildForest 8 [Fin 1; Fin 1] (fun _ => 0%R) = (Some forest, s') /\
    detectAnomalies 8 [Fin 1; Fin 1] (fun _ => 0%R) = (Some res, s') /\
    length (anomalies res) = 2 /\
    count res = count_occ Z.eq_dec (anomalies res) 1%Z /\
    (forall i, nth_error (anomalies res) i = Some 1%Z ->
       exists sc d,
         nth_error (fst (fst (scoreAll forest [Fin 1; Fin 1]))) i = Some sc /\
         nth_error [Fin 1; Fin 1] i = Some d /\
         gtb sc (Fin 0.65) = true /\ ltb d (neg (Fin 0.05)) = true) /\
    ((forall d, In d [Fin 1; Fin 1] -> geb d (neg (Fin 0.05)) = true) ->
       anomalies res = repeat 0%Z 2 /\ count res = 0).
Proof.
  split; [lia|].
  apply (@isolation_flags_gated 8 [Fin 1; Fin 1] (fun _ => 0%R)). lia.
Defined.

(** ** The range of the scores *)

Local Open Scope R_scope.

Lemma INR_ge_2 n : (2 <= n)%nat -> 2 <= INR n.
Proof. intros H. replace 2 with (INR 2) by (simpl; lra). now apply le_INR. Qed.

Lemma c_small size : (size <= 1)%nat -> c size = Fin 0.
Proof. intros H. unfold c. apply Nat.leb_le in H. now rewrite H. Qed.

Lemma c_formula size :
  (2 <= size)%nat ->
  c size = Fin (2 * (ln (INR size + - (1)) + 0.5772156649)
                + - (2 * (INR size + - (1)) / INR size)).
Proof.
  intros H. pose proof (INR_ge_2 H) as Hm.
  unfold c. destruct (Nat.leb_spec size 1) as [Hle|_]; [lia|].
  unfold of_nat, sub. cbn [neg add Math_log].
  rewrite (proj2 (Rltb_false _ _)) by lra.
  rewrite (proj2 (Reqb_false _ _)) by lra.
  cbn [mul add div neg].
  rewrite (proj2 (Reqb_false _ _)) by lra.
  reflexivity.
Qed.

Lemma c_pos size : (2 <= size)%nat -> exists x, c size = Fin x /\ 0 < x.
Proof.
  intros H. rewrite (c_formula H). eexists. split; [reflexivity|].
  pose proof (INR_ge_2 H) as Hm.
  assert (Hq : 2 * (INR size + - (1)) / INR size < 2).
  { apply Rmult_lt_reg_r with (INR size); [lra|].
    unfold Rdiv. rewrite Rmult_assoc, Rinv_l by lra. lra. }
  destruct (Nat.eq_dec size 2) as [-> | Hne].
  - replace (INR 2 + - (1)) with 1 by (simpl; lra).
    rewrite ln_1. replace (2 * 1 / INR 2) with 1 by (simpl; lra). lra.
  - assert (H3 : 3 <= INR size).
    { replace 3 with (INR 3) by (simpl; lra). apply le_INR. lia. }
    assert (Hl : ln 2 <= ln (INR size + - (1))) by (apply ln_le_mono; lra).
    pose proof ln_lt_2. lra.
Qed.

Lemma c_nonneg size : exists x, c size = Fin x /\ 0 <= x.
Proof.
  destruct (Nat.le_gt_cases size 1) as [H|H].
  - exists 0. split; [now apply c_small | lra].
  - destruct (@c_pos size H) as (x & Hx & Hpos). exists x. split; [exact Hx | lra].
Qed.

Lemma pathLength_nonneg val t : forall depth,
  exists x, pathLength val t depth = Fin x /\ 0 <= x.
Proof.
  induction t as [size | sv l IHl r IHr]; intros depth; cbn [pathLength].
  - destruct (c_nonneg size) as (x & -> & Hx).
    exists (INR depth + x). split; [reflexivity|].
    pose proof (pos_INR depth). lra.
  - destruct (ltb val sv); auto.
Qed.

Lemma sum_pathLength_nonneg val forest : forall a,
  0 <= a ->
  exists x,
    fold_left (fun avgPathLen t => add avgPathLen (pathLength val t 0%nat))
      forest (Fin a) = Fin x /\ 0 <= x.
Proof.
  induction forest as [|t forest IH]; intros a Ha; cbn [fold_left].
  - eauto.
  - destruct (pathLength_nonneg val t 0%nat) as (x & -> & Hx).
    cbn [add]. apply IH. lra.
Qed.

Lemma INR_numTrees : INR numTrees = 10.
Proof. unfold numTrees. simpl. lra. Qed.

Lemma Math_pow_2_nonpos e :
  e <= 0 -> exists r, Math_pow (Fin 2) (Fin e) = Fin r /\ 0 < r <= 1.
Proof.
  intros He. cbn [Math_pow].
  destruct (Req_dec_T e 0) as [-> | Hne].
  - rewrite Reqb_refl. exists 1. split; [reflexivity | lra].
  - rewrite (proj2 (Reqb_false e 0)) by exact Hne.
    rewrite (proj2 (Reqb_false 2 0)) by lra.
    rewrite (proj2 (Rltb_true 0 2)) by lra.
    eexists. split; [reflexivity|].
    unfold Rpower. split; [apply exp_pos|].
    rewrite <- exp_0. left. apply exp_increasing.
    pose proof ln_2_pos. nra.
Qed.

(** On an array of two values or more, every score is a real number of the
    interval (0, 1]. *)
Lemma score_range forest n val :
  (2 <= n)%nat -> exists r, score forest n val = Fin r /\ 0 < r <= 1.
Proof.
  intros Hn. unfold score.
  destruct (@sum_pathLength_nonneg val forest 0 (Rle_refl 0)) as (x & -> & Hx).
  destruct (@c_pos (subSampleSize n)) as (y & -> & Hy);
    [unfold subSampleSize; lia|].
  unfold of_nat. rewrite INR_numTrees. cbn [div].
  rewrite (proj2 (Reqb_false 10 0)) by lra. cbn [neg div].
  rewrite (proj2 (Reqb_false y 0)) by lra.
  apply Math_pow_2_nonpos.
  assert (0 <= x / 10) by lra.
  assert (0 <= x / 10 / y).
  { unfold Rdiv at 1. apply Rmult_le_pos; [assumption|].
    left. now apply Rinv_0_lt_compat. }
  unfold Rdiv in *. rewrite <- Ropp_mult_distr_l. lra.
Qed.

(** ** A single value: the score is NaN *)

Lemma for_loopM_inv {S : Type} (P : S -> Prop) (body : nat -> S -> Rand S) :
  (forall i st s, P st -> P (fst (body i st s))) ->
  forall k i st s, P st -> P (fst (for_loopM_from i k body st s)).
Proof.
  intros Hbody. induction k as [|k IH]; intros i st s Hst; cbn [for_loopM_from].
  - exact Hst.
  - unfold bind. specialize (Hbody i st s Hst).
    destruct (body i st s) as [st' s1]. apply IH. exact Hbody.
Qed.

Lemma drawSample_length drift s :
  length (fst (drawSample drift s)) = subSampleSize (length drift).
Proof.
  unfold drawSample, for_loopM.
  apply (for_loopM_inv (fun l : list num => length l = subSampleSize (length drift))).
  - intros i st s0 Hst. unfold bind, ret. cbn [Math_random fst].
    now rewrite upd_length.
  - apply repeat_length.
Qed.




Lemma Forall_eq_repeat {A : Type} (a : A) l :
  Forall (fun t => t = a) l -> l = repeat a (length l).
Proof. induction 1 as [|t l Ht _ IH]; cbn; [reflexivity | now rewrite Ht, <- IH]. Qed.




End Forest.

(* ================================================================== *)
(** * Properties of the harmonic analysis *)
(* ================================================================== *)

Section RealSums.

Local Open Scope R_scope.


Lemma Rsum_ext f g n :
  (forall i, (i < n)%nat -> f i = g i) -> Rsum f n = Rsum g n.
Proof.
  induction n as [|n IH]; intros H; simpl; [reflexivity|].
  rewrite IH by (intros; apply H; lia). now rewrite H by lia.
Qed.

Lemma Rsum_plus f g n : Rsum (fun i => f i + g i) n = Rsum f n + Rsum g n.
Proof. induction n as [|n IH]; simpl; [lra | rewrite IH; lra]. Qed.

Lemma Rsum_minus f g n : Rsum (fun i => f i - g i) n = Rsum f n - Rsum g n.
Proof. induction n as [|n IH]; simpl; [lra | rewrite IH; lra]. Qed.

Lemma Rsum_scal c f n : Rsum (fun i => c * f i) n = c * Rsum f n.
Proof. induction n as [|n IH]; simpl; [lra | rewrite IH; lra]. Qed.

Lemma Rsum_scal_r c f n : Rsum (fun i => f i * c) n = Rsum f n * c.
Proof. induction n as [|n IH]; simpl; [lra | rewrite IH; lra]. Qed.

Lemma Rsum_zero n : Rsum (fun _ => 0) n = 0.
Proof. induction n as [|n IH]; simpl; [lra | rewrite IH; lra]. Qed.

Lemma Rsum_swap (f : nat -> nat -> R) n m :
  Rsum (fun i => Rsum (fun j => f i j) m) n
  = Rsum (fun j => Rsum (fun i => f i j) n) m.
Proof.
  induction n as [|n IH]; simpl.
  - now rewrite Rsum_zero.
  - rewrite IH, <- Rsum_plus. reflexivity.
Qed.

(** the sum that is [f i0] at the index [i0] and zero elsewhere *)
Lemma Rsum_single f n i0 :
  (i0 < n)%nat -> (forall i, (i < n)%nat -> i <> i0 -> f i = 0) ->
  Rsum f n = f i0.
Proof.
  induction n as [|n IH]; intros Hi H; [lia|]. simpl.
  destruct (Nat.eq_dec i0 n) as [-> | Hne].
  - rewrite (Rsum_ext f (fun _ => 0)), Rsum_zero by (intros; apply H; lia). lra.
  - rewrite IH by (try lia; intros; apply H; lia).
    rewrite (H n) by lia. lra.
Qed.

Variable size : nat.
Hypothesis size_pos : (0 < size)%nat.

Lemma Rsize_pos : 0 < INR size.
Proof. apply lt_0_INR. exact size_pos. Qed.

Lemma angle_0 : angle size 0 = 0.
Proof. pose proof Rsize_pos. unfold angle. simpl (INR 0). field. lra. Qed.

Lemma angle_plus a b : angle size (a + b) = angle size a + angle size b.
Proof. pose proof Rsize_pos. unfold angle. rewrite plus_INR. field. lra. Qed.

Lemma angle_mult_size k : angle size (k * size) = 2 * INR k * PI.
Proof. pose proof Rsize_pos. unfold angle. rewrite mult_INR. field. lra. Qed.

Lemma cos_angle_period a k : cos (angle size (a + k * size)) = cos (angle size a).
Proof. rewrite angle_plus, angle_mult_size. apply cos_period. Qed.

Lemma sin_angle_period a k : sin (angle size (a + k * size)) = sin (angle size a).
Proof. rewrite angle_plus, angle_mult_size. apply sin_period. Qed.

(** the half angle has a sine different from zero unless [size] divides [m] *)
Lemma sin_half_angle_neq0 m :
  (m mod size <> 0)%nat -> sin (angle size m / 2) <> 0.
Proof.
  intros Hm Hs. apply sin_eq_0_0 in Hs as [k Hk].
  pose proof Rsize_pos as Hsize.
  assert (HPI : PI <> 0) by apply PI_neq0.
  assert (Heq : INR m = IZR k * INR size).
  { unfold angle in Hk.
    apply Rmult_eq_reg_r with (PI / INR size);
      [|unfold Rdiv; apply Rmult_integral_contrapositive_currified;
        [exact HPI | apply Rinv_neq_0_compat; lra]].
    transitivity (2 * PI * INR m / INR size / 2); [field; lra|].
    rewrite Hk. field. lra. }
  rewrite !INR_IZR_INZ, <- mult_IZR in Heq. apply eq_IZR in Heq.
  apply Hm. apply Nat.Lcm0.mod_divide.
  exists (Z.to_nat k). 
  assert (0 <= k)%Z by nia. nia.
Qed.

Lemma cos_telescope m n :
  2 * sin (angle size m / 2) * Rsum (fun i => cos (angle size (i * m))) n
  = sin (angle size (n * m) - angle size m / 2) + sin (angle size m / 2).
Proof.
  induction n as [|n IH].
  - cbn [Rsum Nat.mul]. rewrite angle_0.
    replace (0 - angle size m / 2) with (- (angle size m / 2)) by lra.
    rewrite sin_neg. lra.
  - simpl Rsum. rewrite Rmult_plus_distr_l, IH.
    replace (S n * m)%nat with (n * m + m)%nat by lia.
    rewrite angle_plus.
    set (a := angle size (n * m)). set (h := angle size m / 2).
    replace (angle size m) with (h + h) by (unfold h; lra).
    replace (a + (h + h) - h) with (a + h) by lra.
    rewrite sin_minus, sin_plus. lra.
Qed.

Lemma sin_telescope m n :
  2 * sin (angle size m / 2) * Rsum (fun i => sin (angle size (i * m))) n
  = cos (angle size m / 2) - cos (angle size (n * m) - angle size m / 2).
Proof.
  induction n as [|n IH].
  - cbn [Rsum Nat.mul]. rewrite angle_0.
    replace (0 - angle size m / 2) with (- (angle size m / 2)) by lra.
    rewrite cos_neg. lra.
  - simpl Rsum. rewrite Rmult_plus_distr_l, IH.
    replace (S n * m)%nat with (n * m + m)%nat by lia.
    rewrite angle_plus.
    set (a := angle size (n * m)). set (h := angle size m / 2).
    replace (angle size m) with (h + h) by (unfold h; lra).
    replace (a + (h + h) - h) with (a + h) by lra.
    rewrite cos_minus, cos_plus. lra.
Qed.

Lemma angle_size_mult m : angle size (size * m) = 2 * INR m * PI.
Proof. rewrite Nat.mul_comm. apply angle_mult_size. Qed.

(** The sums of the roots of unity. *)
Lemma cos_sum_zero m :
  (m mod size <> 0)%nat -> Rsum (fun i => cos (angle size (i * m))) size = 0.
Proof.
  intros Hm. pose proof (sin_half_angle_neq0 m Hm) as Hs.
  pose proof (cos_telescope m size) as H.
  rewrite angle_size_mult in H.
  replace (2 * INR m * PI - angle size m / 2)
    with (- (angle size m / 2) + 2 * INR m * PI) in H by lra.
  rewrite sin_period, sin_neg in H.
  apply Rmult_eq_reg_l with (2 * sin (angle size m / 2)); [lra|].
  intros Hc. apply Hs. lra.
Qed.

Lemma sin_sum_zero m :
  Rsum (fun i => sin (angle size (i * m))) size = 0.
Proof.
  destruct (Nat.eq_dec (m mod size) 0) as [Hz | Hm].
  - rewrite (Rsum_ext _ (fun _ => 0)); [apply Rsum_zero|].
    intros i _. apply Nat.Lcm0.mod_divide in Hz as [q ->].
    replace (i * (q * size))%nat with (0 + (i * q) * size)%nat by lia.
    rewrite sin_angle_period, angle_0. apply sin_0.
  - pose proof (sin_half_angle_neq0 m Hm) as Hs.
    pose proof (sin_telescope m size) as H.
    rewrite angle_size_mult in H.
    replace (2 * INR m * PI - angle size m / 2)
      with (- (angle size m / 2) + 2 * INR m * PI) in H by lra.
    rewrite cos_period, cos_neg in H.
    apply Rmult_eq_reg_l with (2 * sin (angle size m / 2)); [lra|].
    intros Hc. apply Hs. lra.
Qed.

Lemma Rsum_const c n : Rsum (fun _ => c) n = INR n * c.
Proof.
  induction n as [|n IH]; [simpl; lra|].
  cbn [Rsum]. rewrite IH, S_INR. lra.
Qed.

Lemma cos_sum_size m :
  (m mod size = 0)%nat -> Rsum (fun i => cos (angle size (i * m))) size = INR size.
Proof.
  intros Hz. rewrite (Rsum_ext _ (fun _ => 1)); [rewrite Rsum_const; lra|].
  intros i _. apply Nat.Lcm0.mod_divide in Hz as [q ->].
  replace (i * (q * size))%nat with (0 + (i * q) * size)%nat by lia.
  rewrite cos_angle_period, angle_0. apply cos_0.
Qed.

(** ** The transform of a real signal *)

Lemma Rsum_opp f n : Rsum (fun i => - f i) n = - Rsum f n.
Proof. induction n as [|n IH]; simpl; [lra | rewrite IH; lra]. Qed.

Lemma dft_re_real x k :
  dft_re size x (fun _ => 0) k = Rsum (fun n => x n * cos (angle size (n * k))) size.
Proof. unfold dft_re. apply Rsum_ext. intros. lra. Qed.

Lemma dft_im_real x k :
  dft_im size x (fun _ => 0) k = - Rsum (fun n => x n * sin (angle size (n * k))) size.
Proof. unfold dft_im. rewrite <- Rsum_opp. apply Rsum_ext. intros. lra. Qed.

Lemma mod_small_neq0 k : (0 < k < size)%nat -> (k mod size <> 0)%nat.
Proof. intros H. rewrite Nat.mod_small; lia. Qed.

(** the sums over one index of the transform, for a bin [k < size] *)
Lemma cos_sum_bin k :
  (k < size)%nat ->
  Rsum (fun i => cos (angle size (i * k))) size = if Nat.eqb k 0 then INR size else 0.
Proof.
  intros Hk. destruct (Nat.eqb_spec k 0) as [-> | Hne].
  - apply cos_sum_size. apply Nat.Div0.mod_0_l.
  - apply cos_sum_zero. apply mod_small_neq0. lia.
Qed.

Lemma cos_shift n k i :
  (i <= size)%nat ->
  cos (angle size (n * k)) * cos (angle size (k * i))
  + sin (angle size (n * k)) * sin (angle size (k * i))
  = cos (angle size (k * (n + size - i))).
Proof.
  intros Hi. rewrite <- cos_minus.
  assert (H : angle size (k * (n + size - i)) + angle size (k * i)
              = angle size (n * k) + 2 * INR k * PI).
  { rewrite <- angle_plus, <- angle_mult_size, <- angle_plus. f_equal. nia. }
  replace (angle size (n * k) - angle size (k * i))
    with (angle size (k * (n + size - i)) + - (2 * INR k * PI)) by lra.
  rewrite <- (cos_period (angle size (k * (n + size - i)) + - (2 * INR k * PI)) k).
  f_equal. lra.
Qed.

(** the filtered signal as a double sum *)
Lemma smoothed_re_kernel x i :
  (i <= size)%nat ->
  smoothed_re size x i =
  Rsum (fun k => if keep size k
                 then Rsum (fun n => x n * cos (angle size (k * (n + size - i)))) size
                 else 0) size.
Proof.
  intros Hi. unfold smoothed_re, idft_re, low_pass.
  apply Rsum_ext. intros k Hk.
  destruct (keep size k); [|lra].
  rewrite dft_re_real, dft_im_real.
  rewrite <- Rsum_scal_r.
  replace (- Rsum (fun n => x n * sin (angle size (n * k))) size * sin (angle size (k * i)))
    with (- (Rsum (fun n => x n * sin (angle size (n * k))) size * sin (angle size (k * i))))
    by lra.
  rewrite <- Rsum_scal_r. unfold Rminus. rewrite Ropp_involutive, <- Rsum_plus.
  apply Rsum_ext. intros n Hn.
  rewrite <- (cos_shift n k Hi). lra.
Qed.

(** Without filtering the inverse transform gives the signal back, [size]
    times. *)
Lemma smoothed_re_identity x i :
  (forall k, (k < size)%nat -> keep size k = true) ->
  (i < size)%nat ->
  smoothed_re size x i = INR size * x i.
Proof.
  intros Hkeep Hi. rewrite smoothed_re_kernel by lia.
  rewrite (Rsum_ext _ (fun k => Rsum (fun n => x n * cos (angle size (k * (n + size - i)))) size))
    by (intros k Hk; now rewrite Hkeep).
  rewrite Rsum_swap.
  rewrite (Rsum_ext _ (fun n => x n * Rsum (fun k => cos (angle size (k * (n + size - i)))) size))
    by (intros; apply Rsum_scal).
  rewrite (Rsum_single _ Hi).
  - replace (i + size - i)%nat with size by lia.
    rewrite cos_sum_size by apply Nat.Div0.mod_same. lra.
  - intros n Hn Hne. rewrite cos_sum_zero; [lra|].
    intros Hmod. apply Nat.Lcm0.mod_divide in Hmod as [q Hq].
    assert (q = 1%nat) by nia. nia.
Qed.

(** A constant signal goes through the filter unchanged. *)
Lemma smoothed_re_constant x c i :
  (forall n, (n < size)%nat -> x n = c) ->
  smoothed_re size x i = INR size * c.
Proof.
  intros Hx. unfold smoothed_re, idft_re.
  assert (Hre : forall k, (k < size)%nat ->
            low_pass size (dft_re size x (fun _ => 0)) k
            = if Nat.eqb k 0 then INR size * c else 0).
  { intros k Hk. unfold low_pass. rewrite dft_re_real.
    rewrite (Rsum_ext _ (fun n => c * cos (angle size (n * k))))
      by (intros n Hn; now rewrite Hx).
    rewrite Rsum_scal, cos_sum_bin by exact Hk.
    destruct (Nat.eqb_spec k 0) as [-> | Hne].
    - cbn [keep cutoff Nat.leb andb negb]. lra.
    - destruct (keep size k); lra. }
  assert (Him : forall k, (k < size)%nat ->
            low_pass size (dft_im size x (fun _ => 0)) k = 0).
  { intros k Hk. unfold low_pass. rewrite dft_im_real.
    rewrite (Rsum_ext _ (fun n => c * sin (angle size (n * k))))
      by (intros n Hn; now rewrite Hx).
    rewrite Rsum_scal, sin_sum_zero.
    destruct (keep size k); lra. }
  rewrite (Rsum_ext _ (fun k => if Nat.eqb k 0 then INR size * c else 0)).
  - rewrite (Rsum_single _ size_pos); [reflexivity|].
    intros k _ Hk. destruct (Nat.eqb_spec k 0); [contradiction | reflexivity].
  - intros k Hk. rewrite Hre, Him by exact Hk.
    destruct (Nat.eqb_spec k 0) as [-> | Hne]; [|lra].
    cbn [Nat.mul]. rewrite angle_0, cos_0. lra.
Qed.

(** ** Two sums of an inverse transform *)

Lemma idft_re_sum yr yi :
  Rsum (idft_re size yr yi) size = INR size * yr 0%nat.
Proof.
  unfold idft_re. rewrite Rsum_swap.
  rewrite (Rsum_ext _ (fun k => if Nat.eqb k 0 then INR size * yr 0%nat else 0)).
  - rewrite (Rsum_single _ size_pos); [reflexivity|].
    intros k _ Hk. destruct (Nat.eqb_spec k 0); [contradiction | reflexivity].
  - intros k Hk. rewrite Rsum_minus, !Rsum_scal.
    rewrite (Rsum_ext (fun i => cos (angle size (k * i)))
                      (fun i => cos (angle size (i * k))))
      by (intros; now rewrite Nat.mul_comm).
    rewrite (Rsum_ext (fun i => sin (angle size (k * i)))
                      (fun i => sin (angle size (i * k))))
      by (intros; now rewrite Nat.mul_comm).
    rewrite cos_sum_bin, sin_sum_zero by exact Hk.
    destruct (Nat.eqb_spec k 0) as [-> | Hne]; lra.
Qed.

Variable half : nat.
Hypothesis size_even : size = (2 * half)%nat.

Lemma angle_half : angle size half = PI.
Proof.
  unfold angle. rewrite size_even, mult_INR. simpl (INR 2).
  assert (0 < INR half) by (apply lt_0_INR; lia).
  field. lra.
Qed.

Lemma alternating i :
  cos (angle size (i * half)) = (-1) ^ i /\ sin (angle size (i * half)) = 0.
Proof.
  induction i as [|i [IHc IHs]].
  - cbn [Nat.mul pow]. rewrite angle_0, cos_0, sin_0. split; reflexivity.
  - replace (S i * half)%nat with (i * half + half)%nat by lia.
    rewrite angle_plus, angle_half, neg_cos, neg_sin, IHc, IHs.
    cbn [pow]. split; lra.
Qed.

Lemma idft_re_alt_sum yr yi :
  Rsum (fun i => (-1) ^ i * idft_re size yr yi i) size = INR size * yr half.
Proof.
  unfold idft_re.
  rewrite (Rsum_ext _ (fun i => Rsum (fun k =>
             yr k * cos (angle size (i * (k + half)))
             - yi k * sin (angle size (i * (k + half)))) size)).
  2:{ intros i Hi. rewrite <- Rsum_scal. apply Rsum_ext. intros k Hk.
      replace (i * (k + half))%nat with (k * i + i * half)%nat by lia.
      rewrite angle_plus, cos_plus, sin_plus.
      destruct (alternating i) as [-> ->]. lra. }
  rewrite Rsum_swap.
  assert (Hh : (half < size)%nat) by lia.
  rewrite (Rsum_ext _ (fun k => if Nat.eqb k half then INR size * yr half else 0)).
  - rewrite (Rsum_single _ Hh).
    + now rewrite Nat.eqb_refl.
    + intros k _ Hk. destruct (Nat.eqb_spec k half); [contradiction | reflexivity].
  - intros k Hk. rewrite Rsum_minus, !Rsum_scal, sin_sum_zero.
    destruct (Nat.eqb_spec k half) as [-> | Hne].
    + rewrite cos_sum_size; [lra|].
      replace (half + half)%nat with size by lia. apply Nat.Div0.mod_same.
    + rewrite cos_sum_zero; [lra|].
      intros Hmod. apply Nat.Lcm0.mod_divide in Hmod as [q Hq].
      assert (q = 1%nat) by nia. nia.
Qed.

End RealSums.

Section Ripple.

Local Open Scope R_scope.


Lemma INR_32 : INR 32 = 32.
Proof. simpl. lra. Qed.

Lemma smoothed_31_sum :
  Rsum (smoothed_re 32 (const_signal 31 1)) 32 = 32 * 31.
Proof.
  unfold smoothed_re.
  rewrite (@idft_re_sum 32 ltac:(lia)).
  unfold low_pass. cbn [keep cutoff Nat.leb andb negb].
  rewrite (@dft_re_real 32), INR_32.
  rewrite (Rsum_ext _ (const_signal 31 1)).
  - cbn [Rsum const_signal Nat.ltb Nat.leb]. lra.
  - intros n _. rewrite Nat.mul_0_r, (@angle_0 32 ltac:(lia)), cos_0. lra.
Qed.

Lemma smoothed_31_alt_sum :
  Rsum (fun i => (-1) ^ i * smoothed_re 32 (const_signal 31 1) i) 32 = 0.
Proof.
  unfold smoothed_re.
  rewrite (@idft_re_alt_sum 32 ltac:(lia) 16 eq_refl).
  unfold low_pass.
  replace (keep 32 16) with false by reflexivity. lra.
Qed.

(** On the constant signal 1 of length 31, padded to 32, the filtered
    signal is not within 1/32 of the constant at every index. *)
Lemma smoothed_31_not_flat :
  ~ (forall i, (i < 31)%nat ->
       Rabs (smoothed_re 32 (const_signal 31 1) i / 32 - 1) < 1 / 32).
Proof.
  intros H.
  pose proof smoothed_31_sum as S1. pose proof smoothed_31_alt_sum as S2.
  set (y := smoothed_re 32 (const_signal 31 1)) in *.
  assert (Hb : forall i, (i < 31)%nat -> y i > 31)
    by (intros i Hi; specialize (H i Hi); apply Rabs_def2 in H; lra).
  cbn [Rsum pow] in S1, S2.
  pose proof (Hb 0%nat ltac:(lia)). pose proof (Hb 2%nat ltac:(lia)).
  pose proof (Hb 4%nat ltac:(lia)). pose proof (Hb 6%nat ltac:(lia)).
  pose proof (Hb 8%nat ltac:(lia)). pose proof (Hb 10%nat ltac:(lia)).
  pose proof (Hb 12%nat ltac:(lia)). pose proof (Hb 14%nat ltac:(lia)).
  pose proof (Hb 16%nat ltac:(lia)). pose proof (Hb 18%nat ltac:(lia)).
  pose proof (Hb 20%nat ltac:(lia)). pose proof (Hb 22%nat ltac:(lia)).
  pose proof (Hb 24%nat ltac:(lia)). pose proof (Hb 26%nat ltac:(lia)).
  pose proof (Hb 28%nat ltac:(lia)). pose proof (Hb 30%nat ltac:(lia)).
  lra.
Qed.

End Ripple.

Section HarmonicModel.

Local Open Scope R_scope.

(** ** The arrays of the model hold the real signals *)

Lemma num_sum_Fin f g n :
  (forall i, (i < n)%nat -> f i = Fin (g i)) ->
  FFT.num_sum f n = Fin (Rsum g n).
Proof.
  unfold FFT.num_sum. induction n as [|n IH]; intros H; [reflexivity|].
  rewrite seq_S, fold_left_app, IH by (intros; apply H; lia).
  cbn [fold_left Nat.add Rsum]. now rewrite H by lia.
Qed.

Lemma flat_map_pairs {A : Type} (a b : nat -> A) n : forall s,
  length (flat_map (fun k => [a k; b k]) (seq s n)) = (2 * n)%nat /\
  forall k, (k < n)%nat ->
    nth_error (flat_map (fun k => [a k; b k]) (seq s n)) (2 * k) = Some (a (s + k)%nat) /\
    nth_error (flat_map (fun k => [a k; b k]) (seq s n)) (2 * k + 1) = Some (b (s + k)%nat).
Proof.
  induction n as [|n IH]; intros s.
  - split; [reflexivity | intros; lia].
  - destruct (IH (S s)) as [Hlen Hnth]. cbn [seq flat_map app]. split.
    + cbn [length]. rewrite Hlen. lia.
    + intros [|k] Hk.
      * rewrite Nat.add_0_r. split; reflexivity.
      * replace (2 * S k)%nat with (S (S (2 * k))) by lia.
        replace (S (S (2 * k)) + 1)%nat with (S (S (2 * k + 1))) by lia.
        cbn [nth_error]. replace (s + S k)%nat with (S s + k)%nat by lia.
        apply Hnth. lia.
Qed.

Lemma represents_re size data fr fi k :
  represents size data fr fi -> (k < size)%nat -> FFT.re data k = Fin (fr k).
Proof. intros [_ H] Hk. unfold FFT.re. now rewrite (proj1 (H k Hk)). Qed.

Lemma represents_im size data fr fi k :
  represents size data fr fi -> (k < size)%nat -> FFT.im data k = Fin (fi k).
Proof. intros [_ H] Hk. unfold FFT.im. now rewrite (proj2 (H k Hk)). Qed.

Lemma transform_represents size data fr fi :
  represents size data fr fi ->
  represents size (FFT.transform size data) (dft_re size fr fi) (dft_im size fr fi).
Proof.
  intros Hr. unfold FFT.transform, FFT.forward_bin.
  match goal with
  | |- represents _ (flat_map (fun k => [?a; ?b]) _) _ _ =>
      destruct (flat_map_pairs (fun k => a) (fun k => b) size 0%nat) as [Hlen Hnth]
  end.
  split; [exact Hlen|]. intros k Hk.
  destruct (Hnth k Hk) as [-> ->]. cbn [Nat.add].
  split; f_equal; apply num_sum_Fin; intros n Hn;
    rewrite (represents_re Hr Hn), (represents_im Hr Hn); reflexivity.
Qed.

Lemma inverse_represents size data fr fi :
  represents size data fr fi ->
  represents size (FFT.inverseTransform size data)
             (idft_re size fr fi) (idft_im size fr fi).
Proof.
  intros Hr. unfold FFT.inverseTransform, FFT.inverse_bin.
  match goal with
  | |- represents _ (flat_map (fun k => [?a; ?b]) _) _ _ =>
      destruct (flat_map_pairs (fun k => a) (fun k => b) size 0%nat) as [Hlen Hnth]
  end.
  split; [exact Hlen|]. intros k Hk.
  destruct (Hnth k Hk) as [-> ->]. cbn [Nat.add].
  split; f_equal; apply num_sum_Fin; intros n Hn;
    rewrite (represents_re Hr Hn), (represents_im Hr Hn); reflexivity.
Qed.

(** a loop that stores a pair at the positions [2 i] and [2 i + 1], for the
    indices [i] of a list *)
Lemma store_pairs (f g : nat -> num) size L : forall init,
  length init = (2 * size)%nat ->
  (forall i, In i L -> (i < size)%nat) ->
  let res := fold_left (fun a i => upd (upd a (2 * i) (f i)) (2 * i + 1) (g i)) L init in
  length res = (2 * size)%nat /\
  forall k, (k < size)%nat ->
    nth_error res (2 * k)
      = (if existsb (Nat.eqb k) L then Some (f k) else nth_error init (2 * k)) /\
    nth_error res (2 * k + 1)
      = (if existsb (Nat.eqb k) L then Some (g k) else nth_error init (2 * k + 1)).
Proof.
  induction L as [|i L IH]; intros init Hlen HL; cbn zeta.
  - split; [exact Hlen|]. intros k Hk. split; reflexivity.
  - cbn [fold_left existsb].
    assert (Hi : (i < size)%nat) by (apply HL; now left).
    destruct (IH (upd (upd init (2 * i) (f i)) (2 * i + 1) (g i))) as [Hl Hn].
    { now rewrite !upd_length. }
    { intros j Hj. apply HL. now right. }
    split; [exact Hl|]. intros k Hk.
    destruct (Hn k Hk) as [-> ->].
    destruct (existsb (Nat.eqb k) L).
    + rewrite orb_true_r. split; reflexivity.
    + rewrite orb_false_r. destruct (Nat.eqb_spec k i) as [-> | Hne].
      * split.
        -- rewrite nth_error_upd_other by lia.
           apply nth_error_upd_same. lia.
        -- apply nth_error_upd_same. rewrite upd_length. lia.
      * split; rewrite !nth_error_upd_other by lia; reflexivity.
Qed.

Lemma existsb_seq k a n :
  existsb (Nat.eqb k) (seq a n) = ((a <=? k)%nat && (k <? a + n)%nat)%bool.
Proof.
  revert a; induction n as [|n IH]; intros a; cbn [seq existsb].
  - destruct (Nat.leb_spec a k), (Nat.ltb_spec k (a + 0)); simpl; auto; lia.
  - rewrite IH.
    destruct (Nat.eqb_spec k a), (Nat.leb_spec a k), (Nat.leb_spec (S a) k),
      (Nat.ltb_spec k (a + S n)), (Nat.ltb_spec k (S a + n)); simpl; auto; lia.
Qed.

Lemma lowPass_represents size data fr fi :
  represents size data fr fi ->
  represents size (lowPass size data) (low_pass size fr) (low_pass size fi).
Proof.
  intros [Hlen Hnth]. unfold lowPass, for_range.
  destruct (@store_pairs (fun _ => Fin 0) (fun _ => Fin 0) size
              (seq cutoff (size - cutoff - cutoff)) data Hlen) as [Hl Hn].
  { intros i Hi. apply in_seq in Hi. lia. }
  split; [exact Hl|]. intros k Hk.
  destruct (Hn k Hk) as [-> ->]. destruct (Hnth k Hk) as [-> ->].
  rewrite existsb_seq. unfold low_pass, keep.
  replace (cutoff + (size - cutoff - cutoff))%nat
    with (Nat.max cutoff (size - cutoff)) by lia.
  destruct (Nat.leb_spec cutoff k), (Nat.ltb_spec k (Nat.max cutoff (size - cutoff))),
    (Nat.ltb_spec k (size - cutoff)); simpl; auto; lia.
Qed.

Lemma fold_left_ext_body {A B : Type} (f g : A -> B -> A) L :
  (forall a b, f a b = g a b) -> forall a, fold_left f L a = fold_left g L a.
Proof.
  intros H. induction L as [|b L IH]; intros a; [reflexivity|].
  cbn [fold_left]. now rewrite H, IH.
Qed.

Lemma ndvi_real_spec history i p r :
  nth_error history i = Some p -> ndvi p = Fin r -> ndvi_real history i = r.
Proof. intros Hp Hr. unfold ndvi_real. now rewrite Hp, Hr. Qed.

Lemma fillInput_represents history size :
  all_finite history ->
  represents size (fillInput history size) (ndvi_real history) (fun _ => 0).
Proof.
  intros Hfin. unfold fillInput, for_loop.
  rewrite (fold_left_ext_body _
             (fun a i => upd (upd a (2 * i) (Fin (ndvi_real history i)))
                             (2 * i + 1) (Fin 0))).
  - destruct (@store_pairs (fun i => Fin (ndvi_real history i)) (fun _ => Fin 0)
                size (seq 0 size) (FFT.createComplexArray size)) as [Hl Hn].
    { apply repeat_length. }
    { intros i Hi. apply in_seq in Hi. lia. }
    split; [exact Hl|]. intros k Hk.
    destruct (Hn k Hk) as [-> ->]. rewrite existsb_seq.
    destruct (Nat.leb_spec 0 k), (Nat.ltb_spec k (0 + size)); simpl; auto; lia.
  - intros a i. destruct (Nat.ltb_spec i (length history)) as [Hi | Hi].
    + destruct (nth_error history i) as [p|] eqn:Hp;
        [|apply nth_error_None in Hp; lia].
      destruct (Hfin p (nth_error_In _ _ Hp)) as [r Hr].
      cbn [option_map Number]. now rewrite Hr, (@ndvi_real_spec history i p r Hp Hr).
    + unfold ndvi_real.
      now rewrite (proj2 (nth_error_None history i)) by lia.
Qed.

(** ** The size of the transform *)

Lemma of_nat_2 : of_nat 2 = Fin 2.
Proof. reflexivity. Qed.

Lemma Math_pow_2_nat k : Math_pow (Fin 2) (of_nat k) = of_nat (2 ^ k).
Proof.
  unfold of_nat. cbn [Math_pow].
  destruct k as [|k].
  - simpl (INR 0). rewrite Reqb_refl. reflexivity.
  - rewrite (proj2 (Reqb_false (INR (S k)) 0))
      by (apply not_0_INR; discriminate).
    rewrite (proj2 (Reqb_false 2 0)) by lra.
    rewrite (proj2 (Rltb_true 0 2)) by lra.
    f_equal. rewrite Rpower_pow by lra. rewrite pow_INR. f_equal.
Qed.

Lemma Math_max_of_nat a b : Math_max (of_nat a) (of_nat b) = of_nat (Nat.max a b).
Proof.
  unfold Math_max, of_nat. cbn [ltb].
  destruct (Nat.le_gt_cases b a) as [H | H].
  - rewrite (proj2 (Rltb_false _ _)) by (now apply le_INR).
    now rewrite Nat.max_l.
  - rewrite (proj2 (Rltb_true _ _)) by (now apply lt_INR).
    rewrite Nat.max_r by lia. reflexivity.
Qed.

Lemma nextPow2_spec n : nextPow2 n = of_nat (fft_size n).
Proof.
  unfold nextPow2, fft_size. rewrite <- of_nat_2.
  destruct n as [|n].
  - rewrite Math_log2_zero. cbn [Math_ceil Math_pow].
    unfold of_nat at 2.
    rewrite (proj2 (Rltb_true 1 (Rabs (INR 2))))
      by (rewrite Rabs_right; simpl; lra).
    change (Fin 0) with (of_nat 0). rewrite Math_max_of_nat. reflexivity.
  - rewrite ceil_log2_of_nat by lia.
    now rewrite Math_pow_2_nat, Math_max_of_nat.
Qed.

Lemma fft_size_pos n : (0 < fft_size n)%nat.
Proof. unfold fft_size. lia. Qed.

Lemma fft_size_ge n : (n <= fft_size n)%nat.
Proof.
  unfold fft_size. destruct (Nat.le_gt_cases n 1) as [H | H]; [lia|].
  destruct (Nat.log2_up_spec n H) as [_ Hhi]. lia.
Qed.

Lemma nth_error_mapi_from {A B : Type} (f : A -> nat -> B) l : forall s i,
  nth_error (mapi_from s f l) i = option_map (fun x => f x (s + i)%nat) (nth_error l i).
Proof.
  induction l as [|x l IH]; intros s [|i]; cbn [mapi_from nth_error option_map];
    try reflexivity.
  - now rewrite Nat.add_0_r.
  - rewrite IH. now replace (S s + i)%nat with (s + S i)%nat by lia.
Qed.

Lemma length_mapi_from {A B : Type} (f : A -> nat -> B) l : forall s,
  length (mapi_from s f l) = length l.
Proof. induction l as [|x l IH]; intros s; cbn; [reflexivity | now rewrite IH]. Qed.

(** The result of [performHarmonicAnalysis] on a series of finite values:
    every point keeps its fields, but for the seasonal estimate, which
    becomes the filtered real signal divided by the size. *)
Lemma harmonic_real history :
  all_finite history ->
  length (performHarmonicAnalysis history) = length history /\
  forall i p, nth_error history i = Some p ->
    nth_error (performHarmonicAnalysis history) i =
    Some (with_seasonal p
            (Fin (smoothed_re (fft_size (length history)) (ndvi_real history) i
                  / INR (fft_size (length history))))).
Proof.
  intros Hfin. unfold performHarmonicAnalysis, mapi.
  split; [apply length_mapi_from|].
  intros i p Hp. rewrite nth_error_mapi_from, Hp. cbn [option_map Nat.add].
  rewrite nextPow2_spec, iterations_of_nat.
  set (size := fft_size (length history)).
  assert (Hi : (i < size)%nat).
  { pose proof (fft_size_ge (length history)).
    assert (i < length history)%nat by (apply nth_error_Some; congruence).
    unfold size. lia. }
  pose proof (inverse_represents
                (lowPass_represents
                   (transform_represents
                      (fillInput_represents size Hfin)))) as [_ Hn].
  rewrite (proj1 (Hn i Hi)). cbn [Number]. unfold of_nat. cbn [div].
  rewrite (proj2 (Reqb_false (INR size) 0)).
  - reflexivity.
  - apply not_0_INR. pose proof (fft_size_pos (length history)). unfold size. lia.
Qed.

(** ** Series that the filter leaves as they are *)

Lemma keep_small size k : (size <= 20)%nat -> keep size k = true.
Proof.
  intros H. unfold keep, cutoff.
  destruct (Nat.leb_spec 10 k), (Nat.ltb_spec k (size - 10)); simpl; auto; lia.
Qed.

Lemma fft_size_small n : (n <= 16)%nat -> (fft_size n <= 20)%nat.
Proof.
  intros H. unfold fft_size.
  assert (Nat.log2_up n <= 4)%nat
    by (change 4%nat with (Nat.log2_up 16); now apply Nat.log2_up_le_mono).
  assert (2 ^ Nat.log2_up n <= 2 ^ 4)%nat by (apply Nat.pow_le_mono_r; lia).
  change (2 ^ 4)%nat with 16%nat in *. lia.
Qed.

Lemma fft_size_pow2 k : (1 <= k)%nat -> fft_size (2 ^ k) = (2 ^ k)%nat.
Proof.
  intros H. unfold fft_size. rewrite Nat.log2_up_pow2 by lia.
  assert (2 ^ 1 <= 2 ^ k)%nat by (apply Nat.pow_le_mono_r; lia).
  change (2 ^ 1)%nat with 2%nat in *. lia.
Qed.

(** Under 17 points nothing is filtered: the seasonal estimate of a point is
    its NDVI value. *)
Lemma harmonic_identity history :
  all_finite history -> (length history <= 16)%nat ->
  forall i p r, nth_error history i = Some p -> ndvi p = Fin r ->
    nth_error (performHarmonicAnalysis history) i = Some (with_seasonal p (Fin r)).
Proof.
  intros Hfin Hlen i p r Hp Hr.
  rewrite (proj2 (harmonic_real Hfin) i p Hp).
  pose proof (fft_size_pos (length history)) as Hpos.
  pose proof (fft_size_ge (length history)) as Hge.
  assert (Hi : (i < length history)%nat) by (apply nth_error_Some; congruence).
  rewrite smoothed_re_identity;
    [| exact Hpos | intros; apply keep_small; now apply fft_size_small | lia].
  rewrite (@ndvi_real_spec history i p r Hp Hr).
  do 3 f_equal. field. apply not_0_INR. lia.
Qed.

Lemma harmonic_single p r :
  ndvi p = Fin r -> performHarmonicAnalysis [p] = [with_seasonal p (Fin r)].
Proof.
  intros Hr.
  assert (Hfin : all_finite [p]).
  { intros q [<- | []]. now exists r. }
  pose proof (proj1 (harmonic_real Hfin)) as Hlen.
  pose proof (@harmonic_identity [p] Hfin ltac:(simpl; lia) 0%nat p r eq_refl Hr) as H0.
  destruct (performHarmonicAnalysis [p]) as [|q [|q' l]]; try discriminate.
  cbn [nth_error] in H0. now injection H0 as ->.
Qed.

(** C9, as stated, fails: the one point of a series of length 1 comes back
    with its seasonal estimate replaced by its NDVI value. *)
Lemma harmonic_single_point_changed :
  performHarmonicAnalysis [mkPoint "2023-01-01" (Fin 1) (Fin 0) (Fin 0) (Fin 0)]
    = [mkPoint "2023-01-01" (Fin 1) (Fin 0) (Fin 1) (Fin 0)] /\
  [mkPoint "2023-01-01" (Fin 1) (Fin 0) (Fin 1) (Fin 0)]
    <> [mkPoint "2023-01-01" (Fin 1) (Fin 0) (Fin 0) (Fin 0)].
Proof.
  split.
  - exact (@harmonic_single
             (mkPoint "2023-01-01" (Fin 1) (Fin 0) (Fin 0) (Fin 0)) 1 eq_refl).
  - intros H. injection H as H. lra.
Qed.

(** C9, amended.  The empty series comes back empty; a series of one point
    with a finite NDVI value comes back as one point, with the seasonal
    estimate replaced by that NDVI value and the other fields unchanged. *)
Theorem harmonic_short_series :
  performHarmonicAnalysis [] = [] /\
  forall p r, ndvi p = Fin r ->
    performHarmonicAnalysis [p] = [with_seasonal p (Fin r)] /\
    with_seasonal p (Fin r)
      = mkPoint (date p) (ndvi p) (viirs p) (ndvi p) (trend p).
Proof.
  split; [reflexivity|].
  intros p r Hr. split; [now apply harmonic_single|].
  unfold with_seasonal. now rewrite Hr.
Qed.

(** ** Constant series *)

Lemma smoothed_re_ext size x x' i :
  (forall n, (n < size)%nat -> x n = x' n) ->
  smoothed_re size x i = smoothed_re size x' i.
Proof.
  intros H. unfold smoothed_re, idft_re, low_pass, dft_re, dft_im.
  apply Rsum_ext. intros k Hk.
  rewrite (Rsum_ext (fun n => x n * cos (angle size (n * k)) + 0 * sin (angle size (n * k)))
                    (fun n => x' n * cos (angle size (n * k)) + 0 * sin (angle size (n * k))))
    by (intros n Hn; now rewrite H).
  rewrite (Rsum_ext (fun n => 0 * cos (angle size (n * k)) - x n * sin (angle size (n * k)))
                    (fun n => 0 * cos (angle size (n * k)) - x' n * sin (angle size (n * k))))
    by (intros n Hn; now rewrite H).
  reflexivity.
Qed.

Lemma constant_series_finite n c : all_finite (constant_series n c).
Proof. intros p Hp. apply repeat_spec in Hp. subst p. now exists c. Qed.

Lemma ndvi_real_constant n c i :
  ndvi_real (constant_series n c) i = const_signal n c i.
Proof.
  unfold ndvi_real, const_signal, constant_series.
  destruct (Nat.ltb_spec i n) as [Hi | Hi].
  - now rewrite nth_error_repeat by exact Hi.
  - now rewrite (proj2 (nth_error_None _ i)) by (rewrite repeat_length; lia).
Qed.

(** C4, as stated, fails: on the constant series 1 of length 31 the
    seasonal estimates are not all within 1/32 of the constant. *)
Lemma harmonic_constant_31_ripple :
  ~ (forall i, (i < 31)%nat ->
       exists r,
         option_map seasonal (nth_error (performHarmonicAnalysis (constant_series 31 1)) i)
           = Some (Fin r) /\
         Rabs (r - 1) < 1 / 32).
Proof.
  intros H. apply smoothed_31_not_flat. intros i Hi.
  destruct (H i Hi) as (r & Hr & Hb).
  assert (Hp : nth_error (constant_series 31 1) i
               = Some (mkPoint "2023-01-01" (Fin 1) (Fin 0) (Fin 0) (Fin 0)))
    by (now apply nth_error_repeat).
  rewrite (proj2 (harmonic_real (constant_series_finite 31 1)) i _ Hp) in Hr.
  cbn [option_map seasonal with_seasonal] in Hr.
  unfold constant_series in Hr at 1 3. rewrite repeat_length in Hr.
  change (fft_size 31) with 32%nat in Hr. rewrite INR_32 in Hr.
  injection Hr as <-.
  rewrite (@smoothed_re_ext 32 _ (const_signal 31 1) i) in Hb
    by (intros; apply ndvi_real_constant).
  exact Hb.
Qed.

(** C4, amended.  On a series whose points all have the same finite NDVI
    value, of at most 16 points or of a number of points that is a power of
    two, the seasonal estimate of every point is that value, and nothing
    else of the series changes. *)
Theorem harmonic_constant (history : list TimeSeriesPoint) (c : R) :
  (forall p, In p history -> ndvi p = Fin c) ->
  (length history <= 16 \/ exists k, length history = 2 ^ k)%nat ->
  length (performHarmonicAnalysis history) = length history /\
  forall i p, nth_error history i = Some p ->
    nth_error (performHarmonicAnalysis history) i = Some (with_seasonal p (Fin c)).
Proof.
  intros Hc Hlen.
  assert (Hfin : all_finite history) by (intros p Hp; exists c; now apply Hc).
  split; [exact (proj1 (harmonic_real Hfin))|].
  intros i p Hp.
  assert (Hpc : ndvi p = Fin c) by (apply Hc; eapply nth_error_In; eassumption).
  destruct (Nat.le_gt_cases (length history) 16) as [Hs | Hl].
  - now apply harmonic_identity.
  - destruct Hlen as [Hs | [k Hk]]; [lia|].
    assert (Hk1 : (1 <= k)%nat).
    { destruct k; [simpl in Hk; lia | lia]. }
    rewrite (proj2 (harmonic_real Hfin) i p Hp).
    rewrite Hk, (fft_size_pow2 Hk1), <- Hk.
    assert (Hpos : (0 < length history)%nat) by lia.
    rewrite (@smoothed_re_constant (length history) Hpos (ndvi_real history) c i).
    + do 3 f_equal. field. apply not_0_INR. lia.
    + intros n Hn.
      destruct (nth_error history n) as [q|] eqn:Hq;
        [|apply nth_error_None in Hq; lia].
      apply (@ndvi_real_spec history n q c Hq).
      apply Hc. eapply nth_error_In; eassumption.
Qed.

Lemma harmonic_constant_witness :
  (forall p, In p (constant_series 4 (1/2)) -> ndvi p = Fin (1/2)) /\
  (length (constant_series 4 (1/2)) <= 16
   \/ exists k, length (constant_series 4 (1/2)) = 2 ^ k)%nat /\
  length (performHarmonicAnalysis (constant_series 4 (1/2))) = 4%nat /\
  forall i p, nth_error (constant_series 4 (1/2)) i = Some p ->
    nth_error (performHarmonicAnalysis (constant_series 4 (1/2))) i
      = Some (with_seasonal p (Fin (1/2))).
Proof.
  assert (Hc : forall p, In p (constant_series 4 (1/2)) -> ndvi p = Fin (1/2))
    by (intros p Hp; apply repeat_spec in Hp; now subst p).
  assert (Hl : (length (constant_series 4 (1/2)) <= 16
                \/ exists k, length (constant_series 4 (1/2)) = 2 ^ k)%nat)
    by (left; simpl; lia).
  split; [exact Hc|]. split; [exact Hl|].
  exact (@harmonic_constant (constant_series 4 (1/2)) (1/2) Hc Hl).
Defined.

End HarmonicModel.

Section Solar.

Local Open Scope R_scope.

(** C5. On real arguments [validateShadowDepth] answers true exactly when
    the altitude exceeds 30 degrees and the anomaly score exceeds 0.5; the
    three cases of the spec follow. *)
Theorem validateShadowDepth_spec :
  (forall a s : R,
      validateShadowDepth (Fin a) (Fin s) = true <-> a > 30 /\ s > 0.5) /\
  validateShadowDepth (Fin 35) (Fin 0.6) = true /\
  validateShadowDepth (Fin 10) (Fin 0.9) = false /\
  validateShadowDepth (Fin 40) (Fin 0.3) = false.
Proof.
  assert (H : forall a s : R,
             validateShadowDepth (Fin a) (Fin s) = true <-> a > 30 /\ s > 0.5).
  { intros a s. unfold validateShadowDepth.
    rewrite andb_true_iff, !gtb_Fin. reflexivity. }
  split; [exact H|]. repeat split.
  - apply H. lra.
  - apply not_true_is_false. rewrite H. lra.
  - apply not_true_is_false. rewrite H. lra.
Qed.

End Solar.

(* ================================================================== *)
(** * Properties of the loading of a raster *)
(* ================================================================== *)

Section Bounds.

Local Open Scope R_scope.

Lemma samples_length a : length (samples a) = ta_length a.
Proof. destruct a; cbn; try reflexivity; apply length_map. Qed.

Lemma samples_nth a i : nth_error (samples a) i = ta_get a i.
Proof. destruct a; cbn; try reflexivity; apply nth_error_map. Qed.

Lemma ltb_leb x y : ltb x y = true -> leb x y = true.
Proof. unfold leb. now intros ->. Qed.

Lemma leb_refl_num x : x <> NaN -> leb x x = true.
Proof.
  destruct x as [| |a|]; intros H; try reflexivity; [contradiction|].
  apply leb_Fin. lra.
Qed.

Lemma not_ltb_leb x y :
  x <> NaN -> y <> NaN -> ltb x y = false -> leb y x = true.
Proof.
  destruct x as [| |a|], y as [| |b|]; intros Hx Hy H; try reflexivity;
    try contradiction; try discriminate.
  apply leb_Fin. now apply Rltb_false.
Qed.

Lemma leb_trans_num x y z : leb x y = true -> leb y z = true -> leb x z = true.
Proof.
  destruct x as [| |a|], y as [| |b|], z as [| |c|]; intros H1 H2;
    try reflexivity; try discriminate.
  apply leb_Fin. apply leb_Fin in H1, H2. lra.
Qed.

Lemma ltb_not_NaN_l x y : ltb x y = true -> x <> NaN.
Proof. destruct x; [discriminate | | |]; discriminate. Qed.

Lemma leb_PInf_l v : leb PInf v = true -> v = PInf.
Proof. destruct v; try discriminate; reflexivity. Qed.

Lemma leb_NInf_r v : leb v NInf = true -> v = NInf.
Proof. destruct v; try discriminate; reflexivity. Qed.

(** the loop of the bounds is the one of [minmax], on the samples *)
Lemma bounds_loop_minmax a :
  for_loop (ta_length a)
    (fun i '(min, max) =>
       let val := Number (ta_get a i) in
       (if ltb val min then val else min,
        if gtb val max then val else max))
    (PInf, NInf)
  = IsolationForest.minmax (samples a).
Proof.
  unfold for_loop, IsolationForest.minmax.
  rewrite <- samples_length.
  generalize (PInf, NInf) as st.
  assert (H : forall l st k,
            (forall i, nth_error l i = ta_get a (k + i)) ->
            fold_left
              (fun (s : num * num) (i : nat) =>
                 let '(min, max) := s in
                 let val := Number (ta_get a i) in
                 (if ltb val min then val else min, if gtb val max then val else max))
              (seq k (length l)) st
            = fold_left
                (fun '(mn, mx) x =>
                   (if ltb x mn then x else mn, if gtb x mx then x else mx)) l st).
  { induction l as [|x l IH]; intros st k Hl; [reflexivity|].
    cbn [length seq fold_left].
    pose proof (Hl 0%nat) as H0. rewrite Nat.add_0_r in H0. cbn in H0.
    rewrite <- H0. destruct st as [mn mx]. cbn [Number].
    apply IH. intros i. specialize (Hl (S i)). cbn [nth_error] in Hl.
    rewrite Hl. f_equal. lia. }
  intros st. apply H. intros i. apply samples_nth.
Qed.

Lemma minmax_spec l : forall mn0 mx0,
  mn0 <> NaN -> mx0 <> NaN ->
  let '(mn, mx) :=
    fold_left (fun '(mn, mx) x =>
                 (if ltb x mn then x else mn, if gtb x mx then x else mx))
              l (mn0, mx0) in
  mn <> NaN /\ mx <> NaN /\
  leb mn mn0 = true /\ leb mx0 mx = true /\
  (forall v, In v l -> v <> NaN -> leb mn v = true /\ leb v mx = true) /\
  (mn = mn0 \/ In mn l) /\ (mx = mx0 \/ In mx l).
Proof.
  induction l as [|x l IH]; intros mn0 mx0 Hmn Hmx; cbn [fold_left].
  - repeat split; auto using leb_refl_num; intros v [].
  - set (mn1 := if ltb x mn0 then x else mn0).
    set (mx1 := if gtb x mx0 then x else mx0).
    assert (Hmn1 : mn1 <> NaN).
    { unfold mn1. destruct (ltb x mn0) eqn:E; [now apply ltb_not_NaN_l in E | exact Hmn]. }
    assert (Hmx1 : mx1 <> NaN).
    { unfold mx1, gtb. destruct (ltb mx0 x) eqn:E; [|exact Hmx].
      intros ->. destruct mx0; discriminate. }
    specialize (IH mn1 mx1 Hmn1 Hmx1).
    destruct (fold_left _ l (mn1, mx1)) as [mn mx].
    destruct IH as (H1 & H2 & H3 & H4 & H5 & H6 & H7).
    assert (Ha : leb mn1 mn0 = true).
    { unfold mn1. destruct (ltb x mn0) eqn:E; [now apply ltb_leb | now apply leb_refl_num]. }
    assert (Hb : leb mx0 mx1 = true).
    { unfold mx1, gtb. destruct (ltb mx0 x) eqn:E; [now apply ltb_leb | now apply leb_refl_num]. }
    assert (Hc : x <> NaN -> leb mn1 x = true).
    { intros Hx. unfold mn1. destruct (ltb x mn0) eqn:E;
        [now apply leb_refl_num | now apply not_ltb_leb]. }
    assert (Hd : x <> NaN -> leb x mx1 = true).
    { intros Hx. unfold mx1, gtb. destruct (ltb mx0 x) eqn:E;
        [now apply leb_refl_num | now apply not_ltb_leb]. }
    repeat split; auto.
    + eapply leb_trans_num; eassumption.
    + eapply leb_trans_num; eassumption.
    + destruct H as [<- | Hin]; [|now apply H5].
      eapply leb_trans_num; [exact H3 | now apply Hc].
    + destruct H as [<- | Hin]; [|now apply H5].
      eapply leb_trans_num; [now apply Hd | exact H4].
    + destruct H6 as [-> | Hin]; [|right; now right].
      unfold mn1. destruct (ltb x mn0); [right; now left | now left].
    + destruct H7 as [-> | Hin]; [|right; now right].
      unfold mx1. destruct (gtb x mx0); [right; now left | now left].
Qed.

End Bounds.

Section LoadGeoTiff.

Lemma loadGeoTiff_unfold image :
  loadGeoTiff image =
  mkRaster (getWidth image) (getHeight image) (rasters0 image)
           (fst (IsolationForest.minmax (samples (rasters0 image))))
           (snd (IsolationForest.minmax (samples (rasters0 image)))).
Proof.
  unfold loadGeoTiff. rewrite bounds_loop_minmax.
  now destruct (IsolationForest.minmax (samples (rasters0 image))).
Qed.

Lemma PInf_not_NaN : PInf <> NaN.
Proof. discriminate. Qed.

Lemma NInf_not_NaN : NInf <> NaN.
Proof. discriminate. Qed.

(** X1. [loadGeoTiff] keeps the width, the height and the first band of the
    image.  The bounds it computes enclose every sample that is not NaN,
    and when there is such a sample both bounds are samples of the band. *)
Theorem loadGeoTiff_bounds (image : GeoTiffImage) :
  width (loadGeoTiff image) = getWidth image /\
  height (loadGeoTiff image) = getHeight image /\
  data (loadGeoTiff image) = rasters0 image /\
  (forall i v, ta_get (rasters0 image) i = Some v -> v <> NaN ->
     leb (min (loadGeoTiff image)) v = true /\
     leb v (max (loadGeoTiff image)) = true) /\
  ((exists i v, ta_get (rasters0 image) i = Some v /\ v <> NaN) ->
     (exists i, ta_get (rasters0 image) i = Some (min (loadGeoTiff image))) /\
     (exists j, ta_get (rasters0 image) j = Some (max (loadGeoTiff image)))).
Proof.
  rewrite loadGeoTiff_unfold. cbn [width height data min max].
  pose proof (minmax_spec (samples (rasters0 image)) PInf_not_NaN NInf_not_NaN) as H.
  unfold IsolationForest.minmax.
  destruct (fold_left _ (samples (rasters0 image)) (PInf, NInf)) as [mn mx].
  destruct H as (H1 & H2 & _ & _ & H5 & H6 & H7). cbn [fst snd].
  repeat split; auto.
  - apply H5; [|assumption]. rewrite <- samples_nth in H. eapply nth_error_In; eassumption.
  - apply H5; [|assumption]. rewrite <- samples_nth in H. eapply nth_error_In; eassumption.
  - destruct H as (i & v & Hv & Hn). rewrite <- samples_nth in Hv.
    pose proof (nth_error_In _ _ Hv) as Hin.
    destruct H6 as [-> | Hmn].
    + destruct (H5 v Hin Hn) as [Hle _]. apply leb_PInf_l in Hle. subst v.
      exists i. now rewrite <- samples_nth.
    + apply In_nth_error in Hmn as [k Hk]. exists k. now rewrite <- samples_nth.
  - destruct H as (i & v & Hv & Hn). rewrite <- samples_nth in Hv.
    pose proof (nth_error_In _ _ Hv) as Hin.
    destruct H7 as [-> | Hmx].
    + destruct (H5 v Hin Hn) as [_ Hle]. apply leb_NInf_r in Hle. subst v.
      exists i. now rewrite <- samples_nth.
    + apply In_nth_error in Hmx as [k Hk]. exists k. now rewrite <- samples_nth.
Qed.

(** X2. On a band with no sample, or whose samples are all NaN, the bounds
    stay as they start: [min] is Infinity and [max] is -Infinity. *)
Theorem loadGeoTiff_no_sample (image : GeoTiffImage) :
  (forall i v, ta_get (rasters0 image) i = Some v -> v = NaN) ->
  min (loadGeoTiff image) = PInf /\ max (loadGeoTiff image) = NInf.
Proof.
  intros Hall. rewrite loadGeoTiff_unfold. cbn [min max].
  pose proof (minmax_spec (samples (rasters0 image)) PInf_not_NaN NInf_not_NaN) as H.
  unfold IsolationForest.minmax.
  destruct (fold_left _ (samples (rasters0 image)) (PInf, NInf)) as [mn mx].
  destruct H as (H1 & H2 & _ & _ & _ & H6 & H7). cbn [fst snd].
  split.
  - destruct H6 as [-> | Hin]; [reflexivity|].
    apply In_nth_error in Hin as [k Hk]. rewrite samples_nth in Hk.
    now apply Hall in Hk.
  - destruct H7 as [-> | Hin]; [reflexivity|].
    apply In_nth_error in Hin as [k Hk]. rewrite samples_nth in Hk.
    now apply Hall in Hk.
Qed.

Lemma loadGeoTiff_no_sample_witness :
  (forall i v, ta_get (Float32Array [NaN; NaN]) i = Some v -> v = NaN) /\
  min (loadGeoTiff (mkImage 2 1 (Float32Array [NaN; NaN]))) = PInf /\
  max (loadGeoTiff (mkImage 2 1 (Float32Array [NaN; NaN]))) = NInf.
Proof.
  assert (H : forall i v, ta_get (Float32Array [NaN; NaN]) i = Some v -> v = NaN).
  { intros [|[|i]] v Hv; cbn in Hv; try congruence. now destruct i. }
  split; [exact H|].
  exact (@loadGeoTiff_no_sample (mkImage 2 1 (Float32Array [NaN; NaN])) H).
Defined.

End LoadGeoTiff.

(* ================================================================== *)
(** * Properties of the rendering *)
(* ================================================================== *)

Section Render.

Local Open Scope R_scope.

Lemma ToUint8Clamp_range x : (0 <= ToUint8Clamp x <= 255)%Z.
Proof.
  destruct x as [| |r|]; cbn [ToUint8Clamp]; try lia.
  destruct (Rlt_dec r 0) as [H0 | H0].
  - rewrite (proj2 (Rltb_true r 0)) by exact H0. lia.
  - rewrite (proj2 (Rltb_false r 0)) by lra.
    destruct (Rlt_dec 255 r) as [H1 | H1].
    + rewrite (proj2 (Rltb_true 255 r)) by exact H1. lia.
    + rewrite (proj2 (Rltb_false 255 r)) by lra.
      destruct (base_Int_part r) as [Hf1 Hf2]. fold (Zfloor r) in Hf1, Hf2.
      assert (Hlo : (0 <= Zfloor r)%Z).
      { apply Z.lt_succ_r. apply lt_IZR. rewrite succ_IZR. lra. }
      assert (Hhi : (Zfloor r <= 255)%Z) by (apply le_IZR; lra).
      assert (Hhalf : IZR (Zfloor r) + 0.5 <= r -> (Zfloor r + 1 <= 255)%Z).
      { intros Hh. apply Z.lt_succ_r. apply lt_IZR. rewrite succ_IZR, plus_IZR. lra. }
      destruct (Rlt_dec (IZR (Zfloor r) + 0.5) r) as [H2 | H2].
      * rewrite (proj2 (Rltb_true _ _)) by exact H2. specialize (Hhalf ltac:(lra)). lia.
      * rewrite (proj2 (Rltb_false _ r)) by lra.
        destruct (Rlt_dec r (IZR (Zfloor r) + 0.5)) as [H3 | H3].
        -- rewrite (proj2 (Rltb_true _ _)) by exact H3. lia.
        -- rewrite (proj2 (Rltb_false r _)) by lra.
           specialize (Hhalf ltac:(lra)). destruct (Z.even (Zfloor r)); lia.
Qed.

(** an integer between 0 and 255 is stored as it is *)
Lemma ToUint8Clamp_int z : (0 <= z <= 255)%Z -> ToUint8Clamp (Fin (IZR z)) = z.
Proof.
  intros [Hlo Hhi]. cbn [ToUint8Clamp].
  assert (0 <= IZR z <= 255) by (split; apply IZR_le; lia).
  rewrite (proj2 (Rltb_false (IZR z) 0)) by lra.
  rewrite (proj2 (Rltb_false 255 (IZR z))) by lra.
  assert (Hf : Zfloor (IZR z) = z).
  { unfold Zfloor. symmetry. apply Int_part_spec. lra. }
  rewrite Hf.
  rewrite (proj2 (Rltb_false (IZR z + 0.5) (IZR z))) by lra.
  rewrite (proj2 (Rltb_true (IZR z) (IZR z + 0.5))) by lra.
  reflexivity.
Qed.

Lemma flat_map_quads {A : Type} (a b c d : nat -> A) n : forall s,
  length (flat_map (fun k => [a k; b k; c k; d k]) (seq s n)) = (4 * n)%nat /\
  forall k, (k < n)%nat ->
    nth_error (flat_map (fun k => [a k; b k; c k; d k]) (seq s n)) (4 * k)
      = Some (a (s + k)%nat) /\
    nth_error (flat_map (fun k => [a k; b k; c k; d k]) (seq s n)) (4 * k + 1)
      = Some (b (s + k)%nat) /\
    nth_error (flat_map (fun k => [a k; b k; c k; d k]) (seq s n)) (4 * k + 2)
      = Some (c (s + k)%nat) /\
    nth_error (flat_map (fun k => [a k; b k; c k; d k]) (seq s n)) (4 * k + 3)
      = Some (d (s + k)%nat).
Proof.
  induction n as [|n IH]; intros s.
  - split; [reflexivity | intros; lia].
  - destruct (IH (S s)) as [Hlen Hnth]. cbn [seq flat_map app]. split.
    + cbn [length]. rewrite Hlen. lia.
    + intros [|k] Hk.
      * rewrite Nat.add_0_r. repeat split; reflexivity.
      * replace (4 * S k)%nat with (S (S (S (S (4 * k))))) by lia.
        replace (S (S (S (S (4 * k)))) + 1)%nat with (S (S (S (S (4 * k + 1))))) by lia.
        replace (S (S (S (S (4 * k)))) + 2)%nat with (S (S (S (S (4 * k + 2))))) by lia.
        replace (S (S (S (S (4 * k)))) + 3)%nat with (S (S (S (S (4 * k + 3))))) by lia.
        cbn [nth_error]. replace (s + S k)%nat with (S s + k)%nat by lia.
        apply Hnth. lia.
Qed.

Lemma fill_quads {A : Type} (a b c d : nat -> A) (z : A) m :
  forall n, (n <= m)%nat ->
  for_loop n
    (fun i img => upd (upd (upd (upd img (4 * i) (a i)) (4 * i + 1) (b i))
                           (4 * i + 2) (c i)) (4 * i + 3) (d i))
    (repeat z (4 * m))
  = flat_map (fun i => [a i; b i; c i; d i]) (seq 0 n) ++ repeat z (4 * (m - n)).
Proof.
  unfold for_loop. induction n as [|n IH]; intros Hn.
  - cbn. now rewrite Nat.sub_0_r.
  - rewrite seq_S, fold_left_app, IH by lia. cbn [fold_left Nat.add].
    rewrite flat_map_app. cbn [flat_map].
    replace (4 * (m - n))%nat with (4 + 4 * (m - S n))%nat by lia.
    cbn [repeat Nat.add]. rewrite app_nil_r.
    destruct (flat_map_quads a b c d n 0) as [Hlen _].
    set (P := flat_map (fun i => [a i; b i; c i; d i]) (seq 0 n)) in *.
    set (R := repeat z (4 * (m - S n))).
    rewrite (upd_app_here P (z :: z :: z :: R) z (a n)) by (symmetry; exact Hlen).
    replace (P ++ a n :: z :: z :: z :: R) with ((P ++ [a n]) ++ z :: z :: z :: R)
      by (now rewrite <- app_assoc).
    rewrite (upd_app_here (P ++ [a n]) (z :: z :: R) z (b n))
      by (rewrite length_app, Hlen; cbn; lia).
    replace ((P ++ [a n]) ++ b n :: z :: z :: R)
      with ((P ++ [a n; b n]) ++ z :: z :: R)
      by (now rewrite <- !app_assoc).
    rewrite (upd_app_here (P ++ [a n; b n]) (z :: R) z (c n))
      by (rewrite length_app, Hlen; cbn; lia).
    replace ((P ++ [a n; b n]) ++ c n :: z :: R)
      with ((P ++ [a n; b n; c n]) ++ z :: R)
      by (now rewrite <- !app_assoc).
    rewrite (upd_app_here (P ++ [a n; b n; c n]) R z (d n))
      by (rewrite length_app, Hlen; cbn; lia).
    now rewrite <- !app_assoc.
Qed.

(** the bitmap that [renderToCanvas] paints *)
Lemma renderToCanvas_bitmap raster ctx cw ch overlay :
  grid_wf raster -> (0 < width raster)%Z -> (0 < height raster)%Z ->
  renderToCanvas raster (mkCanvas (Some ctx) cw ch) overlay =
  Ok (mkCanvas
        (Some (mkContext false
           (flat_map
              (fun i => [ if overlay_set overlay i then 255%Z else 0%Z;
                          if overlay_set overlay i then 0%Z
                          else ToUint8Clamp (grayLevel raster i);
                          0%Z; 255%Z ])
              (seq 0 (ta_length (data raster))))))
        (width raster) (height raster)).
Proof.
  intros Hwf Hw Hh. unfold renderToCanvas. cbn [getContext2d].
  unfold createImageData.
  destruct (Z.eqb_spec (width raster) 0) as [E|_]; [lia|].
  destruct (Z.eqb_spec (height raster) 0) as [E|_]; [lia|].
  cbn [orb].
  assert (Hn : Z.to_nat (4 * Z.abs (width raster) * Z.abs (height raster))
               = (4 * ta_length (data raster))%nat).
  { unfold grid_wf in Hwf. rewrite !Z.abs_eq by lia. lia. }
  rewrite Hn. do 3 f_equal. f_equal.
  unfold for_loop.
  rewrite (fold_left_ext_body _
             (fun img i =>
                upd (upd (upd (upd img (4 * i) (if overlay_set overlay i then 255%Z else 0%Z))
                              (4 * i + 1)
                              (if overlay_set overlay i then 0%Z
                               else ToUint8Clamp (grayLevel raster i)))
                         (4 * i + 2) 0%Z)
                    (4 * i + 3) 255%Z)).
  - pose proof (@fill_quads Z
                  (fun i => if overlay_set overlay i then 255%Z else 0%Z)
                  (fun i => if overlay_set overlay i then 0%Z
                            else ToUint8Clamp (grayLevel raster i))
                  (fun _ => 0%Z) (fun _ => 255%Z) 0%Z
                  (ta_length (data raster)) (ta_length (data raster)) (le_n _)) as H.
    unfold for_loop in H. rewrite H, Nat.sub_diag. cbn [Nat.mul repeat].
    apply app_nil_r.
  - intros img i. unfold grayLevel. destruct (overlay_set overlay i); reflexivity.
Qed.

End Render.

Section RenderTheorems.

Local Open Scope R_scope.

Lemma rendered_pixel raster overlay i :
  (i < ta_length (data raster))%nat ->
  pixel (flat_map
           (fun i => [ if overlay_set overlay i then 255%Z else 0%Z;
                       if overlay_set overlay i then 0%Z
                       else ToUint8Clamp (grayLevel raster i);
                       0%Z; 255%Z ])
           (seq 0 (ta_length (data raster)))) i
  = [ Some (if overlay_set overlay i then 255%Z else 0%Z);
      Some (if overlay_set overlay i then 0%Z else ToUint8Clamp (grayLevel raster i));
      Some 0%Z; Some 255%Z ].
Proof.
  intros Hi. unfold pixel.
  destruct (flat_map_quads
              (fun i => if overlay_set overlay i then 255%Z else 0%Z)
              (fun i => if overlay_set overlay i then 0%Z
                        else ToUint8Clamp (grayLevel raster i))
              (fun _ => 0%Z) (fun _ => 255%Z) (ta_length (data raster)) 0)
    as [_ H].
  destruct (H i Hi) as (-> & -> & -> & ->). reflexivity.
Qed.

Lemma rendered_green raster overlay i :
  (i < ta_length (data raster))%nat ->
  nth_error (flat_map
           (fun i => [ if overlay_set overlay i then 255%Z else 0%Z;
                       if overlay_set overlay i then 0%Z
                       else ToUint8Clamp (grayLevel raster i);
                       0%Z; 255%Z ])
           (seq 0 (ta_length (data raster)))) (4 * i + 1)
  = Some (if overlay_set overlay i then 0%Z else ToUint8Clamp (grayLevel raster i)).
Proof.
  intros Hi.
  destruct (flat_map_quads
              (fun i => if overlay_set overlay i then 255%Z else 0%Z)
              (fun i => if overlay_set overlay i then 0%Z
                        else ToUint8Clamp (grayLevel raster i))
              (fun _ => 0%Z) (fun _ => 255%Z) (ta_length (data raster)) 0)
    as [_ H].
  now destruct (H i Hi) as (_ & -> & _ & _).
Qed.

Lemma rendered_red raster overlay i :
  (i < ta_length (data raster))%nat ->
  nth_error (flat_map
           (fun i => [ if overlay_set overlay i then 255%Z else 0%Z;
                       if overlay_set overlay i then 0%Z
                       else ToUint8Clamp (grayLevel raster i);
                       0%Z; 255%Z ])
           (seq 0 (ta_length (data raster)))) (4 * i)
  = Some (if overlay_set overlay i then 255%Z else 0%Z).
Proof.
  intros Hi.
  destruct (flat_map_quads
              (fun i => if overlay_set overlay i then 255%Z else 0%Z)
              (fun i => if overlay_set overlay i then 0%Z
                        else ToUint8Clamp (grayLevel raster i))
              (fun _ => 0%Z) (fun _ => 255%Z) (ta_length (data raster)) 0)
    as [_ H].
  now destruct (H i Hi) as (-> & _ & _ & _).
Qed.

(** X3. On a grid of positive width and height that holds width x height
    samples: without a 2d context [renderToCanvas] leaves the canvas as it
    is; with one, the canvas takes the size of the grid, smoothing is turned
    off, and the bitmap has four bytes per sample: (255, 0, 0, 255) where
    the overlay holds 1, and (0, g, 0, 255) with 0 <= g <= 255 elsewhere. *)
Theorem renderToCanvas_pixels (raster : RasterData) (canvas : HTMLCanvasElement)
    (overlay : option (list Z)) :
  grid_wf raster -> (0 < width raster)%Z -> (0 < height raster)%Z ->
  match getContext2d canvas with
  | None => renderToCanvas raster canvas overlay = Ok canvas
  | Some _ =>
      exists bmp,
        renderToCanvas raster canvas overlay
          = Ok (mkCanvas (Some (mkContext false bmp)) (width raster) (height raster)) /\
        length bmp = (4 * ta_length (data raster))%nat /\
        forall i, (i < ta_length (data raster))%nat ->
          (overlay_set overlay i = true ->
             pixel bmp i = [Some 255; Some 0; Some 0; Some 255]%Z) /\
          (overlay_set overlay i = false ->
             exists g, (0 <= g <= 255)%Z /\
               pixel bmp i = [Some 0; Some g; Some 0; Some 255]%Z)
  end.
Proof.
  intros Hwf Hw Hh. destruct canvas as [[ctx|] cw ch]; cbn [getContext2d].
  - eexists. split; [apply (renderToCanvas_bitmap _ _ _ _ Hwf Hw Hh)|].
    split.
    + apply (flat_map_quads _ _ _ _ (ta_length (data raster)) 0).
    + intros i Hi. rewrite (rendered_pixel raster overlay Hi).
      split; intros ->; [reflexivity|].
      eexists. split; [apply ToUint8Clamp_range | reflexivity].
  - reflexivity.
Qed.

Lemma renderToCanvas_pixels_witness :
  exists bmp,
    renderToCanvas ramp_2x1 blank_canvas (Some [0; 1]%Z)
      = Ok (mkCanvas (Some (mkContext false bmp)) 2 1) /\
    length bmp = 8%nat /\
    forall i, (i < 2)%nat ->
      (overlay_set (Some [0; 1]%Z) i = true ->
         pixel bmp i = [Some 255; Some 0; Some 0; Some 255]%Z) /\
      (overlay_set (Some [0; 1]%Z) i = false ->
         exists g, (0 <= g <= 255)%Z /\
           pixel bmp i = [Some 0; Some g; Some 0; Some 255]%Z).
Proof.
  exact (@renderToCanvas_pixels ramp_2x1 blank_canvas (Some [0; 1]%Z)
           eq_refl eq_refl eq_refl).
Defined.

Lemma Zfloor_spec r z : IZR z <= r < IZR z + 1 -> Zfloor r = z.
Proof. intros H. unfold Zfloor. symmetry. apply Int_part_spec. lra. Qed.

Lemma Zfloor_bounds r : IZR (Zfloor r) <= r < IZR (Zfloor r) + 1.
Proof. destruct (base_Int_part r). unfold Zfloor. lra. Qed.

Lemma Zfloor_le x y : x <= y -> (Zfloor x <= Zfloor y)%Z.
Proof.
  intros H. pose proof (Zfloor_bounds x). pose proof (Zfloor_bounds y).
  apply Z.lt_succ_r. apply lt_IZR. rewrite succ_IZR. lra.
Qed.

Lemma Zfloor_IZR z : Zfloor (IZR z) = z.
Proof. apply Zfloor_spec. lra. Qed.

Lemma grayLevel_scaled raster i a b v :
  min raster = Fin a -> max raster = Fin b -> a < b ->
  ta_get (data raster) i = Some (Fin v) ->
  grayLevel raster i = Fin (IZR (Zfloor ((v - a) / (b - a) * 255))).
Proof.
  intros Hmin Hmax Hab Hv. unfold grayLevel. rewrite Hmin, Hmax, Hv.
  cbn [Number sub neg add or_else].
  rewrite (proj2 (Reqb_false (b + - a) 0)) by lra.
  cbn [div]. rewrite (proj2 (Reqb_false (b + - a) 0)) by lra.
  cbn [mul Math_floor]. reflexivity.
Qed.

Lemma scaled_range a b v :
  a < b -> a <= v <= b -> 0 <= (v - a) / (b - a) * 255 <= 255.
Proof.
  intros Hab Hv.
  assert (0 < / (b - a)) by (apply Rinv_0_lt_compat; lra).
  assert (0 <= (v - a) / (b - a)) by (apply Rmult_le_pos; lra).
  assert ((v - a) / (b - a) <= 1).
  { apply Rmult_le_reg_r with (b - a); [lra|].
    unfold Rdiv. rewrite Rmult_assoc, Rinv_l by lra. lra. }
  lra.
Qed.

(** X4. With real bounds min < max, the green byte of a pixel that the
    overlay does not flag, for a sample v between the bounds, is the floor
    of (v - min) / (max - min) * 255: 0 at the minimum, 255 at the maximum,
    and monotone in v. *)
Theorem renderToCanvas_gray (raster : RasterData) (ctx : Context2D) (cw ch : Z)
    (overlay : option (list Z)) (a b : R) :
  grid_wf raster -> (0 < width raster)%Z -> (0 < height raster)%Z ->
  min raster = Fin a -> max raster = Fin b -> a < b ->
  exists bmp,
    renderToCanvas raster (mkCanvas (Some ctx) cw ch) overlay
      = Ok (mkCanvas (Some (mkContext false bmp)) (width raster) (height raster)) /\
    (forall i v, ta_get (data raster) i = Some (Fin v) -> a <= v <= b ->
       overlay_set overlay i = false ->
       nth_error bmp (4 * i + 1) = Some (Zfloor ((v - a) / (b - a) * 255)) /\
       (0 <= Zfloor ((v - a) / (b - a) * 255) <= 255)%Z /\
       (v = a -> nth_error bmp (4 * i + 1) = Some 0%Z) /\
       (v = b -> nth_error bmp (4 * i + 1) = Some 255%Z)) /\
    (forall i j v w gi gj,
       ta_get (data raster) i = Some (Fin v) -> a <= v <= b ->
       ta_get (data raster) j = Some (Fin w) -> a <= w <= b ->
       overlay_set overlay i = false -> overlay_set overlay j = false ->
       nth_error bmp (4 * i + 1) = Some gi -> nth_error bmp (4 * j + 1) = Some gj ->
       v <= w -> (gi <= gj)%Z).
Proof.
  intros Hwf Hw Hh Hmin Hmax Hab.
  eexists. split; [apply (renderToCanvas_bitmap _ _ _ _ Hwf Hw Hh)|].
  assert (Hg : forall i v, ta_get (data raster) i = Some (Fin v) -> a <= v <= b ->
             overlay_set overlay i = false ->
             nth_error
               (flat_map
                  (fun i => [ if overlay_set overlay i then 255%Z else 0%Z;
                              if overlay_set overlay i then 0%Z
                              else ToUint8Clamp (grayLevel raster i);
                              0%Z; 255%Z ])
                  (seq 0 (ta_length (data raster)))) (4 * i + 1)
             = Some (Zfloor ((v - a) / (b - a) * 255)) /\
             (0 <= Zfloor ((v - a) / (b - a) * 255) <= 255)%Z).
  { intros i v Hv Hvab Ho.
    assert (Hi : (i < ta_length (data raster))%nat).
    { rewrite <- samples_length. apply nth_error_Some. rewrite samples_nth. congruence. }
    rewrite (rendered_green raster overlay Hi), Ho.
    rewrite (grayLevel_scaled raster i Hmin Hmax Hab Hv).
    pose proof (scaled_range Hab Hvab) as Hr.
    assert (Hz : (0 <= Zfloor ((v - a) / (b - a) * 255) <= 255)%Z).
    { assert (H0 : IZR 0 <= (v - a) / (b - a) * 255) by lra.
      assert (H1 : (v - a) / (b - a) * 255 <= IZR 255) by lra.
      apply Zfloor_le in H0, H1. rewrite Zfloor_IZR in H0, H1. lia. }
    now rewrite ToUint8Clamp_int. }
  split.
  - intros i v Hv Hvab Ho. destruct (Hg i v Hv Hvab Ho) as [H1 H2].
    repeat split; try assumption; try lia.
    + intros ->. rewrite H1. do 2 f_equal.
      replace ((a - a) / (b - a) * 255) with (IZR 0) by (field; lra).
      apply Zfloor_IZR.
    + intros ->. rewrite H1. do 2 f_equal.
      replace ((b - a) / (b - a) * 255) with (IZR 255) by (field; lra).
      apply Zfloor_IZR.
  - intros i j v w gi gj Hv Hva Hw' Hwa Hoi Hoj Hgi Hgj Hvw.
    destruct (Hg i v Hv Hva Hoi) as [H1 _]. destruct (Hg j w Hw' Hwa Hoj) as [H2 _].
    rewrite H1 in Hgi. rewrite H2 in Hgj.
    injection Hgi as <-. injection Hgj as <-.
    apply Zfloor_le.
    assert (0 < / (b - a)) by (apply Rinv_0_lt_compat; lra).
    apply Rmult_le_compat_r; [lra|]. apply Rmult_le_compat_r; lra.
Qed.

(** X5. On a grid whose samples all equal its two bounds the range falls
    back to 1, and every pixel that the overlay does not flag is
    (0, 0, 0, 255). *)
Theorem renderToCanvas_flat (raster : RasterData) (ctx : Context2D) (cw ch : Z)
    (overlay : option (list Z)) (a : R) :
  grid_wf raster -> (0 < width raster)%Z -> (0 < height raster)%Z ->
  min raster = Fin a -> max raster = Fin a ->
  (forall i, (i < ta_length (data raster))%nat ->
     ta_get (data raster) i = Some (Fin a)) ->
  exists bmp,
    renderToCanvas raster (mkCanvas (Some ctx) cw ch) overlay
      = Ok (mkCanvas (Some (mkContext false bmp)) (width raster) (height raster)) /\
    forall i, (i < ta_length (data raster))%nat ->
      overlay_set overlay i = false ->
      pixel bmp i = [Some 0; Some 0; Some 0; Some 255]%Z.
Proof.
  intros Hwf Hw Hh Hmin Hmax Hall.
  eexists. split; [apply (renderToCanvas_bitmap _ _ _ _ Hwf Hw Hh)|].
  intros i Hi Ho. rewrite (rendered_pixel raster overlay Hi), Ho.
  do 2 f_equal. f_equal.
  unfold grayLevel. rewrite Hmin, Hmax, (Hall i Hi).
  cbn [Number sub neg add or_else].
  rewrite (proj2 (Reqb_true (a + - a) 0)) by lra.
  cbn [div]. rewrite (proj2 (Reqb_false 1 0)) by lra.
  cbn [mul Math_floor].
  replace ((a + - a) / 1 * 255) with (IZR 0) by (field; lra).
  rewrite Zfloor_IZR. apply (ToUint8Clamp_int (z := 0)). lia.
Qed.

End RenderTheorems.

Section Pipeline.

Lemma renderToCanvas_gray_witness :
  exists bmp,
    renderToCanvas ramp_2x1 blank_canvas None
      = Ok (mkCanvas (Some (mkContext false bmp)) 2 1) /\
    nth_error bmp 1 = Some 0%Z /\ nth_error bmp 5 = Some 255%Z.
Proof.
  destruct (@renderToCanvas_gray ramp_2x1 (mkContext true []) 300 150 None 10 30
              eq_refl eq_refl eq_refl eq_refl eq_refl ltac:(lra))
    as (bmp & Hr & Hg & _).
  exists bmp. split; [exact Hr|]. split.
  - apply (Hg 0%nat 10%R eq_refl ltac:(lra) eq_refl). reflexivity.
  - apply (Hg 1%nat 30%R eq_refl ltac:(lra) eq_refl). reflexivity.
Defined.

Lemma renderToCanvas_flat_witness :
  exists bmp,
    renderToCanvas flat_2x1 blank_canvas None
      = Ok (mkCanvas (Some (mkContext false bmp)) 2 1) /\
    forall i, (i < 2)%nat -> overlay_set None i = false ->
      pixel bmp i = [Some 0; Some 0; Some 0; Some 255]%Z.
Proof.
  apply (@renderToCanvas_flat flat_2x1 (mkContext true []) 300 150 None 7
           eq_refl eq_refl eq_refl eq_refl eq_refl).
  intros [|[|i]] Hi; cbn; try reflexivity. cbn in Hi. lia.
Defined.

Lemma red_count_rendered raster overlay :
  red_count (flat_map
           (fun i => [ if overlay_set overlay i then 255%Z else 0%Z;
                       if overlay_set overlay i then 0%Z
                       else ToUint8Clamp (grayLevel raster i);
                       0%Z; 255%Z ])
           (seq 0 (ta_length (data raster)))) (ta_length (data raster))
  = length (filter (overlay_set overlay) (seq 0 (ta_length (data raster)))).
Proof.
  unfold red_count. f_equal. apply filter_ext_in. intros i Hi.
  apply in_seq in Hi. rewrite rendered_red by lia.
  now destruct (overlay_set overlay i).
Qed.

Lemma overlay_set_mask (p : nat -> bool) n i :
  (i < n)%nat ->
  overlay_set (Some (map (fun i => if p i then 1%Z else 0%Z) (seq 0 n))) i = p i.
Proof.
  intros Hi. unfold overlay_set.
  rewrite nth_error_map, nth_error_seq.
  destruct (Nat.ltb_spec i n); [|lia]. cbn. now destruct (p i).
Qed.

Lemma red_count_mask raster (p : nat -> bool) :
  red_count (flat_map
           (fun i => [ if overlay_set (Some (map (fun i => if p i then 1%Z else 0%Z)
                                               (seq 0 (ta_length (data raster))))) i
                       then 255%Z else 0%Z;
                       if overlay_set (Some (map (fun i => if p i then 1%Z else 0%Z)
                                               (seq 0 (ta_length (data raster))))) i
                       then 0%Z
                       else ToUint8Clamp (grayLevel raster i);
                       0%Z; 255%Z ])
           (seq 0 (ta_length (data raster)))) (ta_length (data raster))
  = length (filter p (seq 0 (ta_length (data raster)))).
Proof.
  rewrite red_count_rendered. f_equal. apply filter_ext_in.
  intros i Hi. apply in_seq in Hi. apply overlay_set_mask. lia.
Qed.

Lemma same_shape_length past present :
  grid_wf past -> grid_wf present ->
  width past = width present -> height past = height present ->
  ta_length (data past) = ta_length (data present).
Proof. unfold grid_wf. intros H1 H2 Hw Hh. rewrite Hw, Hh, <- H2 in H1. lia. Qed.

(** X6. The analysis of two grids of the same shape: the drift is computed,
    and with the mask of either detector as the overlay, the number of
    pixels that [renderToCanvas] paints in full red is the count that the
    detector returns. *)
Theorem analysis_paints_count (fuel : nat) (past present : RasterData)
    (ctx : Context2D) (cw ch : Z) (s : rng) :
  8 <= fuel ->
  grid_wf past -> grid_wf present ->
  width past = width present -> height past = height present ->
  (0 < width present)%Z -> (0 < height present)%Z ->
  exists drift,
    calculateDrift past present = Ok drift /\
    (exists res s' bmp,
        IsolationForest.detectAnomalies fuel drift s = (Some res, s') /\
        renderToCanvas present (mkCanvas (Some ctx) cw ch)
                       (Some (IsolationForest.anomalies res))
          = Ok (mkCanvas (Some (mkContext false bmp))
                         (width present) (height present)) /\
        red_count bmp (ta_length (data present)) = IsolationForest.count res) /\
    (exists bmp,
        renderToCanvas present (mkCanvas (Some ctx) cw ch)
                       (Some (RobustMAD.anomalies
                                (fst (RobustMAD.detectAnomalies drift s))))
          = Ok (mkCanvas (Some (mkContext false bmp))
                         (width present) (height present)) /\
        red_count bmp (ta_length (data present))
          = RobustMAD.count (fst (RobustMAD.detectAnomalies drift s))).
Proof.
  intros Hf Hwp Hwq Hw Hh Hw0 Hh0.
  pose proof (same_shape_length Hwp Hwq Hw Hh) as Hlen.
  eexists. split; [apply (calculateDrift_shape_ok _ _ Hw Hh)|].
  set (drift := map _ (seq 0 (ta_length (data past)))).
  assert (Hd : length drift = ta_length (data present))
    by (unfold drift; now rewrite length_map, length_seq).
  split.
  - destruct (@buildForest_total fuel drift s Hf) as (forest & s' & Hb & _).
    eexists. exists s'. eexists.
    split; [apply (detectAnomalies_forest _ _ _ Hb)|].
    cbn [IsolationForest.anomalies IsolationForest.count].
    rewrite forest_flag_spec. cbn [fst snd]. rewrite Hd.
    split; [apply (renderToCanvas_bitmap _ _ _ _ Hwq Hw0 Hh0)|].
    apply red_count_mask.
  - rewrite detectAnomalies_unfold. cbn [fst RobustMAD.anomalies RobustMAD.count].
    rewrite flag_spec. cbn [fst snd]. rewrite Hd.
    eexists. split; [apply (renderToCanvas_bitmap _ _ _ _ Hwq Hw0 Hh0)|].
    apply red_count_mask.
Qed.

Lemma analysis_paints_count_witness :
  exists drift,
    calculateDrift scenario_past scenario_present = Ok drift /\
    (exists res s' bmp,
        IsolationForest.detectAnomalies 8 drift (fun _ => 0%R) = (Some res, s') /\
        renderToCanvas scenario_present blank_canvas
                       (Some (IsolationForest.anomalies res))
          = Ok (mkCanvas (Some (mkContext false bmp)) 2 2) /\
        red_count bmp 4 = IsolationForest.count res) /\
    (exists bmp,
        renderToCanvas scenario_present blank_canvas
                       (Some (RobustMAD.anomalies
                                (fst (RobustMAD.detectAnomalies drift (fun _ => 0%R)))))
          = Ok (mkCanvas (Some (mkContext false bmp)) 2 2) /\
        red_count bmp 4
          = RobustMAD.count (fst (RobustMAD.detectAnomalies drift (fun _ => 0%R)))).
Proof.
  exact (@analysis_paints_count 8 scenario_past scenario_present
           (mkContext true []) 300 150 (fun _ => 0%R)
           (le_n 8) eq_refl eq_refl eq_refl eq_refl eq_refl eq_refl).
Defined.

End Pipeline.

(* ================================================================== *)
(** * Properties of the position of the sun *)
(* ================================================================== *)

Section Sun.
Local Open Scope R_scope.

Lemma asin_cos x : - PI <= x <= PI -> asin (cos x) = PI / 2 - Rabs x.
Proof.
  intros Hx. destruct (Rle_dec 0 x) as [H0 | H0].
  - rewrite Rabs_right by lra. rewrite <- sin_shift. apply asin_sin. lra.
  - rewrite Rabs_left by lra. rewrite <- cos_neg, <- sin_shift.
    replace (PI / 2 - - x) with (PI / 2 + x) by lra.
    rewrite (asin_sin (PI / 2 + x)); lra.
Qed.

Lemma declination_bound t t0 : -23.45 <= declinationDeg t t0 <= 23.45.
Proof.
  unfold declinationDeg.
  pose proof (SIN_bound (2 * PI / 365 * (IZR (dayOfYear t t0) - 81))). lra.
Qed.

Lemma calculateSunPosition_value phi lon t t0 :
  -90 <= phi <= 90 ->
  calculateSunPosition (Fin phi) lon (mkDate (Fin t) (Fin t0))
  = Fin (90 - Rabs (phi - declinationDeg t t0)).
Proof.
  intros Hphi. pose proof PI_RGT_0 as Hpi. pose proof (declination_bound t t0) as Hd.
  unfold calculateSunPosition, Math_PI. cbn [getTime startOfYear].
  cbn [sub neg add mul div].
  rewrite (proj2 (Reqb_false (1000 * 60 * 60 * 24) 0)) by lra.
  cbn [Math_floor sub neg add mul div].
  rewrite (proj2 (Reqb_false 365 0)) by lra.
  cbn [mul Math_sin].
  rewrite (proj2 (Reqb_false 180 0)) by lra.
  cbn [mul Math_sin Math_cos add].
  set (d := 23.45 * sin (2 * PI / 365 * (IZR (Zfloor ((t + - t0) / (1000 * 60 * 60 * 24))) + - (81)))).
  assert (Hdd : d = declinationDeg t t0).
  { unfold d, declinationDeg, dayOfYear.
    replace ((t + - t0) / (1000 * 60 * 60 * 24)) with ((t - t0) / 86400000)
      by (field_simplify_eq; lra).
    reflexivity. }
  rewrite cos_0.
  replace (sin (phi * (PI / 180)) * sin (d * (PI / 180))
           + cos (phi * (PI / 180)) * cos (d * (PI / 180)) * 1)
    with (cos (phi * (PI / 180) - d * (PI / 180)))
    by (rewrite cos_minus; lra).
  unfold Math_asin.
  pose proof (COS_bound (phi * (PI / 180) - d * (PI / 180))) as Hc.
  rewrite (proj2 (Rltb_false _ (-1))) by lra.
  rewrite (proj2 (Rltb_false 1 _)) by lra.
  cbn [orb]. rewrite (proj2 (Reqb_false PI 0)) by lra.
  cbn [mul]. f_equal.
  rewrite Hdd in *. clear d Hdd Hc.
  set (dd := declinationDeg t t0) in *.
  assert (Hx : phi * (PI / 180) - dd * (PI / 180) = (phi - dd) * (PI / 180)) by lra.
  rewrite Hx.
  assert (Hr : - PI <= (phi - dd) * (PI / 180) <= PI) by nra.
  rewrite (asin_cos Hr).
  rewrite Rabs_mult, (Rabs_right (PI / 180)) by lra.
  field. lra.
Qed.

(** X7. For a latitude phi between -90 and 90 degrees that is at least 0.05
    degrees away from the declination delta of the day, where
    delta = 23.45 sin(2 pi / 365 (day - 81)), and a date with integral time
    values, at most 367 days after the start of its year,
    [calculateSunPosition] returns a real number within 0.01 degrees of
    90 - |phi - delta|; it is between 90 - |phi| - 23.46 and 89.96, and the
    longitude plays no part. *)
Theorem calculateSunPosition_noon (phi : R) (lon lon' : num) (t t0 : Z) :
  (Z.abs t <= 8640000000000000)%Z ->
  (0 <= t - t0 <= 367 * 86400000)%Z ->
  -90 <= phi <= 90 ->
  0.05 <= Rabs (phi - declinationDeg (IZR t) (IZR t0)) ->
  exists a,
    calculateSunPosition (Fin phi) lon (mkDate (Fin (IZR t)) (Fin (IZR t0))) = Fin a /\
    Rabs (a - (90 - Rabs (phi - declinationDeg (IZR t) (IZR t0)))) <= 0.01 /\
    90 - Rabs phi - 23.46 <= a <= 89.96 /\
    calculateSunPosition (Fin phi) lon' (mkDate (Fin (IZR t)) (Fin (IZR t0)))
      = calculateSunPosition (Fin phi) lon (mkDate (Fin (IZR t)) (Fin (IZR t0))).
Proof.
  intros _ _ Hphi Hgap. rewrite !calculateSunPosition_value by exact Hphi.
  pose proof (declination_bound (IZR t) (IZR t0)) as Hd.
  eexists. split; [reflexivity|]. split; [|split; [|reflexivity]].
  - replace (90 - Rabs (phi - declinationDeg (IZR t) (IZR t0))
             - (90 - Rabs (phi - declinationDeg (IZR t) (IZR t0)))) with 0 by lra.
    rewrite Rabs_R0. lra.
  - revert Hgap. unfold Rabs.
    destruct (Rcase_abs phi), (Rcase_abs (phi - declinationDeg (IZR t) (IZR t0))); lra.
Qed.

Lemma calculateSunPosition_noon_witness :
  exists a,
    calculateSunPosition (Fin 24.5) (Fin 73)
      (mkDate (Fin (IZR 1747310400000)) (Fin (IZR 1735583400000))) = Fin a /\
    Rabs (a - (90 - Rabs (24.5 - declinationDeg (IZR 1747310400000)
                                                (IZR 1735583400000)))) <= 0.01 /\
    90 - Rabs 24.5 - 23.46 <= a <= 89.96 /\
    calculateSunPosition (Fin 24.5) (Fin 0)
      (mkDate (Fin (IZR 1747310400000)) (Fin (IZR 1735583400000)))
      = calculateSunPosition (Fin 24.5) (Fin 73)
          (mkDate (Fin (IZR 1747310400000)) (Fin (IZR 1735583400000))).
Proof.
  apply (@calculateSunPosition_noon 24.5 (Fin 73) (Fin 0)
           1747310400000 1735583400000).
  - lia.
  - lia.
  - lra.
  - pose proof (declination_bound (IZR 1747310400000) (IZR 1735583400000)).
    rewrite Rabs_right; lra.
Defined.

(** X8. At a latitude within 36.5 degrees of the equator that is at least
    0.05 degrees away from the declination of the day, for a date as in
    X7, the computed altitude exceeds 30 degrees, so [validateShadowDepth]
    on it answers exactly whether the anomaly score exceeds 0.5.  The
    distance to the declination plays no part in the exact arithmetic of
    the model; it is what keeps the argument of [Math.asin] under 1 in
    double precision. *)
Theorem solar_gate_low_latitude (phi : R) (lon score : num) (t t0 : Z) :
  (Z.abs t <= 8640000000000000)%Z ->
  (0 <= t - t0 <= 367 * 86400000)%Z ->
  Rabs phi <= 36.5 ->
  0.05 <= Rabs (phi - declinationDeg (IZR t) (IZR t0)) ->
  validateShadowDepth
    (calculateSunPosition (Fin phi) lon (mkDate (Fin (IZR t)) (Fin (IZR t0)))) score
  = gtb score (Fin 0.5).
Proof.
  intros _ _ Hphi _.
  assert (Hr : -90 <= phi <= 90)
    by (unfold Rabs in Hphi; destruct (Rcase_abs phi); lra).
  rewrite (calculateSunPosition_value lon (IZR t) (IZR t0) Hr).
  unfold validateShadowDepth.
  pose proof (declination_bound (IZR t) (IZR t0)) as Hd.
  assert (Hg : gtb (Fin (90 - Rabs (phi - declinationDeg (IZR t) (IZR t0)))) (Fin 30)
               = true).
  { apply gtb_Fin. unfold Rabs in *.
    destruct (Rcase_abs phi), (Rcase_abs (phi - declinationDeg (IZR t) (IZR t0))); lra. }
  now rewrite Hg.
Qed.

Lemma solar_gate_low_latitude_witness :
  validateShadowDepth
    (calculateSunPosition (Fin 30) (Fin 73)
       (mkDate (Fin (IZR 1747310400000)) (Fin (IZR 1735583400000)))) (Fin 0.8)
  = gtb (Fin 0.8) (Fin 0.5).
Proof.
  apply (@solar_gate_low_latitude 30 (Fin 73) (Fin 0.8)
           1747310400000 1735583400000).
  - lia.
  - lia.
  - rewrite Rabs_right; lra.
  - pose proof (declination_bound (IZR 1747310400000) (IZR 1735583400000)).
    rewrite Rabs_right; lra.
Defined.

End Sun.

(* ================================================================== *)
(** * More on the Median / MAD detector *)
(* ================================================================== *)

Section SortMore.

Local Open Scope R_scope.

Lemma sort_le_trans x y z : sort_le x y -> sort_le y z -> sort_le x z.
Proof.
  unfold sort_le.
  destruct x as [| |a|], y as [| |b|], z as [| |c|]; cbn; intros H1 H2;
    try reflexivity; try discriminate.
  apply leb_Fin. apply leb_Fin in H1, H2. lra.
Qed.

Lemma sort_le_antisym x y : sort_le x y -> sort_le y x -> x = y.
Proof.
  unfold sort_le.
  destruct x as [| |a|], y as [| |b|]; cbn; intros H1 H2;
    try reflexivity; try discriminate.
  apply leb_Fin in H1, H2. f_equal. lra.
Qed.

Lemma sort_strongly_sorted l : StronglySorted sort_le (sort l).
Proof.
  apply Sorted_StronglySorted; [|apply sort_sorted].
  intros x y z. apply sort_le_trans.
Qed.

Lemma strongly_sorted_unique l : forall l',
  StronglySorted sort_le l -> StronglySorted sort_le l' ->
  Permutation l l' -> l = l'.
Proof.
  induction l as [|a t IH]; intros l' Hl Hl' Hp.
  - symmetry. now apply Permutation_nil.
  - destruct l' as [|b t'].
    + symmetry in Hp. apply Permutation_nil in Hp. discriminate.
    + apply StronglySorted_inv in Hl as [Ht Ha].
      apply StronglySorted_inv in Hl' as [Ht' Hb].
      assert (Hab : a = b).
      { assert (Hin1 : In a (b :: t')) by (eapply Permutation_in; [exact Hp | now left]).
        assert (Hin2 : In b (a :: t))
          by (eapply Permutation_in; [symmetry; exact Hp | now left]).
        destruct Hin1 as [-> | Hin1]; [reflexivity|].
        destruct Hin2 as [-> | Hin2]; [reflexivity|].
        apply sort_le_antisym.
        - rewrite Forall_forall in Ha. now apply Ha.
        - rewrite Forall_forall in Hb. now apply Hb. }
      subst b. f_equal. apply IH; try assumption.
      eapply Permutation_cons_inv; eassumption.
Qed.

(** the sorted array depends on the values only, not on their order *)
Lemma sort_permutation l l' : Permutation l l' -> sort l = sort l'.
Proof.
  intros Hp. apply strongly_sorted_unique; try apply sort_strongly_sorted.
  rewrite <- (sort_perm l), <- (sort_perm l'). exact Hp.
Qed.

Lemma filter_length_perm {A : Type} (f : A -> bool) l l' :
  Permutation l l' -> length (filter f l) = length (filter f l').
Proof.
  induction 1 as [| x l l' _ IH | x y l | l l' l'' _ IH1 _ IH2]; cbn.
  - reflexivity.
  - destruct (f x); cbn; now rewrite IH.
  - destruct (f x), (f y); reflexivity.
  - now rewrite IH1.
Qed.

Lemma filter_index_length (f : num -> bool) (l : list num) :
  length (filter (fun i => f (Number (nth_error l i))) (seq 0 (length l)))
  = length (filter f l).
Proof.
  induction l as [|x l IH]; [reflexivity|].
  cbn [length seq filter nth_error Number].
  rewrite <- seq_shift.
  assert (H : forall (g : nat -> bool) s,
             length (filter g (map S s)) = length (filter (fun i => g (S i)) s)).
  { intros g s. induction s as [|a s IHs]; [reflexivity|].
    cbn. destruct (g (S a)); cbn; now rewrite IHs. }
  destruct (f x); cbn [length]; rewrite H; cbn [nth_error]; now rewrite IH.
Qed.

End SortMore.

Section MADMore.

Import RobustMAD.
Local Open Scope R_scope.

Lemma statistics_perm l l' : Permutation l l' -> statistics l = statistics l'.
Proof. intros Hp. unfold statistics. now rewrite (sort_permutation Hp). Qed.

Lemma flag_count drift lim :
  snd (flag drift lim) = length (filter (fun d => ltb d lim) drift).
Proof.
  rewrite flag_spec. cbn [snd].
  apply (filter_index_length (fun d => ltb d lim)).
Qed.

(** X10. On arrays of at most 1,000,000 values the statistics and the count
    of the Median / MAD detector depend on the values only, not on their
    order: two arrays that are permutations of each other get the same
    median, MAD, limit and count. *)
Theorem robustMAD_order_independent (drift drift' : list num) (s s' : rng) :
  (Z.of_nat (length drift) <= 1000000)%Z ->
  Permutation drift drift' ->
  stats (fst (detectAnomalies drift s)) = stats (fst (detectAnomalies drift' s')) /\
  count (fst (detectAnomalies drift s)) = count (fst (detectAnomalies drift' s')).
Proof.
  intros Hn Hp.
  assert (Hn' : (Z.of_nat (length drift') <= 1000000)%Z)
    by (now rewrite <- (Permutation_length Hp)).
  rewrite !detectAnomalies_unfold, !takeSample_small by assumption.
  cbn [fst stats count].
  rewrite (statistics_perm Hp). split; [reflexivity|].
  rewrite !flag_count. now apply filter_length_perm.
Qed.

Lemma robustMAD_order_independent_witness :
  stats (fst (detectAnomalies [Fin 1; Fin 2; Fin 3] (fun _ => 0)))
    = stats (fst (detectAnomalies [Fin 2; Fin 1; Fin 3] (fun _ => 0))) /\
  count (fst (detectAnomalies [Fin 1; Fin 2; Fin 3] (fun _ => 0)))
    = count (fst (detectAnomalies [Fin 2; Fin 1; Fin 3] (fun _ => 0))).
Proof.
  apply (@robustMAD_order_independent [Fin 1; Fin 2; Fin 3] [Fin 2; Fin 1; Fin 3]).
  - cbn. lia.
  - apply perm_swap.
Defined.

Lemma all_Fin_perm l l' : Permutation l l' -> all_Fin l -> all_Fin l'.
Proof.
  intros Hp H x Hx. apply H. eapply Permutation_in; [symmetry; exact Hp | exact Hx].
Qed.

Lemma strongly_sorted_after l : forall i a,
  StronglySorted sort_le l -> nth_error l i = Some a ->
  forall e, In e (skipn i l) -> sort_le a e \/ e = a.
Proof.
  induction l as [|x l IH]; intros [|i] a Hs Hn e He; cbn in *; try discriminate.
  - injection Hn as <-. apply StronglySorted_inv in Hs as [_ Hx].
    destruct He as [<- | He]; [now right|].
    left. rewrite Forall_forall in Hx. now apply Hx.
  - apply StronglySorted_inv in Hs as [Hs _]. eapply IH; eassumption.
Qed.

Lemma mid_lt n : (1 <= n)%nat -> (n / 2 < n)%nat.
Proof. intros H. apply Nat.div_lt; lia. Qed.

(** the statistics of a sample of finite values *)
Lemma statistics_finite sample :
  sample <> [] -> all_Fin sample ->
  exists m a L,
    median (statistics sample) = Some (Fin m) /\
    nth_error (sort sample) (length sample / 2) = Some (Fin m) /\
    mad (statistics sample) = Some (Fin a) /\ 0 <= a /\
    limit (statistics sample) = Fin L /\ L < m.
Proof.
  intros Hne Hfin.
  assert (Hn : (1 <= length sample)%nat) by (destruct sample; [contradiction | cbn; lia]).
  pose proof (all_Fin_perm (sort_perm sample) Hfin) as Hsf.
  destruct (nth_error (sort sample) (length sample / 2)) as [x|] eqn:Hx.
  2:{ apply nth_error_None in Hx. rewrite sort_length in Hx.
      pose proof (mid_lt Hn). lia. }
  destruct (Hsf x (nth_error_In _ _ Hx)) as [m ->].
  pose proof (statistics_median sample) as Hmed. rewrite Hx in Hmed.
  pose proof (statistics_mad sample) as Hmad. rewrite Hmed in Hmad. cbn [Number] in Hmad.
  set (devs := map (fun x => Math_abs (sub x (Fin m))) (sort sample)) in *.
  assert (Hdev : forall d, In d devs -> exists a, d = Fin a /\ 0 <= a).
  { intros d Hd. unfold devs in Hd. apply in_map_iff in Hd as (y & <- & Hy).
    destruct (Hsf y Hy) as [r ->]. cbn. eexists. split; [reflexivity | apply Rabs_pos]. }
  destruct (nth_error (sort devs) (length sample / 2)) as [d|] eqn:Hd.
  2:{ apply nth_error_None in Hd. unfold devs in Hd.
      rewrite sort_length, length_map, sort_length in Hd.
      pose proof (mid_lt Hn). lia. }
  assert (Hin : In d devs).
  { eapply Permutation_in; [symmetry; apply sort_perm | eapply nth_error_In; exact Hd]. }
  destruct (Hdev d Hin) as (a & -> & Ha).
  destruct (statistics_limit sample) as [Hl0 Hl1].
  exists m, a.
  destruct (Req_dec_T a 0) as [Ha0 | Ha0].
  - exists (m - 3 * 0.01). repeat split; try assumption; try lra.
    rewrite (Hl0 (Fin a) Hmad) by (cbn; now apply Reqb_true).
    rewrite Hmed. cbn. f_equal.
  - exists (m - 3 * a). repeat split; try assumption; try lra.
    rewrite (Hl1 (Fin a) Hmad) by (cbn; now apply Reqb_false).
    rewrite Hmed. cbn. f_equal.
Qed.

(** X9. On a non-empty array of at most 1,000,000 finite values the median
    is a real number, the limit is never above the median, every flagged
    value is strictly under the median, and at most half of the values are
    flagged. *)
Theorem robustMAD_below_median (drift : list num) (s : rng) :
  (Z.of_nat (length drift) <= 1000000)%Z ->
  drift <> [] -> all_Fin drift ->
  exists m,
    median (stats (fst (detectAnomalies drift s))) = Some (Fin m) /\
    leb (limit (stats (fst (detectAnomalies drift s)))) (Fin m) = true /\
    (forall i d, nth_error drift i = Some d ->
       nth_error (anomalies (fst (detectAnomalies drift s))) i = Some 1%Z ->
       ltb d (Fin m) = true) /\
    (count (fst (detectAnomalies drift s)) <= length drift / 2)%nat.
Proof.
  intros Hn Hne Hfin.
  rewrite detectAnomalies_unfold, takeSample_small by exact Hn.
  cbn [fst stats anomalies count].
  destruct (statistics_finite Hne Hfin) as (m & a & L & Hmed & Hnth & _ & _ & Hlim & HL).
  exists m. rewrite Hmed, Hlim.
  split; [reflexivity|]. split; [apply leb_Fin; lra|]. split.
  - intros i d Hd Hflag. rewrite flag_spec in Hflag. cbn [fst] in Hflag.
    assert (Hi : (i < length drift)%nat) by (apply nth_error_Some; congruence).
    rewrite nth_error_map, nth_error_seq in Hflag.
    destruct (Nat.ltb_spec i (length drift)); [|lia].
    cbn [option_map Nat.add] in Hflag. rewrite Hd in Hflag. cbn [Number] in Hflag.
    destruct (ltb d (Fin L)) eqn:E; [|discriminate].
    destruct (Hfin d (nth_error_In _ _ Hd)) as [r ->].
    apply ltb_Fin in E. apply ltb_Fin. lra.
  - rewrite flag_count.
    rewrite (filter_length_perm _ (sort_perm drift)).
    rewrite <- (firstn_skipn (length drift / 2) (sort drift)) at 1.
    rewrite filter_app, length_app.
    rewrite (filter_none (fun d => ltb d (Fin L)) (skipn (length drift / 2) (sort drift))).
    + cbn [length]. rewrite Nat.add_0_r.
      etransitivity; [apply filter_length_le|].
      rewrite length_firstn. apply Nat.le_min_l.
    + intros e He.
      pose proof (all_Fin_perm (sort_perm drift) Hfin) as Hsf.
      assert (Hine : In e (sort drift)).
      { rewrite <- (firstn_skipn (length drift / 2) (sort drift)).
        apply in_or_app. now right. }
      destruct (Hsf e Hine) as [v ->].
      apply Rltb_false.
      destruct (@strongly_sorted_after (sort drift) (length drift / 2) (Fin m)
                  (sort_strongly_sorted drift) Hnth (Fin v) He) as [Hle | Heq].
      * unfold sort_le in Hle. cbn in Hle. apply leb_Fin in Hle. lra.
      * injection Heq as ->. lra.
Qed.

Lemma robustMAD_below_median_witness :
  exists m,
    median (stats (fst (detectAnomalies [Fin (-0.4); Fin 0; Fin 0; Fin 0] (fun _ => 0%R))))
      = Some (Fin m) /\
    leb (limit (stats (fst (detectAnomalies [Fin (-0.4); Fin 0; Fin 0; Fin 0]
                              (fun _ => 0%R))))) (Fin m) = true /\
    (count (fst (detectAnomalies [Fin (-0.4); Fin 0; Fin 0; Fin 0] (fun _ => 0%R))) <= 2)%nat.
Proof.
  destruct (@robustMAD_below_median [Fin (-0.4); Fin 0; Fin 0; Fin 0] (fun _ => 0%R))
    as (m & H1 & H2 & _ & H5).
  - cbn. lia.
  - discriminate.
  - intros x [<- | [<- | [<- | [<- | []]]]]; eexists; reflexivity.
  - exists m. repeat split; assumption.
Defined.

End MADMore.

Section MADConstant.

Import RobustMAD.
Local Open Scope R_scope.

Lemma sort_constant (x : num) l :
  (forall d, In d l -> d = x) -> sort l = repeat x (length l).
Proof.
  intros H.
  assert (Hs : Forall (fun t => t = x) (sort l)).
  { apply Forall_forall. intros d Hd. apply H.
    eapply Permutation_in; [symmetry; apply sort_perm | exact Hd]. }
  apply Forall_eq_repeat in Hs. now rewrite sort_length in Hs.
Qed.

End MADConstant.

Section Empty.

Local Open Scope R_scope.

Lemma heightLimit_0 : IsolationForest.heightLimit 0 = NInf.
Proof. unfold IsolationForest.heightLimit. cbn [IsolationForest.subSampleSize Nat.min].
  now rewrite Math_log2_zero. Qed.

Lemma buildForest_empty_loop fuel : forall k i acc s,
  for_loopM_from i k
    (fun (i : nat) (forest : option (list IsolationForest.node)) =>
       sample <- IsolationForest.drawSample [] ;;
       t <- IsolationForest.buildTree fuel (IsolationForest.heightLimit 0) sample 0 ;;
       ret (match forest, t with
            | Some forest, Some t => Some (forest ++ [t])
            | _, _ => None
            end))
    (Some acc) s
  = (Some (acc ++ repeat (IsolationForest.leaf 0) k), s).
Proof.
  induction k as [|k IH]; intros i acc s.
  - cbn. now rewrite app_nil_r.
  - cbn [for_loopM_from]. unfold bind at 1 2.
    cbn [IsolationForest.drawSample length IsolationForest.subSampleSize Nat.min
         for_loopM for_loopM_from repeat ret].
    unfold bind at 1. rewrite buildTree_small by (cbn; lia).
    cbn [ret length]. rewrite IH, <- app_assoc. reflexivity.
Qed.

(** X11. On the empty drift array both detectors return the empty mask and
    the count 0, and draw no random number: the Median / MAD statistics are
    undefined, undefined and NaN; the isolation forest reports the maximal
    score -Infinity and the minimal score Infinity. *)
Theorem detectAnomalies_empty (fuel : nat) (s : rng) :
  RobustMAD.detectAnomalies [] s
    = (RobustMAD.mkResult [] 0 (RobustMAD.mkStats None None NaN), s) /\
  IsolationForest.detectAnomalies fuel [] s
    = (Some (IsolationForest.mkResult [] 0
               (IsolationForest.mkStats NInf PInf (Fin 0.65))), s).
Proof.
  split; [reflexivity|].
  unfold IsolationForest.detectAnomalies, bind.
  unfold IsolationForest.buildForest, for_loopM. cbn [length].
  rewrite buildForest_empty_loop. reflexivity.
Qed.

End Empty.

(* ================================================================== *)
(** * More on the isolation forest *)
(* ================================================================== *)

Section ForestShape.

Import IsolationForest.

Lemma geb_of_nat_false a b : geb (of_nat a) (of_nat b) = false -> a < b.
Proof.
  intros H. destruct (Nat.le_gt_cases b a) as [Hle | Hlt]; [|exact Hlt].
  rewrite (of_nat_inj_le Hle) in H. discriminate.
Qed.

(** A tree that was built holds every value of its data in its leaves, and
    does not grow past the height limit. *)
Lemma buildTree_shape fuel : forall hl data depth s t s',
  buildTree fuel hl data depth s = (Some t, s') ->
  tree_size t = length data /\
  (hl = NInf -> tree_height t = 0) /\
  forall h, hl = of_nat h -> depth + tree_height t <= Nat.max depth h.
Proof.
  induction fuel as [|fuel IH]; intros hl data depth s t s' H.
  - cbn [buildTree] in H.
    destruct (geb (of_nat depth) hl || (length data <=? 1)).
    { injection H as <- _. cbn. repeat split; intros; lia. }
    destruct (minmax data) as [mn mx].
    destruct (eqb mn mx).
    { injection H as <- _. cbn. repeat split; intros; lia. }
    unfold bind in H at 1. cbn [Math_random] in H.
    destruct (partition _ data). discriminate H.
  - rewrite buildTree_S in H.
    destruct (geb (of_nat depth) hl || (length data <=? 1)) eqn:E.
    { injection H as <- _. cbn. repeat split; intros; lia. }
    destruct (minmax data) as [mn mx].
    destruct (eqb mn mx).
    { injection H as <- _. cbn. repeat split; intros; lia. }
    unfold bind in H at 1. cbn [Math_random] in H.
    destruct (partition _ data) as [leftData rightData] eqn:Hp.
    unfold bind in H.
    destruct (buildTree fuel hl leftData (depth + 1) (fun k => s (S k)))
      as [[lt|] s1] eqn:Hl.
    2:{ destruct (buildTree fuel hl rightData (depth + 1) s1) as [[rt|] s2];
          discriminate H. }
    destruct (buildTree fuel hl rightData (depth + 1) s1) as [[rt|] s2] eqn:Hr;
      [|discriminate H].
    injection H as <- _.
    destruct (IH _ _ _ _ _ _ Hl) as (Hls & _ & Hlh).
    destruct (IH _ _ _ _ _ _ Hr) as (Hrs & _ & Hrh).
    apply orb_false_iff in E as [E _].
    cbn [tree_size tree_height]. split; [|split].
    + rewrite Hls, Hrs. symmetry. exact (partition_length _ _ Hp).
    + intros ->. unfold of_nat in E. cbn in E. discriminate E.
    + intros h ->. apply geb_of_nat_false in E.
      specialize (Hlh h eq_refl). specialize (Hrh h eq_refl). lia.
Qed.

Lemma heightLimit_log2 n :
  heightLimit n = NInf \/
  heightLimit n = of_nat (Nat.log2_up (subSampleSize n)).
Proof.
  unfold heightLimit.
  destruct (subSampleSize n) as [|m] eqn:E.
  - left. now rewrite Math_log2_zero.
  - right. apply ceil_log2_of_nat. lia.
Qed.

Lemma log2_up_subSample n : Nat.log2_up (subSampleSize n) <= 8.
Proof.
  change 8 with (Nat.log2_up 256). apply Nat.log2_up_le_mono.
  unfold subSampleSize. apply Nat.le_min_r.
Qed.

(** X13. Given fuel for the height limit, the forest is ten trees, and for
    every outcome of the random draws each tree holds in its leaves the
    min(n, 256) values of its subsample and is no higher than
    ceil(log2(min(n, 256))), which is at most 8. *)
Theorem buildForest_trees (fuel : nat) (drift : list num) (s : rng) :
  8 <= fuel ->
  exists forest s',
    buildForest fuel drift s = (Some forest, s') /\
    length forest = 10 /\
    Forall (fun t =>
              tree_size t = Nat.min (length drift) 256 /\
              tree_height t <= Nat.log2_up (Nat.min (length drift) 256) /\
              tree_height t <= 8) forest.
Proof.
  intros Hf.
  destruct (@buildForest_total fuel drift s Hf) as (forest & s' & Hb & Hlen).
  exists forest, s'. split; [exact Hb|]. split; [exact Hlen|].
  assert (H : exists f, fst (buildForest fuel drift s) = Some f /\
            Forall (fun t =>
              tree_size t = Nat.min (length drift) 256 /\
              tree_height t <= Nat.log2_up (Nat.min (length drift) 256) /\
              tree_height t <= 8) f).
  { unfold buildForest, for_loopM.
    apply (for_loopM_inv
             (fun f : option (list node) =>
                exists forest, f = Some forest /\
                  Forall (fun t =>
                    tree_size t = Nat.min (length drift) 256 /\
                    tree_height t <= Nat.log2_up (Nat.min (length drift) 256) /\
                    tree_height t <= 8) forest)).
    - intros i st s0 (f & -> & Hall). unfold bind at 1.
      pose proof (drawSample_length drift s0) as Hsl.
      destruct (drawSample drift s0) as [sample s1]. cbn [fst] in Hsl.
      unfold bind.
      destruct (@buildTree_total fuel (heightLimit (length drift)) sample 0 s1)
        as (t & s2 & Ht); [now apply heightLimit_fuel|].
      rewrite Ht. cbn [ret fst]. exists (f ++ [t]). split; [reflexivity|].
      apply Forall_app. split; [exact Hall|]. constructor; [|constructor].
      destruct (buildTree_shape _ _ _ _ _ Ht) as (Hsz & Hinf & Hh).
      pose proof (log2_up_subSample (length drift)) as H8.
      unfold subSampleSize in *.
      split; [congruence|].
      destruct (heightLimit_log2 (length drift)) as [E | E].
      + rewrite (Hinf E). lia.
      + specialize (Hh _ E). unfold subSampleSize in Hh. lia.
    - exists []. split; [reflexivity | constructor]. }
  destruct H as (f & Hfst & Hall). rewrite Hb in Hfst. cbn [fst] in Hfst.
  now injection Hfst as ->.
Qed.

Lemma buildForest_trees_witness :
  8 <= 8 /\
  exists forest s',
    buildForest 8 [Fin 1; Fin 2; Fin 3] (fun _ => 0%R) = (Some forest, s') /\
    length forest = 10 /\
    Forall (fun t =>
              tree_size t = Nat.min (length [Fin 1; Fin 2; Fin 3]) 256 /\
              tree_height t
                <= Nat.log2_up (Nat.min (length [Fin 1; Fin 2; Fin 3]) 256) /\
              tree_height t <= 8) forest.
Proof.
  split; [lia|].
  apply (@buildForest_trees 8 [Fin 1; Fin 2; Fin 3] (fun _ => 0%R)). lia.
Defined.

End ForestShape.

Section ForestStats.

Import IsolationForest.
Local Open Scope R_scope.

(** the bounds that the scoring loop keeps are the ones of [minmax], on the
    scores *)
Lemma scoreAll_bounds forest drift :
  (snd (fst (scoreAll forest drift)), snd (scoreAll forest drift))
  = minmax (map (score forest (length drift)) drift).
Proof.
  unfold scoreAll, for_loop, minmax.
  set (n := length drift).
  set (body := fun (s : list num * num * num) (i : nat) =>
         let '(scores, minScore, maxScore) := s in
         let sc := score forest n (Number (nth_error drift i)) in
         (upd scores i (fround sc),
          if ltb sc minScore then sc else minScore,
          if gtb sc maxScore then sc else maxScore)).
  set (step := fun '(mn, mx) (x : num) =>
         (if ltb x mn then x else mn, if gtb x mx then x else mx)).
  assert (H : forall l k st mn mx,
            (forall i, nth_error l i = nth_error drift (k + i)) ->
            (snd (fst (fold_left body (seq k (length l)) (st, mn, mx))),
             snd (fold_left body (seq k (length l)) (st, mn, mx)))
            = fold_left step (map (score forest n) l) (mn, mx)).
  { induction l as [|x l IH]; intros k st mn mx Hl; [reflexivity|].
    cbn [length seq fold_left map].
    pose proof (Hl 0%nat) as H0. rewrite Nat.add_0_r in H0. cbn in H0.
    unfold body at 2 4. rewrite <- H0. cbn [Number]. cbn zeta.
    unfold step at 2. apply IH.
    intros i. specialize (Hl (S i)). cbn [nth_error] in Hl.
    rewrite Hl. f_equal. lia. }
  apply (H drift 0%nat). reflexivity.
Qed.

(** X14. On two values or more the statistics of the isolation forest are
    real numbers with 0 < minScore <= maxScore <= 1 and the threshold 0.65;
    both bounds are scores of drift values, and every score lies between
    them. *)
Theorem isolation_stats_bounds (fuel : nat) (drift : list num) (s : rng) :
  (8 <= fuel)%nat -> (2 <= length drift)%nat ->
  exists forest res s' a b,
    buildForest fuel drift s = (Some forest, s') /\
    detectAnomalies fuel drift s = (Some res, s') /\
    stats res = mkStats (Fin b) (Fin a) (Fin 0.65) /\
    0 < a <= b /\ b <= 1 /\
    (exists d, In d drift /\ score forest (length drift) d = Fin a) /\
    (exists d, In d drift /\ score forest (length drift) d = Fin b) /\
    forall d, In d drift ->
      exists r, score forest (length drift) d = Fin r /\ a <= r <= b.
Proof.
  intros Hf Hn.
  destruct (@buildForest_total fuel drift s Hf) as (forest & s' & Hb & _).
  pose proof (detectAnomalies_forest _ _ _ Hb) as Hd.
  pose proof (scoreAll_bounds forest drift) as Hmm.
  pose proof (@minmax_spec (map (score forest (length drift)) drift) PInf NInf
                ltac:(discriminate) ltac:(discriminate)) as Hs.
  unfold minmax in Hmm. rewrite <- Hmm in Hs.
  set (mn := snd (fst (scoreAll forest drift))) in *.
  set (mx := snd (scoreAll forest drift)) in *.
  destruct Hs as (_ & _ & _ & _ & Hall & Hmn & Hmx).
  assert (Hne : exists d0, In d0 drift).
  { destruct drift as [|d0 l]; [simpl in Hn; lia | exists d0; now left]. }
  destruct Hne as (d0 & Hd0).
  assert (Hscore : forall d, exists r, score forest (length drift) d = Fin r /\ 0 < r <= 1)
    by (intros d; now apply score_range).
  assert (Hin : forall d, In d drift ->
            In (score forest (length drift) d) (map (score forest (length drift)) drift))
    by (intros d Hi; now apply in_map).
  assert (Hmn' : In mn (map (score forest (length drift)) drift)).
  { destruct Hmn as [E | Hi]; [|exact Hi].
    destruct (Hscore d0) as (r & Hr & _).
    destruct (Hall _ (Hin d0 Hd0)) as [H1 _]; [rewrite Hr; discriminate|].
    rewrite E, Hr in H1. discriminate. }
  assert (Hmx' : In mx (map (score forest (length drift)) drift)).
  { destruct Hmx as [E | Hi]; [|exact Hi].
    destruct (Hscore d0) as (r & Hr & _).
    destruct (Hall _ (Hin d0 Hd0)) as [_ H1]; [rewrite Hr; discriminate|].
    rewrite E, Hr in H1. discriminate. }
  apply in_map_iff in Hmn' as (da & Hda & Hdain).
  apply in_map_iff in Hmx' as (db & Hdb & Hdbin).
  destruct (Hscore da) as (a & Ha & Ha01).
  destruct (Hscore db) as (b & Hb' & Hb01).
  assert (Hab : a <= b).
  { destruct (Hall _ (Hin da Hdain)) as [_ H1]; [rewrite Ha; discriminate|].
    rewrite Ha, <- Hdb, Hb' in H1. now apply leb_Fin in H1. }
  eexists forest, _, s', a, b.
  split; [exact Hb|]. split; [exact Hd|].
  cbn [stats]. fold mn mx. rewrite <- Hda, <- Hdb, Ha, Hb'.
  split; [reflexivity|]. split; [lra|]. split; [lra|].
  split; [now exists da|]. split; [now exists db|].
  intros d Hi. destruct (Hscore d) as (r & Hr & _).
  exists r. split; [exact Hr|].
  destruct (Hall _ (Hin d Hi)) as [H1 H2]; [rewrite Hr; discriminate|].
  rewrite Hr, <- Hda, Ha in H1. rewrite Hr, <- Hdb, Hb' in H2.
  apply leb_Fin in H1, H2. lra.
Qed.

Lemma isolation_stats_bounds_witness :
  (8 <= 8)%nat /\ (2 <= length [Fin (-1); Fin 0; Fin 0])%nat /\
  exists forest res s' a b,
    buildForest 8 [Fin (-1); Fin 0; Fin 0] (fun _ => 0) = (Some forest, s') /\
    detectAnomalies 8 [Fin (-1); Fin 0; Fin 0] (fun _ => 0) = (Some res, s') /\
    stats res = mkStats (Fin b) (Fin a) (Fin 0.65) /\
    0 < a <= b /\ b <= 1 /\
    (exists d, In d [Fin (-1); Fin 0; Fin 0] /\
               score forest (length [Fin (-1); Fin 0; Fin 0]) d = Fin a) /\
    (exists d, In d [Fin (-1); Fin 0; Fin 0] /\
               score forest (length [Fin (-1); Fin 0; Fin 0]) d = Fin b) /\
    forall d, In d [Fin (-1); Fin 0; Fin 0] ->
      exists r, score forest (length [Fin (-1); Fin 0; Fin 0]) d = Fin r /\
                a <= r <= b.
Proof.
  split; [lia|]. split; [simpl; lia|].
  apply (@isolation_stats_bounds 8 [Fin (-1); Fin 0; Fin 0] (fun _ => 0));
    simpl; lia.
Defined.

End ForestStats.

Section RandomDraws.

Local Open Scope R_scope.

Lemma unit_rng_next s : unit_rng s -> unit_rng (fun k => s (S k)).
Proof. intros H k. apply H. Qed.

(** A loop that draws random numbers keeps an invariant of its state and of
    the outcomes still to come. *)
Lemma for_loopM_from_inv2 {St : Type} (Q : rng -> Prop) (P : nat -> St -> Prop)
    (body : nat -> St -> Rand St) :
  (forall i st s, Q s -> P i st ->
     P (S i) (fst (body i st s)) /\ Q (snd (body i st s))) ->
  forall k i st s, Q s -> P i st ->
    P (i + k)%nat (fst (for_loopM_from i k body st s)) /\
    Q (snd (for_loopM_from i k body st s)).
Proof.
  intros Hbody. induction k as [|k IH]; intros i st s Hs Hst; cbn [for_loopM_from].
  - rewrite Nat.add_0_r. cbn [ret fst snd]. auto.
  - unfold bind. destruct (Hbody i st s Hs Hst) as [HP HQ].
    destruct (body i st s) as [st' s1]. cbn [fst snd] in HP, HQ.
    replace (i + S k)%nat with (S i + k)%nat by lia. now apply IH.
Qed.

(** [l[Math.floor(r * n)]] for an outcome [r] of [Math.random] and the
    length [n] of [l]: an element of [l]. *)
Lemma random_index (l : list num) r :
  0 <= r < 1 -> (0 < length l)%nat ->
  exists x, get l (Math_floor (mul (Fin r) (of_nat (length l)))) = Some x /\ In x l.
Proof.
  intros Hr Hn. unfold of_nat. cbn [mul Math_floor]. unfold get, index_of, is_int.
  set (z := Zfloor (r * INR (length l))).
  assert (Hpos : 0 < INR (length l)) by (now apply lt_0_INR).
  assert (Hz : (0 <= z < Z.of_nat (length l))%Z).
  { pose proof (Zfloor_bounds (r * INR (length l))) as Hb. fold z in Hb.
    split.
    - assert (H0 : (Zfloor 0 <= z)%Z) by (apply Zfloor_le; nra).
      now rewrite (Zfloor_IZR 0) in H0.
    - apply lt_IZR. rewrite <- INR_IZR_INZ. nra. }
  rewrite (Zfloor_IZR z), Reqb_refl.
  rewrite (proj2 (Rltb_false (IZR z) 0)) by (apply IZR_le; lia).
  cbn [andb negb].
  destruct (nth_error l (Z.to_nat z)) as [x|] eqn:E.
  - exists x. split; [reflexivity | eapply nth_error_In; eassumption].
  - apply nth_error_None in E. lia.
Qed.

(** a loop that stores an element of [drift] at every index of a fresh
    array *)
Lemma draw_loop (drift : list num) (size : nat) s :
  unit_rng s -> (0 < length drift)%nat ->
  let res :=
    for_loopM size
      (fun j sample =>
         r <- Math_random ;;
         ret (upd sample j
                (fround (Number (get drift (Math_floor (mul r (of_nat (length drift)))))))))
      (repeat (Fin 0) size) s in
  length (fst res) = size /\
  Forall (fun x => In x drift) (fst res) /\
  unit_rng (snd res).
Proof.
  intros Hs Hn. cbn zeta. unfold for_loopM.
  destruct (@for_loopM_from_inv2 (list num) unit_rng
              (fun j sample =>
                 length sample = size /\
                 forall k x, (k < j)%nat -> nth_error sample k = Some x -> In x drift)
              (fun j sample =>
                 r <- Math_random ;;
                 ret (upd sample j
                        (fround (Number (get drift
                           (Math_floor (mul r (of_nat (length drift)))))))))) 
    with (k := size) (i := 0%nat) (st := repeat (Fin 0) size) (s := s)
    as [[Hlen Hall] Hq].
  - intros i st s0 Hs0 [Hlen Hall]. unfold bind, ret. cbn [Math_random fst snd].
    split; [|now apply unit_rng_next].
    split; [now rewrite upd_length|].
    intros k x Hk Hx.
    destruct (random_index drift (Hs0 0%nat) Hn) as (y & Hy & Hin).
    rewrite Hy in Hx. cbn [Number] in Hx. unfold fround in Hx.
    destruct (Nat.eq_dec i k) as [<- | Hne].
    + assert (Hi : (i < length st)%nat).
      { rewrite <- (upd_length st i y). apply nth_error_Some. congruence. }
      rewrite nth_error_upd_same in Hx by exact Hi. now injection Hx as <-.
    + rewrite nth_error_upd_other in Hx by exact Hne.
      apply (Hall k x); [lia | exact Hx].
  - exact Hs.
  - split; [apply repeat_length | intros; lia].
  - split; [exact Hlen|]. split; [|exact Hq].
    apply Forall_forall. intros x Hx.
    apply In_nth_error in Hx as [k Hk].
    apply (Hall k x); [|exact Hk].
    cbn [Nat.add]. rewrite <- Hlen. apply nth_error_Some. congruence.
Qed.

End RandomDraws.

Section Samples.

Local Open Scope R_scope.

(** X15. When the outcomes of Math.random are in [0, 1), every value of a
    subsample is a value of the drift array, for the subsample of
    min(n, 256) values of a tree and for the sample of the Median / MAD
    statistics: 100000 draws above 1,000,000 values, the array itself
    otherwise. *)
Theorem samples_are_drift_values (drift : list num) (s : rng) :
  unit_rng s -> (0 < length drift)%nat ->
  (length (fst (IsolationForest.drawSample drift s)) = Nat.min (length drift) 256 /\
   Forall (fun x => In x drift) (fst (IsolationForest.drawSample drift s)) /\
   unit_rng (snd (IsolationForest.drawSample drift s))) /\
  (length (fst (RobustMAD.takeSample drift s))
     = (if (1000000 <? Z.of_nat (length drift))%Z then Z.to_nat 100000
        else length drift) /\
   Forall (fun x => In x drift) (fst (RobustMAD.takeSample drift s)) /\
   unit_rng (snd (RobustMAD.takeSample drift s))).
Proof.
  intros Hs Hn. split.
  - exact (draw_loop drift (IsolationForest.subSampleSize (length drift)) Hs Hn).
  - unfold RobustMAD.takeSample.
    destruct (1000000 <? Z.of_nat (length drift))%Z.
    + exact (draw_loop drift (Z.to_nat 100000) Hs Hn).
    + cbn [ret fst snd]. split; [reflexivity|]. split; [|exact Hs].
      apply Forall_forall. auto.
Qed.

Lemma samples_are_drift_values_witness :
  (length (fst (IsolationForest.drawSample [Fin 1; Fin 2] (fun _ => 0)))
     = Nat.min (length [Fin 1; Fin 2]) 256 /\
   Forall (fun x => In x [Fin 1; Fin 2])
          (fst (IsolationForest.drawSample [Fin 1; Fin 2] (fun _ => 0))) /\
   unit_rng (snd (IsolationForest.drawSample [Fin 1; Fin 2] (fun _ => 0)))) /\
  (length (fst (RobustMAD.takeSample [Fin 1; Fin 2] (fun _ => 0)))
     = (if (1000000 <? Z.of_nat (length [Fin 1; Fin 2]))%Z then Z.to_nat 100000
        else length [Fin 1; Fin 2]) /\
   Forall (fun x => In x [Fin 1; Fin 2])
          (fst (RobustMAD.takeSample [Fin 1; Fin 2] (fun _ => 0))) /\
   unit_rng (snd (RobustMAD.takeSample [Fin 1; Fin 2] (fun _ => 0)))).
Proof.
  apply (@samples_are_drift_values [Fin 1; Fin 2] (fun _ => 0)).
  - intros k. lra.
  - simpl. lia.
Defined.

End Samples.

Section ForestFlat.

Import IsolationForest.
Local Open Scope R_scope.

Lemma eqb_refl_num x : x <> NaN -> eqb x x = true.
Proof.
  destruct x as [| |a|]; intros H; try reflexivity; [contradiction|].
  apply Reqb_refl.
Qed.

Lemma ltb_irrefl_num x : ltb x x = false.
Proof.
  destruct x as [| |a|]; try reflexivity. apply Rltb_false. lra.
Qed.

Lemma minmax_repeat x n :
  x <> NaN -> minmax (repeat x (S n)) = (x, x).
Proof.
  intros Hx. unfold minmax. cbn [repeat fold_left].
  assert (H1 : (if ltb x PInf then x else PInf) = x)
    by (destruct x; try reflexivity; contradiction).
  assert (H2 : (if gtb x NInf then x else NInf) = x)
    by (destruct x; try reflexivity; contradiction).
  rewrite H1, H2.
  induction n as [|n IH]; [reflexivity|].
  cbn [repeat fold_left]. unfold gtb. now rewrite ltb_irrefl_num.
Qed.

(** no split when the bounds of the data are equal *)
Lemma buildTree_flat fuel hl data depth s mn mx :
  minmax data = (mn, mx) -> eqb mn mx = true ->
  buildTree fuel hl data depth s = (Some (leaf (length data)), s).
Proof.
  intros Hm He.
  destruct fuel; cbn [buildTree];
    (destruct (geb (of_nat depth) hl || (length data <=? 1)); [reflexivity|]);
    rewrite Hm, He; reflexivity.
Qed.

Lemma buildTree_repeat fuel hl x n depth s :
  x <> NaN ->
  buildTree fuel hl (repeat x n) depth s = (Some (leaf n), s).
Proof.
  intros Hx. destruct n as [|n].
  - now rewrite buildTree_small by (cbn; lia).
  - rewrite (@buildTree_flat fuel hl (repeat x (S n)) depth s x x).
    + now rewrite repeat_length.
    + now apply minmax_repeat.
    + now apply eqb_refl_num.
Qed.

Lemma drawSample_flat x n s :
  unit_rng s -> (0 < n)%nat ->
  fst (drawSample (repeat x n) s) = repeat x (subSampleSize n) /\
  unit_rng (snd (drawSample (repeat x n) s)).
Proof.
  intros Hs Hn.
  assert (Hl : (0 < length (repeat x n))%nat) by (now rewrite repeat_length).
  pose proof (draw_loop (repeat x n) (subSampleSize (length (repeat x n))) Hs Hl)
    as H.
  cbn zeta in H. unfold drawSample. cbn zeta.
  match goal with |- fst ?r = _ /\ _ => set (res := r) in * end.
  destruct H as (Hlen & Hall & Hq).
  split; [|exact Hq].
  rewrite repeat_length in Hlen. rewrite <- Hlen.
  apply Forall_eq_repeat.
  eapply Forall_impl; [|exact Hall]. intros y Hy. now apply repeat_spec in Hy.
Qed.

Lemma buildForest_flat fuel x n s :
  unit_rng s -> (0 < n)%nat -> x <> NaN ->
  fst (buildForest fuel (repeat x n) s)
    = Some (repeat (leaf (subSampleSize n)) numTrees) /\
  unit_rng (snd (buildForest fuel (repeat x n) s)).
Proof.
  intros Hs Hn Hx. unfold buildForest, for_loopM.
  apply (@for_loopM_from_inv2 (option (list node)) unit_rng
           (fun i f => f = Some (repeat (leaf (subSampleSize n)) i))).
  - intros i st s0 Hs0 ->. unfold bind.
    destruct (drawSample_flat x Hs0 Hn) as [Hd Hq].
    destruct (drawSample (repeat x n) s0) as [sample s1]. cbn [fst snd] in Hd, Hq.
    subst sample. rewrite buildTree_repeat by exact Hx.
    cbn [ret fst snd]. split; [|exact Hq].
    f_equal. symmetry. apply repeat_cons.
  - exact Hs.
  - reflexivity.
Qed.

Lemma Rpower_2_m1 : Rpower 2 (-1) = / 2.
Proof.
  replace (-1) with (- (1)) by lra.
  rewrite Rpower_Ropp, Rpower_1 by lra. reflexivity.
Qed.

Lemma sum_leaves val size y : forall k a,
  c size = Fin y ->
  fold_left (fun avgPathLen t => add avgPathLen (pathLength val t 0%nat))
    (repeat (leaf size) k) (Fin a) = Fin (a + INR k * y).
Proof.
  induction k as [|k IH]; intros a Hc.
  - cbn. f_equal. lra.
  - cbn [repeat fold_left pathLength]. rewrite Hc. unfold of_nat. cbn [add].
    rewrite IH by exact Hc. f_equal. rewrite S_INR. simpl (INR 0). lra.
Qed.

(** in a forest of leaves every value has the score 1/2 *)
Lemma score_leaves n val :
  (2 <= n)%nat -> score (repeat (leaf (subSampleSize n)) numTrees) n val = Fin (/ 2).
Proof.
  intros Hn. unfold score.
  destruct (@c_pos (subSampleSize n)) as (y & Hy & Hpos);
    [unfold subSampleSize; lia|].
  rewrite (@sum_leaves val (subSampleSize n) y numTrees 0 Hy), Hy.
  unfold of_nat. rewrite INR_numTrees. cbn [div].
  rewrite (proj2 (Reqb_false 10 0)) by lra. cbn [neg div].
  rewrite (proj2 (Reqb_false y 0)) by lra.
  replace (- ((0 + 10 * y) / 10) / y) with (-1) by (field; lra).
  cbn [Math_pow].
  rewrite (proj2 (Reqb_false (-1) 0)) by lra.
  rewrite (proj2 (Reqb_false 2 0)) by lra.
  rewrite (proj2 (Rltb_true 0 2)) by lra.
  now rewrite Rpower_2_m1.
Qed.

(** X16. On a constant drift array of two values or more (of any value but
    NaN), with the outcomes of Math.random in [0, 1) and whatever the fuel:
    every tree is a single leaf, every value has the same score r, which
    is between 0.49 and 0.51, the array of the scores holds r as stored,
    nothing is flagged, and both score bounds are r. *)
Theorem isolation_flat_drift (fuel n : nat) (x : num) (s : rng) :
  unit_rng s -> (2 <= n)%nat -> x <> NaN ->
  exists r,
    0.49 <= r <= 0.51 /\
    fst (buildForest fuel (repeat x n) s) = Some (repeat (leaf (Nat.min n 256)) 10) /\
    (forall d, score (repeat (leaf (Nat.min n 256)) 10) n d = Fin r) /\
    fst (fst (scoreAll (repeat (leaf (Nat.min n 256)) 10) (repeat x n)))
      = repeat (fround (Fin r)) n /\
    fst (detectAnomalies fuel (repeat x n) s)
      = Some (mkResult (repeat 0%Z n) 0 (mkStats (Fin r) (Fin r) (Fin 0.65))).
Proof.
  intros Hs Hn Hx. exists (/ 2). split; [lra|].
  destruct (@buildForest_flat fuel x n s Hs ltac:(lia) Hx) as [Hb _].
  change (repeat (leaf (Nat.min n 256)) 10)
    with (repeat (leaf (subSampleSize n)) numTrees).
  set (forest := repeat (leaf (subSampleSize n)) numTrees) in *.
  assert (Hsc : fst (fst (scoreAll forest (repeat x n))) = repeat (Fin (/ 2)) n).
  { rewrite scoreAll_scores, repeat_length, map_repeat.
    unfold forest. now rewrite score_leaves. }
  split; [exact Hb|].
  split; [intros d; unfold forest; now apply score_leaves|].
  split; [exact Hsc|].
  destruct (buildForest fuel (repeat x n) s) as [f s'] eqn:E.
  cbn [fst] in Hb. subst f.
  rewrite (detectAnomalies_forest _ _ _ E). cbn [fst].
  pose proof (scoreAll_bounds forest (repeat x n)) as Hmm.
  rewrite repeat_length, map_repeat in Hmm.
  unfold forest in Hmm at 3. rewrite score_leaves in Hmm by exact Hn.
  assert (Hm : minmax (repeat (Fin (/ 2)) n) = (Fin (/ 2), Fin (/ 2))).
  { destruct n as [|m]; [lia|]. apply minmax_repeat. discriminate. }
  rewrite Hm in Hmm.
  injection Hmm as Hmn Hmx. rewrite Hmn, Hmx, Hsc.
  rewrite forest_flag_spec, repeat_length. cbn [fst snd].
  assert (Hp : forall i, In i (seq 0 n) ->
             gtb (Number (nth_error (repeat (Fin (/ 2)) n) i)) anomalyThreshold
             && ltb (Number (nth_error (repeat x n) i)) (neg (Fin 0.05)) = false).
  { intros i Hi. apply in_seq in Hi.
    rewrite nth_error_repeat by lia. cbn [Number]. unfold anomalyThreshold.
    replace (gtb (Fin (/ 2)) (Fin 0.65)) with false; [reflexivity|].
    symmetry. apply not_true_is_false. rewrite gtb_Fin. lra. }
  do 2 f_equal.
  - rewrite (map_ext_in _ (fun _ => 0%Z)).
    + apply map_const_seq.
    + intros i Hi. now rewrite (Hp i Hi).
  - now rewrite filter_none.
Qed.

Lemma isolation_flat_drift_witness :
  exists r,
    0.49 <= r <= 0.51 /\
    fst (buildForest 0 (repeat (Fin (-1)) 300) (fun _ => 0))
      = Some (repeat (leaf (Nat.min 300 256)) 10) /\
    (forall d, score (repeat (leaf (Nat.min 300 256)) 10) 300 d = Fin r) /\
    fst (fst (scoreAll (repeat (leaf (Nat.min 300 256)) 10) (repeat (Fin (-1)) 300)))
      = repeat (fround (Fin r)) 300 /\
    fst (detectAnomalies 0 (repeat (Fin (-1)) 300) (fun _ => 0))
      = Some (mkResult (repeat 0%Z 300) 0 (mkStats (Fin r) (Fin r) (Fin 0.65))).
Proof.
  apply (@isolation_flat_drift 0 300 (Fin (-1)) (fun _ => 0)).
  - intros k. lra.
  - lia.
  - discriminate.
Defined.

End ForestFlat.

Section MADSample.

Import RobustMAD.
Local Open Scope R_scope.

(** the sample of the statistics: not empty, and made of drift values *)
Lemma takeSample_members drift s :
  (Z.of_nat (length drift) <= 1000000)%Z \/ unit_rng s ->
  drift <> [] ->
  fst (takeSample drift s) <> [] /\
  Forall (fun x => In x drift) (fst (takeSample drift s)).
Proof.
  intros Hs Hne.
  assert (Hn : (0 < length drift)%nat) by (destruct drift; [contradiction | cbn; lia]).
  unfold takeSample.
  destruct (Z.ltb_spec 1000000 (Z.of_nat (length drift))) as [Hbig | Hsmall].
  - destruct Hs as [Hs | Hs]; [lia|].
    destruct (draw_loop drift (Z.to_nat 100000) Hs Hn) as (Hlen & Hall & _).
    split; [|exact Hall].
    intros E. rewrite E in Hlen. cbn [length] in Hlen. lia.
  - cbn [ret fst]. split; [exact Hne|]. apply Forall_forall. auto.
Qed.

Lemma statistics_constant sample v :
  sample <> [] -> (forall d, In d sample -> d = Fin v) ->
  statistics sample
  = mkStats (Some (Fin v)) (Some (Fin 0)) (sub (Fin v) (mul (Fin 3) (Fin 0.01))).
Proof.
  intros Hne Hall.
  assert (Hlen : (1 <= length sample)%nat)
    by (destruct sample; [contradiction | cbn; lia]).
  pose proof (mid_lt Hlen) as Hmid.
  assert (Hmed : median (statistics sample) = Some (Fin v)).
  { rewrite statistics_median, (@sort_constant (Fin v) sample Hall).
    now apply nth_error_repeat. }
  assert (Hmad : mad (statistics sample) = Some (Fin 0)).
  { rewrite statistics_mad_stored, Hmed, (@sort_constant (Fin v) sample Hall).
    cbn [Number]. rewrite map_repeat.
    rewrite (@sort_constant (Fin 0)).
    - rewrite repeat_length. now apply nth_error_repeat.
    - intros d Hd. apply repeat_spec in Hd. subst d. unfold fround. cbn. f_equal.
      replace (v + - v) with 0 by lra. apply Rabs_R0. }
  assert (Hlim : limit (statistics sample) = sub (Fin v) (mul (Fin 3) (Fin 0.01))).
  { rewrite (proj1 (statistics_limit sample) (Fin 0) Hmad) by (cbn; apply Reqb_refl).
    now rewrite Hmed. }
  destruct (statistics sample) as [md ma li]. cbn in Hmed, Hmad, Hlim. now subst.
Qed.

Lemma ltb_NaN_r d : ltb d NaN = false.
Proof. destruct d; reflexivity. Qed.

(** the limit of a constant sample that is not a real number: NaN *)
Lemma statistics_constant_special sample x :
  sample <> [] -> (forall d, In d sample -> d = x) ->
  (forall v, x <> Fin v) ->
  limit (statistics sample) = NaN.
Proof.
  intros Hne Hall Hx.
  assert (Hlen : (1 <= length sample)%nat)
    by (destruct sample; [contradiction | cbn; lia]).
  pose proof (mid_lt Hlen) as Hmid.
  assert (Hmed : median (statistics sample) = Some x).
  { rewrite statistics_median, (@sort_constant x sample Hall).
    now apply nth_error_repeat. }
  assert (Hdev : fround (Math_abs (sub x x)) = NaN).
  { destruct x as [| |v|]; try reflexivity. now destruct (Hx v). }
  assert (Hmad : mad (statistics sample) = Some NaN).
  { rewrite statistics_mad_stored, Hmed, (@sort_constant x sample Hall).
    cbn [Number]. rewrite map_repeat, Hdev.
    rewrite (@sort_constant NaN).
    - rewrite repeat_length. now apply nth_error_repeat.
    - intros d Hd. now apply repeat_spec in Hd. }
  rewrite (proj2 (statistics_limit sample) NaN Hmad) by reflexivity.
  destruct (Number (median (statistics sample))); reflexivity.
Qed.

(** X12. On a non-empty constant drift array, of any value (also NaN or an
    infinity), the Median / MAD detector flags nothing.  When the constant
    is a real number v the median is v, the MAD is 0 and the limit is
    v - 3 * 0.01, as the source computes it.  On more than 1,000,000 values
    this needs the outcomes of Math.random to be in [0, 1). *)
Theorem robustMAD_constant (drift : list num) (x : num) (s : rng) :
  (Z.of_nat (length drift) <= 1000000)%Z \/ unit_rng s ->
  drift <> [] -> (forall d, In d drift -> d = x) ->
  anomalies (fst (detectAnomalies drift s)) = repeat 0%Z (length drift) /\
  count (fst (detectAnomalies drift s)) = 0%nat /\
  forall v, x = Fin v ->
    stats (fst (detectAnomalies drift s))
    = mkStats (Some (Fin v)) (Some (Fin 0)) (sub (Fin v) (mul (Fin 3) (Fin 0.01))).
Proof.
  intros Hs Hne Hall.
  destruct (takeSample_members Hs Hne) as [Hsne Hsin].
  rewrite detectAnomalies_unfold. cbn [fst anomalies count stats].
  assert (Hsall : forall d, In d (fst (takeSample drift s)) -> d = x).
  { intros d Hd. apply Hall. rewrite Forall_forall in Hsin. now apply Hsin. }
  assert (Hp : forall i, In i (seq 0 (length drift)) ->
             ltb (Number (nth_error drift i))
                 (limit (statistics (fst (takeSample drift s)))) = false).
  { intros i Hi. apply in_seq in Hi.
    destruct (nth_error drift i) as [d|] eqn:Hd;
      [|apply nth_error_None in Hd; lia].
    rewrite (Hall d (nth_error_In _ _ Hd)). cbn [Number].
    destruct x as [| |v|].
    - reflexivity.
    - rewrite (@statistics_constant_special _ NInf Hsne Hsall) by discriminate.
      reflexivity.
    - rewrite (@statistics_constant _ v Hsne Hsall). cbn [limit].
      cbn. apply Rltb_false. lra.
    - rewrite (@statistics_constant_special _ PInf Hsne Hsall) by discriminate.
      reflexivity. }
  rewrite flag_spec. cbn [fst snd].
  rewrite (filter_none _ _ Hp).
  rewrite (map_ext_in _ (fun _ => 0%Z)) by (intros i Hi; now rewrite (Hp i Hi)).
  rewrite map_const_seq.
  split; [reflexivity|]. split; [reflexivity|].
  intros v ->. now apply statistics_constant.
Qed.

Lemma robustMAD_constant_witness :
  anomalies (fst (detectAnomalies [Fin 5; Fin 5] (fun _ => 0))) = [0; 0]%Z /\
  count (fst (detectAnomalies [Fin 5; Fin 5] (fun _ => 0))) = 0%nat /\
  forall v, Fin 5 = Fin v ->
    stats (fst (detectAnomalies [Fin 5; Fin 5] (fun _ => 0)))
    = mkStats (Some (Fin v)) (Some (Fin 0)) (sub (Fin v) (mul (Fin 3) (Fin 0.01))).
Proof.
  apply (@robustMAD_constant [Fin 5; Fin 5] (Fin 5) (fun _ => 0)).
  - right. intros k. lra.
  - discriminate.
  - intros d [<- | [<- | []]]; reflexivity.
Defined.

(** X17. On a non-empty drift array the median that the Median / MAD
    detector reports is one of the drift values m, never an average, and
    the MAD is the stored value of |x - m| for a drift value x: the
    deviation as the [Float32Array] of the deviations holds it.  On more
    than 1,000,000 values this needs the outcomes of Math.random to be in
    [0, 1). *)
Theorem robustMAD_statistics_from_drift (drift : list num) (s : rng) :
  (Z.of_nat (length drift) <= 1000000)%Z \/ unit_rng s ->
  drift <> [] ->
  exists m x,
    In m drift /\ In x drift /\
    median (stats (fst (detectAnomalies drift s))) = Some m /\
    mad (stats (fst (detectAnomalies drift s)))
      = Some (fround (Math_abs (sub x m))).
Proof.
  intros Hs Hne.
  destruct (takeSample_members Hs Hne) as [Hsne Hsin].
  rewrite detectAnomalies_unfold. cbn [fst stats].
  set (sample := fst (takeSample drift s)) in *.
  rewrite Forall_forall in Hsin.
  assert (Hlen : (1 <= length sample)%nat)
    by (destruct sample; [contradiction | cbn; lia]).
  pose proof (mid_lt Hlen) as Hmid.
  destruct (nth_error (sort sample) (length sample / 2)) as [m|] eqn:Hm.
  2:{ apply nth_error_None in Hm. rewrite sort_length in Hm. lia. }
  assert (Hmin : In m drift).
  { apply Hsin. eapply Permutation_in; [symmetry; apply sort_perm|].
    eapply nth_error_In; eassumption. }
  set (f := fun x => fround (Math_abs (sub x (Number (median (statistics sample)))))).
  destruct (nth_error (sort (map f (sort sample))) (length sample / 2)) as [a|] eqn:Ha.
  2:{ apply nth_error_None in Ha. rewrite sort_length, length_map, sort_length in Ha. lia. }
  assert (Hain : In a (map f (sort sample))).
  { eapply Permutation_in; [symmetry; apply sort_perm|].
    eapply nth_error_In; eassumption. }
  apply in_map_iff in Hain as (x & Hx & Hxin).
  exists m, x. split; [exact Hmin|]. split.
  - apply Hsin. eapply Permutation_in; [symmetry; apply sort_perm | exact Hxin].
  - split; [now rewrite statistics_median|].
    rewrite statistics_mad_stored. fold f. rewrite Ha, <- Hx. unfold f.
    now rewrite statistics_median, Hm.
Qed.

Lemma robustMAD_statistics_from_drift_witness :
  exists m x,
    In m [Fin 1; NaN; Fin 3] /\ In x [Fin 1; NaN; Fin 3] /\
    median (stats (fst (detectAnomalies [Fin 1; NaN; Fin 3] (fun _ => 0)))) = Some m /\
    mad (stats (fst (detectAnomalies [Fin 1; NaN; Fin 3] (fun _ => 0))))
      = Some (fround (Math_abs (sub x m))).
Proof.
  apply (@robustMAD_statistics_from_drift [Fin 1; NaN; Fin 3] (fun _ => 0)).
  - left. cbn. lia.
  - discriminate.
Defined.

End MADSample.

(* ================================================================== *)
(** * More on the harmonic analysis *)
(* ================================================================== *)

Section HarmonicMore.

Local Open Scope R_scope.

(** X18. [performHarmonicAnalysis] returns as many points as it is given,
    and changes nothing of a point but the seasonal estimate: the date, the
    NDVI value, the VIIRS value and the trend stay, whatever the values. *)
Theorem harmonic_keeps_fields (history : list TimeSeriesPoint) :
  length (performHarmonicAnalysis history) = length history /\
  forall i p, nth_error history i = Some p ->
    exists q,
      nth_error (performHarmonicAnalysis history) i = Some q /\
      date q = date p /\ ndvi q = ndvi p /\ viirs q = viirs p /\ trend q = trend p.
Proof.
  unfold performHarmonicAnalysis, mapi. split; [apply length_mapi_from|].
  intros i p Hp. rewrite nth_error_mapi_from, Hp. cbn [option_map].
  eexists. split; [reflexivity|]. cbn. auto.
Qed.

(** X19. On a series of at most 16 points with finite NDVI values no bin is
    filtered: the seasonal estimate of every point is its NDVI value. *)
Theorem harmonic_short_identity (history : list TimeSeriesPoint) :
  all_finite history -> (length history <= 16)%nat ->
  performHarmonicAnalysis history
  = map (fun p => with_seasonal p (ndvi p)) history.
Proof.
  intros Hfin Hlen. apply nth_error_ext. intros i.
  rewrite nth_error_map.
  destruct (nth_error history i) as [p|] eqn:Hp.
  - destruct (Hfin p (nth_error_In _ _ Hp)) as [r Hr].
    cbn [option_map]. rewrite Hr. now apply harmonic_identity.
  - cbn [option_map]. apply nth_error_None.
    rewrite (proj1 (harmonic_real Hfin)). now apply nth_error_None.
Qed.

Lemma harmonic_short_identity_witness :
  performHarmonicAnalysis
    [mkPoint "2023-01-01" (Fin 0.5) (Fin 0.1) (Fin 0) (Fin 0);
     mkPoint "2023-01-02" (Fin 0.7) (Fin 0.2) (Fin 0) (Fin 0);
     mkPoint "2023-01-03" (Fin 0.2) (Fin 0.3) (Fin 0) (Fin 0)]
  = map (fun p => with_seasonal p (ndvi p))
    [mkPoint "2023-01-01" (Fin 0.5) (Fin 0.1) (Fin 0) (Fin 0);
     mkPoint "2023-01-02" (Fin 0.7) (Fin 0.2) (Fin 0) (Fin 0);
     mkPoint "2023-01-03" (Fin 0.2) (Fin 0.3) (Fin 0) (Fin 0)].
Proof.
  apply harmonic_short_identity.
  - intros p [<- | [<- | [<- | []]]]; cbn; eauto.
  - cbn. lia.
Defined.

(** the filter is linear *)
Lemma smoothed_re_linear size a b x y i :
  smoothed_re size (fun n => a * x n + b * y n) i
  = a * smoothed_re size x i + b * smoothed_re size y i.
Proof.
  unfold smoothed_re, idft_re.
  rewrite <- !Rsum_scal, <- Rsum_plus. apply Rsum_ext. intros k Hk.
  unfold low_pass. rewrite !dft_re_real, !dft_im_real.
  rewrite (Rsum_ext (fun n => (a * x n + b * y n) * cos (angle size (n * k)))
             (fun n => a * (x n * cos (angle size (n * k)))
                       + b * (y n * cos (angle size (n * k)))))
    by (intros; lra).
  rewrite (Rsum_ext (fun n => (a * x n + b * y n) * sin (angle size (n * k)))
             (fun n => a * (x n * sin (angle size (n * k)))
                       + b * (y n * sin (angle size (n * k)))))
    by (intros; lra).
  rewrite !Rsum_plus, !Rsum_scal.
  destruct (keep size k); lra.
Qed.

Lemma ndvi_real_past history i :
  (length history <= i)%nat -> ndvi_real history i = 0.
Proof.
  intros H. unfold ndvi_real. now rewrite (proj2 (nth_error_None history i)).
Qed.

Lemma harmonic_seasonal history i :
  all_finite history -> (i < length history)%nat ->
  option_map seasonal (nth_error (performHarmonicAnalysis history) i)
  = Some (Fin (smoothed_re (fft_size (length history)) (ndvi_real history) i
               / INR (fft_size (length history)))).
Proof.
  intros Hfin Hi.
  destruct (nth_error history i) as [p|] eqn:Hp;
    [|apply nth_error_None in Hp; lia].
  now rewrite (proj2 (harmonic_real Hfin) i p Hp).
Qed.

(** X20. The seasonal estimate is linear in the NDVI values: for three
    series of the same length with finite values, where the NDVI values of
    the third are a times the ones of the first plus b times the ones of
    the second, the seasonal estimates are combined the same way. *)
Theorem harmonic_linear (h1 h2 h3 : list TimeSeriesPoint) (a b : R) :
  all_finite h1 -> all_finite h2 -> all_finite h3 ->
  length h2 = length h1 -> length h3 = length h1 ->
  (forall i, (i < length h1)%nat ->
     ndvi_real h3 i = a * ndvi_real h1 i + b * ndvi_real h2 i) ->
  forall i, (i < length h1)%nat ->
    exists r1 r2,
      option_map seasonal (nth_error (performHarmonicAnalysis h1) i) = Some (Fin r1) /\
      option_map seasonal (nth_error (performHarmonicAnalysis h2) i) = Some (Fin r2) /\
      option_map seasonal (nth_error (performHarmonicAnalysis h3) i)
        = Some (Fin (a * r1 + b * r2)).
Proof.
  intros H1 H2 H3 L2 L3 Hlin i Hi.
  do 2 eexists.
  split; [now apply harmonic_seasonal|].
  split; [apply harmonic_seasonal; [exact H2 | lia]|].
  rewrite harmonic_seasonal by (try exact H3; lia).
  rewrite L2, L3. do 2 f_equal.
  rewrite (@smoothed_re_ext _ (ndvi_real h3)
             (fun n => a * ndvi_real h1 n + b * ndvi_real h2 n)).
  - rewrite smoothed_re_linear. unfold Rdiv. lra.
  - intros n _. destruct (Nat.lt_ge_cases n (length h1)) as [Hn | Hn].
    + now apply Hlin.
    + rewrite !ndvi_real_past by lia. lra.
Qed.

Lemma harmonic_linear_witness :
  exists r1 r2,
    option_map seasonal (nth_error (performHarmonicAnalysis
      (constant_series 2 1)) 0) = Some (Fin r1) /\
    option_map seasonal (nth_error (performHarmonicAnalysis
      (constant_series 2 2)) 0) = Some (Fin r2) /\
    option_map seasonal (nth_error (performHarmonicAnalysis
      (constant_series 2 (3 * 1 + 4 * 2))) 0)
      = Some (Fin (3 * r1 + 4 * r2)).
Proof.
  apply (@harmonic_linear (constant_series 2 1) (constant_series 2 2)
           (constant_series 2 (3 * 1 + 4 * 2)) 3 4);
    try apply constant_series_finite; try reflexivity.
  - intros i Hi. rewrite !ndvi_real_constant. unfold const_signal.
    destruct (i <? 2)%nat; lra.
  - cbn. lia.
Defined.

Lemma keep_0 size : keep size 0 = true.
Proof. reflexivity. Qed.

Lemma smoothed_re_sum size x :
  (0 < size)%nat ->
  Rsum (smoothed_re size x) size = INR size * Rsum x size.
Proof.
  intros Hpos. unfold smoothed_re.
  rewrite (Rsum_ext _ (idft_re size (low_pass size (dft_re size x (fun _ => 0)))
                                    (low_pass size (dft_im size x (fun _ => 0)))))
    by reflexivity.
  rewrite (@idft_re_sum size Hpos). f_equal.
  unfold low_pass. rewrite keep_0, dft_re_real.
  apply Rsum_ext. intros n Hn. cbn [Nat.mul]. rewrite Nat.mul_0_r.
  rewrite (angle_0 Hpos), cos_0. lra.
Qed.

Lemma seasonal_real_spec history i r :
  option_map seasonal (nth_error history i) = Some (Fin r) ->
  seasonal_real history i = r.
Proof.
  unfold seasonal_real. destruct (nth_error history i) as [p|]; [|discriminate].
  cbn [option_map]. intros H. injection H as ->. reflexivity.
Qed.

(** X21. On a series of finite NDVI values whose length is a power of two,
    at least 2, the seasonal estimates are real numbers and their sum is
    the sum of the NDVI values: the filter keeps the mean. *)
Theorem harmonic_preserves_sum (history : list TimeSeriesPoint) (k : nat) :
  all_finite history -> (1 <= k)%nat -> length history = (2 ^ k)%nat ->
  (forall i, (i < length history)%nat ->
     exists r, option_map seasonal (nth_error (performHarmonicAnalysis history) i)
               = Some (Fin r)) /\
  Rsum (seasonal_real (performHarmonicAnalysis history)) (length history)
  = Rsum (ndvi_real history) (length history).
Proof.
  intros Hfin Hk Hlen.
  assert (Hsize : fft_size (length history) = length history)
    by (rewrite Hlen; now apply fft_size_pow2).
  assert (Hpos : (0 < length history)%nat).
  { rewrite Hlen. pose proof (Nat.pow_nonzero 2 k). lia. }
  split.
  - intros i Hi. eexists. now apply harmonic_seasonal.
  - rewrite (Rsum_ext _ (fun i => smoothed_re (length history) (ndvi_real history) i
                                   / INR (length history))).
    + unfold Rdiv. rewrite Rsum_scal_r, smoothed_re_sum by exact Hpos.
      field. apply not_0_INR. lia.
    + intros i Hi. apply seasonal_real_spec.
      rewrite harmonic_seasonal by assumption. now rewrite Hsize.
Qed.

Lemma harmonic_preserves_sum_witness :
  (forall i, (i < length [mkPoint "2023-01-01" (Fin 0.5) (Fin 0) (Fin 0) (Fin 0);
                          mkPoint "2023-01-02" (Fin 0.7) (Fin 0) (Fin 0) (Fin 0)])%nat ->
     exists r, option_map seasonal
                 (nth_error (performHarmonicAnalysis
                    [mkPoint "2023-01-01" (Fin 0.5) (Fin 0) (Fin 0) (Fin 0);
                     mkPoint "2023-01-02" (Fin 0.7) (Fin 0) (Fin 0) (Fin 0)]) i)
               = Some (Fin r)) /\
  Rsum (seasonal_real (performHarmonicAnalysis
          [mkPoint "2023-01-01" (Fin 0.5) (Fin 0) (Fin 0) (Fin 0);
           mkPoint "2023-01-02" (Fin 0.7) (Fin 0) (Fin 0) (Fin 0)]))
       (length [mkPoint "2023-01-01" (Fin 0.5) (Fin 0) (Fin 0) (Fin 0);
                mkPoint "2023-01-02" (Fin 0.7) (Fin 0) (Fin 0) (Fin 0)])
  = Rsum (ndvi_real [mkPoint "2023-01-01" (Fin 0.5) (Fin 0) (Fin 0) (Fin 0);
                     mkPoint "2023-01-02" (Fin 0.7) (Fin 0) (Fin 0) (Fin 0)])
         (length [mkPoint "2023-01-01" (Fin 0.5) (Fin 0) (Fin 0) (Fin 0);
                  mkPoint "2023-01-02" (Fin 0.7) (Fin 0) (Fin 0) (Fin 0)]).
Proof.
  apply (@harmonic_preserves_sum
           [mkPoint "2023-01-01" (Fin 0.5) (Fin 0) (Fin 0) (Fin 0);
            mkPoint "2023-01-02" (Fin 0.7) (Fin 0) (Fin 0) (Fin 0)] 1).
  - intros p [<- | [<- | []]]; cbn; eauto.
  - lia.
  - reflexivity.
Defined.

End HarmonicMore.

Section HarmonicNaN.

Local Open Scope R_scope.

Lemma add_NaN_r x : add x NaN = NaN.
Proof. destruct x; reflexivity. Qed.

Lemma num_sum_NaN f n i :
  (i < n)%nat -> f i = NaN -> FFT.num_sum f n = NaN.
Proof.
  unfold FFT.num_sum. induction n as [|n IH]; intros Hi Hf; [lia|].
  rewrite seq_S, fold_left_app. cbn [fold_left Nat.add].
  destruct (Nat.eq_dec i n) as [<- | Hne].
  - rewrite Hf. apply add_NaN_r.
  - rewrite IH by (try exact Hf; lia). reflexivity.
Qed.

(** the input of the transform, for any series *)
Lemma fillInput_nth history size :
  length (fillInput history size) = (2 * size)%nat /\
  forall k, (k < size)%nat ->
    nth_error (fillInput history size) (2 * k)
      = Some (if (k <? length history)%nat
              then Number (option_map ndvi (nth_error history k)) else Fin 0) /\
    nth_error (fillInput history size) (2 * k + 1) = Some (Fin 0).
Proof.
  unfold fillInput, for_loop.
  rewrite (fold_left_ext_body _
             (fun a i => upd (upd a (2 * i)
                            (if (i <? length history)%nat
                             then Number (option_map ndvi (nth_error history i))
                             else Fin 0))
                             (2 * i + 1) (Fin 0)))
    by (intros a i; destruct (i <? length history)%nat; reflexivity).
  destruct (@store_pairs
              (fun i => if (i <? length history)%nat
                        then Number (option_map ndvi (nth_error history i))
                        else Fin 0)
              (fun _ => Fin 0)
              size (seq 0 size) (FFT.createComplexArray size)) as [Hl Hn].
  { apply repeat_length. }
  { intros i Hi. apply in_seq in Hi. lia. }
  split; [exact Hl|]. intros k Hk.
  destruct (Hn k Hk) as [-> ->]. rewrite existsb_seq.
  destruct (Nat.leb_spec 0 k), (Nat.ltb_spec k (0 + size)); simpl; auto; lia.
Qed.

(** a NaN in the input makes the bin 0 of the transform NaN *)
Lemma transform_bin0_NaN size data j :
  (j < size)%nat -> FFT.re data j = NaN ->
  nth_error (FFT.transform size data) 0 = Some NaN.
Proof.
  intros Hj Hre. unfold FFT.transform, FFT.forward_bin.
  match goal with
  | |- nth_error (flat_map (fun k => [?a; ?b]) _) _ = _ =>
      destruct (flat_map_pairs (fun k => a) (fun k => b) size 0%nat) as [_ Hnth]
  end.
  destruct (Hnth 0%nat ltac:(lia)) as [H0 _].
  change (2 * 0)%nat with 0%nat in H0. change (0 + 0)%nat with 0%nat in H0.
  rewrite H0. f_equal. apply (@num_sum_NaN _ size j Hj).
  now rewrite Hre.
Qed.

Lemma transform_length size data : length (FFT.transform size data) = (2 * size)%nat.
Proof.
  unfold FFT.transform, FFT.forward_bin.
  match goal with
  | |- length (flat_map (fun k => [?a; ?b]) _) = _ =>
      exact (proj1 (flat_map_pairs (fun k => a) (fun k => b) size 0%nat))
  end.
Qed.

(** the filter keeps the bin 0 *)
Lemma lowPass_bin0 size data :
  length data = (2 * size)%nat -> (0 < size)%nat ->
  nth_error (lowPass size data) 0 = nth_error data 0.
Proof.
  intros Hlen Hpos. unfold lowPass, for_range.
  destruct (@store_pairs (fun _ => Fin 0) (fun _ => Fin 0) size
              (seq cutoff (size - cutoff - cutoff)) data Hlen) as [_ Hn].
  { intros i Hi. apply in_seq in Hi. lia. }
  destruct (Hn 0%nat Hpos) as [H0 _]. change (2 * 0)%nat with 0%nat in H0.
  rewrite H0, existsb_seq. reflexivity.
Qed.

(** a NaN in the bin 0 makes every sample of the inverse transform NaN *)
Lemma inverse_NaN size data k :
  (k < size)%nat -> FFT.re data 0 = NaN ->
  nth_error (FFT.inverseTransform size data) (2 * k) = Some NaN.
Proof.
  intros Hk Hre. unfold FFT.inverseTransform, FFT.inverse_bin.
  match goal with
  | |- nth_error (flat_map (fun k => [?a; ?b]) _) _ = _ =>
      destruct (flat_map_pairs (fun k => a) (fun k => b) size 0%nat) as [_ Hnth]
  end.
  destruct (Hnth k Hk) as [H0 _]. rewrite H0. f_equal.
  apply (@num_sum_NaN _ size 0%nat ltac:(lia)).
  now rewrite Hre.
Qed.

(** X22. One NDVI value that is NaN makes the seasonal estimate of every
    point of the series NaN. *)
Theorem harmonic_nan_spreads (history : list TimeSeriesPoint) (j : nat)
    (p : TimeSeriesPoint) :
  nth_error history j = Some p -> ndvi p = NaN ->
  forall i q, nth_error history i = Some q ->
    nth_error (performHarmonicAnalysis history) i = Some (with_seasonal q NaN).
Proof.
  intros Hp Hnan i q Hq. unfold performHarmonicAnalysis, mapi.
  rewrite nth_error_mapi_from, Hq. cbn [option_map Nat.add].
  rewrite nextPow2_spec, iterations_of_nat.
  set (size := fft_size (length history)).
  pose proof (fft_size_ge (length history)) as Hge. fold size in Hge.
  assert (Hj : (j < length history)%nat) by (apply nth_error_Some; congruence).
  assert (Hi : (i < length history)%nat) by (apply nth_error_Some; congruence).
  destruct (fillInput_nth history size) as [Hlen Hin].
  assert (Hre : FFT.re (fillInput history size) j = NaN).
  { unfold FFT.re. rewrite (proj1 (Hin j ltac:(lia))).
    destruct (Nat.ltb_spec j (length history)); [|lia].
    rewrite Hp. cbn. exact Hnan. }
  pose proof (@transform_bin0_NaN size (fillInput history size) j ltac:(lia) Hre) as Ht.
  assert (Hlp : FFT.re (lowPass size (FFT.transform size (fillInput history size))) 0 = NaN).
  { unfold FFT.re. change (2 * 0)%nat with 0%nat.
    rewrite lowPass_bin0 by (try apply transform_length; lia).
    now rewrite Ht. }
  rewrite (@inverse_NaN size _ i ltac:(lia) Hlp). reflexivity.
Qed.

Lemma harmonic_nan_spreads_witness :
  nth_error (performHarmonicAnalysis
               [mkPoint "2023-01-01" (Fin 0.5) (Fin 0) (Fin 0) (Fin 0);
                mkPoint "2023-01-02" NaN (Fin 0) (Fin 0) (Fin 0)]) 0
    = Some (with_seasonal (mkPoint "2023-01-01" (Fin 0.5) (Fin 0) (Fin 0) (Fin 0)) NaN).
Proof.
  apply (@harmonic_nan_spreads
           [mkPoint "2023-01-01" (Fin 0.5) (Fin 0) (Fin 0) (Fin 0);
            mkPoint "2023-01-02" NaN (Fin 0) (Fin 0) (Fin 0)] 1
           (mkPoint "2023-01-02" NaN (Fin 0) (Fin 0) (Fin 0)));
    reflexivity.
Defined.

End HarmonicNaN.

(* ================================================================== *)
(** * Properties of the simulator of the zones *)
(* ================================================================== *)

Section Simulator.

Import DataSimulator.
Local Open Scope R_scope.

Lemma clamp_unit x :
  exists n, Math_max (Fin 0) (Math_min (Fin 1) (Fin x)) = Fin n /\
            0 <= n <= 1 /\ (0 <= x <= 1 -> n = x) /\ n <= Rmax 0 x.
Proof.
  unfold Math_min, Math_max. cbn [ltb].
  destruct (Rlt_dec x 1) as [H1 | H1].
  - rewrite (proj2 (Rltb_true x 1)) by exact H1. cbn [ltb].
    destruct (Rlt_dec 0 x) as [H0 | H0].
    + rewrite (proj2 (Rltb_true 0 x)) by exact H0.
      exists x. repeat split; try lra. apply Rmax_r.
    + rewrite (proj2 (Rltb_false 0 x)) by lra.
      exists 0. repeat split; try lra. apply Rmax_l.
  - rewrite (proj2 (Rltb_false x 1)) by lra. cbn [ltb].
    rewrite (proj2 (Rltb_true 0 1)) by lra.
    exists 1. repeat split; try lra.
    apply Rle_trans with x; [lra | apply Rmax_r].
Qed.

Lemma clamp_unit' x :
  exists n, Math_min (Fin 1) (Math_max (Fin 0) (Fin x)) = Fin n /\
            0 <= n <= 1 /\ (0 <= x <= 1 -> n = x) /\ (1 <= x -> n = 1).
Proof.
  unfold Math_min, Math_max. cbn [ltb].
  destruct (Rlt_dec 0 x) as [H0 | H0].
  - rewrite (proj2 (Rltb_true 0 x)) by exact H0. cbn [ltb].
    destruct (Rlt_dec x 1) as [H1 | H1].
    + rewrite (proj2 (Rltb_true x 1)) by exact H1.
      exists x. repeat split; try lra.
    + rewrite (proj2 (Rltb_false x 1)) by lra.
      exists 1. repeat split; try lra.
  - rewrite (proj2 (Rltb_false 0 x)) by lra. cbn [ltb].
    rewrite (proj2 (Rltb_true 0 1)) by lra.
    exists 0. repeat split; try lra.
Qed.

Lemma INR_ge_nat (k : Z) i : (k <= Z.of_nat i)%Z -> IZR k <= INR i.
Proof. intros H. rewrite INR_IZR_INZ. now apply IZR_le. Qed.

Lemma INR_lt_nat (k : Z) i : (Z.of_nat i < k)%Z -> INR i < IZR k.
Proof. intros H. rewrite INR_IZR_INZ. now apply IZR_lt. Qed.

Lemma seasonal_range x : 0.4 <= 0.6 + 0.2 * sin x <= 0.8.
Proof. pose proof (SIN_bound x). lra. Qed.

(** one day of the simulation, computed *)
Lemma generatePoint_eq type dayString (ph : R) i history s :
  exists tr v,
  generatePoint type dayString (Fin ph) i history s
  = (history ++
       [mkPoint (dayString i)
          (Math_max (Fin 0) (Math_min (Fin 1)
             (Fin (0.6 + 0.2 * sin (2 * PI * (INR i / 365.0) + ph) + tr
                   + (s 1%nat + - (0.5)) * 0.05))))
          (Fin v) (Fin (0.6 + 0.2 * sin (2 * PI * (INR i / 365.0) + ph))) (Fin tr)],
     fun k => s (S (S k))) /\
  ((type = sacred_grove \/ INR i / 365.0 <= 1.5) /\ tr = 0 /\ v = 0.1 + s 0%nat * 0.1
   \/ type = mining_drift /\ 1.5 < INR i / 365.0 /\
      tr = - (0.3) * (INR i / 365.0 + - (1.5)) /\ v = 0.8 + s 0%nat * 0.2).
Proof.
  unfold generatePoint, Math_PI, of_nat. cbn [div].
  rewrite (proj2 (Reqb_false 365.0 0)) by lra.
  cbn [mul add Math_sin].
  destruct type.
  - exists 0, (0.1 + s 0%nat * 0.1). split; [|left; auto].
    unfold bind, ret. cbn [Math_random mul add sub neg]. reflexivity.
  - cbn [gtb ltb].
    destruct (Rlt_dec 1.5 (INR i / 365.0)) as [Ht | Ht].
    + rewrite (proj2 (Rltb_true _ _)) by exact Ht.
      exists (- (0.3) * (INR i / 365.0 + - (1.5))), (0.8 + s 0%nat * 0.2).
      split; [|right; auto].
      unfold bind, ret. cbn [Math_random mul add sub neg]. reflexivity.
    + rewrite (proj2 (Rltb_false _ _)) by lra.
      exists 0, (0.1 + s 0%nat * 0.1). split; [|left; split; [right; lra | auto]].
      unfold bind, ret. cbn [Math_random mul add sub neg]. reflexivity.
Qed.

Lemma day_stable i : (i <= 547)%nat -> INR i / 365.0 <= 1.5.
Proof.
  intros H. assert (INR i <= 547) by (rewrite INR_IZR_INZ; apply IZR_le; lia). lra.
Qed.

Lemma day_drift i : (548 <= i)%nat -> 1.5 < INR i / 365.0.
Proof.
  intros H. assert (548 <= INR i) by (apply (@INR_ge_nat 548%Z i); lia). lra.
Qed.

(** one day of the simulation *)
Lemma generatePoint_ok type dayString (ph : R) i history s :
  unit_rng s ->
  exists p,
    generatePoint type dayString (Fin ph) i history s
      = (history ++ [p], fun k => s (S (S k))) /\
    point_ok type dayString i p.
Proof.
  intros Hs. pose proof (Hs 0%nat) as H0. pose proof (Hs 1%nat) as H1.
  destruct (generatePoint_eq type dayString ph i history s) as (tr & v & -> & Hc).
  set (se := 0.6 + 0.2 * sin (2 * PI * (INR i / 365.0) + ph)) in *.
  assert (Hse : 0.4 <= se <= 0.8) by apply seasonal_range.
  destruct (clamp_unit (se + tr + (s 1%nat + - (0.5)) * 0.05))
    as (n & -> & Hn & Hid & Hmax).
  eexists. split; [reflexivity|].
  unfold point_ok. cbn [date ndvi viirs seasonal trend].
  split; [reflexivity|].
  exists n, v, se, tr.
  split; [reflexivity|]. split; [reflexivity|].
  split; [reflexivity|]. split; [reflexivity|].
  destruct Hc as [(Hty & -> & ->) | (Hty & Ht & -> & ->)].
  - rewrite Hid in * by lra. split; [lra|]. split.
    + intros _. lra.
    + intros Hm Hi. destruct Hty as [Hty | Hty]; [congruence|].
      pose proof (day_drift Hi). lra.
  - split; [lra|]. split.
    + intros [Hg | Hi]; [congruence|]. pose proof (day_stable Hi). lra.
    + intros _ Hi. split; [lra|]. split; [lra|].
      eapply Rle_trans; [exact Hmax|]. apply Rle_max_compat_l. lra.
Qed.

(** the thirty last days of the three years *)
Lemma history_loop type dayString ph s :
  unit_rng s ->
  let res := for_loopM days (generatePoint type dayString (Fin ph)) [] s in
  length (fst res) = days /\
  (forall i p, nth_error (fst res) i = Some p -> point_ok type dayString i p) /\
  unit_rng (snd res).
Proof.
  intros Hs. cbn zeta. unfold for_loopM.
  destruct (@for_loopM_from_inv2 (list TimeSeriesPoint) unit_rng
              (fun i history =>
                 length history = i /\
                 forall j p, nth_error history j = Some p ->
                             point_ok type dayString j p)
              (generatePoint type dayString (Fin ph)))
    with (k := days) (i := 0%nat) (st := @nil TimeSeriesPoint) (s := s)
    as [[Hlen Hall] Hq].
  - intros i st s0 Hs0 [Hlen Hall].
    destruct (@generatePoint_ok type dayString ph i st s0 Hs0) as (p & -> & Hp).
    cbn [fst snd]. split.
    + split; [rewrite length_app; cbn; lia|].
      intros j q Hq. destruct (Nat.lt_ge_cases j (length st)) as [Hj | Hj].
      * rewrite nth_error_app1 in Hq by exact Hj. now apply Hall.
      * rewrite nth_error_app2 in Hq by exact Hj.
        destruct (j - length st)%nat as [|m] eqn:E.
        -- cbn in Hq. injection Hq as <-.
           replace j with i by lia. exact Hp.
        -- destruct m; discriminate Hq.
    + intros k. apply Hs0.
  - exact Hs.
  - split; [reflexivity|]. intros j p Hj. destruct j; discriminate Hj.
  - auto.
Qed.

Lemma sum_bounds (f : TimeSeriesPoint -> num) lo hi l :
  (forall p, In p l -> exists r, f p = Fin r /\ lo <= r <= hi) ->
  forall a, exists y,
    fold_left (fun sum p => add sum (f p)) l (Fin a) = Fin y /\
    a + INR (length l) * lo <= y <= a + INR (length l) * hi.
Proof.
  induction l as [|p l IH]; intros H a.
  - exists a. split; [reflexivity|]. cbn. lra.
  - destruct (H p (or_introl eq_refl)) as (r & Hr & Hb).
    cbn [fold_left]. rewrite Hr. cbn [add].
    destruct (IH (fun q Hq => H q (or_intror Hq)) (a + r)) as (y & Hy & Hyb).
    exists y. split; [exact Hy|].
    change (length (p :: l)) with (S (length l)). rewrite S_INR. lra.
Qed.

Lemma average_bounds (f : TimeSeriesPoint -> num) lo hi l :
  l <> [] ->
  (forall p, In p l -> exists r, f p = Fin r /\ lo <= r <= hi) ->
  exists y, average f l = Fin y /\ lo <= y <= hi.
Proof.
  intros Hne H. unfold average.
  destruct (@sum_bounds f lo hi l H 0) as (y & -> & Hy).
  assert (Hpos : 0 < INR (length l)).
  { apply lt_0_INR. destruct l; [contradiction | cbn; lia]. }
  unfold of_nat. cbn [div]. rewrite (proj2 (Reqb_false _ 0)) by lra.
  exists (y / INR (length l)). split; [reflexivity|].
  split.
  - apply Rmult_le_reg_r with (INR (length l)); [exact Hpos|].
    unfold Rdiv. rewrite Rmult_assoc, Rinv_l by lra. lra.
  - apply Rmult_le_reg_r with (INR (length l)); [exact Hpos|].
    unfold Rdiv. rewrite Rmult_assoc, Rinv_l by lra. lra.
Qed.

Lemma recent_members (history : list TimeSeriesPoint) p :
  length history = days -> In p (recent history) ->
  exists i, (1065 <= i)%nat /\ (i < 1095)%nat /\ nth_error history i = Some p.
Proof.
  intros Hlen Hin. unfold recent in Hin.
  apply In_nth_error in Hin as [j Hj].
  rewrite nth_error_skipn in Hj.
  exists (length history - 30 + j)%nat.
  assert (Hlt : (length history - 30 + j < length history)%nat)
    by (apply nth_error_Some; congruence).
  rewrite Hlen in *. change days with 1095%nat in *.
  repeat split; try lia. exact Hj.
Qed.

Lemma recent_nonempty (history : list TimeSeriesPoint) :
  length history = days -> recent history <> [].
Proof.
  intros Hlen E. apply (f_equal (@length _)) in E.
  unfold recent in E. rewrite length_skipn, Hlen in E.
  change days with 1095%nat in E. cbn in E. lia.
Qed.

(** a simulated zone *)
Lemma generateZoneData_ok dayString id0 name0 lat0 lon0 type0 s :
  unit_rng s ->
  exists h r s',
    generateZoneData dayString id0 name0 lat0 lon0 type0 s
      = (mkZone id0 name0 lat0 lon0 type0 (Fin r) h, s') /\
    length h = 1095%nat /\
    (forall i p, nth_error h i = Some p -> point_ok type0 dayString i p) /\
    match type0 with
    | sacred_grove => 0.1375 <= r <= 0.4125
    | mining_drift => 0.9 <= r <= 1
    end /\
    unit_rng s'.
Proof.
  intros Hs. unfold generateZoneData, bind. cbn [Math_random].
  unfold Math_PI. cbn [mul].
  pose proof (@history_loop type0 dayString (s 0%nat * PI * 2) _ (unit_rng_next Hs)) as H.
  cbn zeta in H.
  destruct (for_loopM days (generatePoint type0 dayString (Fin (s 0%nat * PI * 2))) []
              (fun k => s (S k))) as [h s1].
  cbn [fst snd] in H. destruct H as (Hlen & Hall & Hq).
  pose proof (@recent_nonempty h Hlen) as Hne.
  assert (Hrec : forall p, In p (recent h) ->
            exists i, (1065 <= i)%nat /\ (i < 1095)%nat /\ point_ok type0 dayString i p).
  { intros p Hp. destruct (@recent_members h p Hlen Hp) as (i & H1 & H2 & H3).
    exists i. split; [exact H1|]. split; [exact H2|]. now apply Hall. }
  destruct type0.
  - destruct (@average_bounds ndvi 0.375 0.825 (recent h) Hne) as (an & -> & Han).
    { intros p Hp.
      destruct (Hrec p Hp) as (i & _ & _ & _ & n & v & se & tr & E & _ & _ & _ & B & G & _).
      exists n. split; [exact E|]. destruct (G (or_introl eq_refl)) as (_ & _ & Hn). lra. }
    destruct (@average_bounds viirs 0.1 0.2 (recent h) Hne) as (av & -> & Hav).
    { intros p Hp.
      destruct (Hrec p Hp) as (i & _ & _ & _ & n & v & se & tr & _ & E & _ & _ & B & G & _).
      exists v. split; [exact E|]. destruct (G (or_introl eq_refl)) as (_ & Hv & _). lra. }
    cbn [sub neg add mul].
    destruct (clamp_unit' ((1 + - an) * 0.5 + av * 0.5)) as (r & -> & _ & Hid & _).
    rewrite Hid by lra.
    eexists h, _, s1. split; [reflexivity|].
    split; [exact Hlen|]. split; [exact Hall|]. split; [lra | exact Hq].
  - assert (Hlate : forall p, In p (recent h) ->
              exists n v, ndvi p = Fin n /\ viirs p = Fin v /\
                          0 <= n <= 0.4 /\ 0.8 <= v <= 1).
    { intros p Hp.
      destruct (Hrec p Hp)
        as (i & Hi1 & Hi2 & _ & n & v & se & tr & E1 & E2 & _ & _ & B & _ & M).
      exists n, v. split; [exact E1|]. split; [exact E2|].
      destruct (M eq_refl ltac:(lia)) as (Htr & Hv & Hn).
      assert (Hi' : 1065 <= INR i) by (apply (@INR_ge_nat 1065%Z i); lia).
      split; [|lra]. split; [lra|].
      eapply Rle_trans; [exact Hn|]. apply Rmax_lub; lra. }
    destruct (@average_bounds ndvi 0 0.4 (recent h) Hne) as (an & -> & Han).
    { intros p Hp. destruct (Hlate p Hp) as (n & v & E & _ & B & _). now exists n. }
    destruct (@average_bounds viirs 0.8 1 (recent h) Hne) as (av & -> & Hav).
    { intros p Hp. destruct (Hlate p Hp) as (n & v & _ & E & _ & B). now exists v. }
    cbn [sub neg add mul].
    destruct (clamp_unit' ((1 + - an) * 0.5 + av * 0.5 + 0.2)) as (r & -> & Hr & Hid & Hone).
    exists h, r, s1. split; [reflexivity|].
    split; [exact Hlen|]. split; [exact Hall|]. split; [|exact Hq].
    destruct (Rle_lt_dec 1 ((1 + - an) * 0.5 + av * 0.5 + 0.2)) as [H1 | H1].
    + rewrite (Hone H1). lra.
    + rewrite Hid by lra. lra.
Qed.



(** X24. With the outcomes of Math.random in [0, 1) the risk score of a
    simulated zone is a real number of [0, 1]: between 0.1375 and 0.4125 for
    a sacred grove, at least 0.9 for a mining drift. *)
Theorem generateZoneData_risk (dayString : nat -> string) (id0 name0 : string)
    (lat0 lon0 : num) (type0 : ZoneType) (s : rng) :
  unit_rng s ->
  exists r,
    riskScore (fst (generateZoneData dayString id0 name0 lat0 lon0 type0 s)) = Fin r /\
    0 <= r <= 1 /\
    (type0 = sacred_grove -> 0.1375 <= r <= 0.4125) /\
    (type0 = mining_drift -> 0.9 <= r).
Proof.
  intros Hs.
  destruct (@generateZoneData_ok dayString id0 name0 lat0 lon0 type0 s Hs)
    as (h & r & s' & E & _ & _ & Hr & _).
  rewrite E. cbn [fst riskScore]. exists r. split; [reflexivity|].
  destruct type0; (split; [lra|]); split; intros H; try discriminate H; lra.
Qed.

Lemma generateZoneData_risk_witness :
  exists r,
    riskScore (fst (generateZoneData (fun _ => "2023-01-01"%string) "z1"%string "Grove Alpha (North)"%string
                      (Fin 24.5854) (Fin 73.7125) sacred_grove (fun _ => 0))) = Fin r /\
    0 <= r <= 1 /\
    (sacred_grove = sacred_grove -> 0.1375 <= r <= 0.4125) /\
    (sacred_grove = mining_drift -> 0.9 <= r).
Proof.
  apply (@generateZoneData_risk (fun _ => "2023-01-01"%string) "z1"%string "Grove Alpha (North)"%string
           (Fin 24.5854) (Fin 73.7125) sacred_grove (fun _ => 0)).
  intros k. lra.
Defined.

(** X25. With the outcomes of Math.random in [0, 1), [generateMockZones]
    returns the five zones z1 to z5, z3 and z5 being the mining drifts;
    every series has 1095 points, the risk score of a grove is between
    0.1375 and 0.4125 and the one of a drift between 0.9 and 1. *)
Theorem generateMockZones_zones (dayString : nat -> string) (s : rng) :
  unit_rng s ->
  exists zones s',
    generateMockZones dayString s = (zones, s') /\
    map id zones = ["z1"; "z2"; "z3"; "z4"; "z5"]%string /\
    map type zones
      = [sacred_grove; sacred_grove; mining_drift; sacred_grove; mining_drift] /\
    Forall (fun z =>
              length (history z) = 1095%nat /\
              exists r, riskScore z = Fin r /\
                        (type z = sacred_grove -> 0.1375 <= r <= 0.4125) /\
                        (type z = mining_drift -> 0.9 <= r <= 1)) zones.
Proof.
  intros Hs. unfold generateMockZones, bind.
  destruct (@generateZoneData_ok dayString "z1"%string "Grove Alpha (North)"%string
              (Fin 24.5854) (Fin 73.7125) sacred_grove s Hs)
    as (h1 & r1 & s1 & -> & L1 & _ & R1 & Q1).
  destruct (@generateZoneData_ok dayString "z2"%string "Grove Beta (East)"%string
              (Fin 24.5900) (Fin 73.7200) sacred_grove s1 Q1)
    as (h2 & r2 & s2 & -> & L2 & _ & R2 & Q2).
  destruct (@generateZoneData_ok dayString "z3"%string "Sector Gamma (Drift)"%string
              (Fin 24.5800) (Fin 73.7150) mining_drift s2 Q2)
    as (h3 & r3 & s3 & -> & L3 & _ & R3 & Q3).
  destruct (@generateZoneData_ok dayString "z4"%string "Grove Delta (South)"%string
              (Fin 24.5750) (Fin 73.7100) sacred_grove s3 Q3)
    as (h4 & r4 & s4 & -> & L4 & _ & R4 & Q4).
  destruct (@generateZoneData_ok dayString "z5"%string "Sector Epsilon (Drift)"%string
              (Fin 24.5820) (Fin 73.7250) mining_drift s4 Q4)
    as (h5 & r5 & s5 & -> & L5 & _ & R5 & Q5).
  eexists _, s5. split; [reflexivity|]. cbn [map id type].
  split; [reflexivity|]. split; [reflexivity|].
  repeat constructor; cbn [history riskScore type]; try assumption;
    eexists; (split; [reflexivity|]); split; intros H; try discriminate H; lra.
Qed.

Lemma generateMockZones_zones_witness :
  exists zones s',
    generateMockZones (fun _ => "2023-01-01"%string) (fun _ => 0) = (zones, s') /\
    map id zones = ["z1"; "z2"; "z3"; "z4"; "z5"]%string /\
    map type zones
      = [sacred_grove; sacred_grove; mining_drift; sacred_grove; mining_drift] /\
    Forall (fun z =>
              length (history z) = 1095%nat /\
              exists r, riskScore z = Fin r /\
                        (type z = sacred_grove -> 0.1375 <= r <= 0.4125) /\
                        (type z = mining_drift -> 0.9 <= r <= 1)) zones.
Proof.
  apply (@generateMockZones_zones (fun _ => "2023-01-01"%string) (fun _ => 0)).
  intros k. lra.
Defined.

End Simulator.

(* ================================================================== *)
(** * Properties of the solar verdict and of the chart *)
(* ================================================================== *)

Section AppSolar.

Local Open Scope R_scope.

(** X26. The solar validation of the analysis, at any date with finite time
    values: the altitude is a real number between 42.05 and 90 degrees that
    does not depend on the statistics; the anomaly is confirmed when the
    statistics have no maximal score (the Median / MAD detector) and when
    the maximal score is NaN or 0, since 0.8 then stands for it; it is not
    confirmed for -Infinity; and for any other real maximal score it is
    confirmed exactly when the score exceeds 0.5. *)
Theorem solarValidation_verdict (t t0 : R) :
  (exists a, 42.05 <= a <= 90 /\
     forall v, fst (solarValidation v (mkDate (Fin t) (Fin t0))) = Fin a) /\
  snd (solarValidation None (mkDate (Fin t) (Fin t0))) = true /\
  snd (solarValidation (Some NaN) (mkDate (Fin t) (Fin t0))) = true /\
  snd (solarValidation (Some (Fin 0)) (mkDate (Fin t) (Fin t0))) = true /\
  snd (solarValidation (Some NInf) (mkDate (Fin t) (Fin t0))) = false /\
  forall b, b <> 0 ->
    (snd (solarValidation (Some (Fin b)) (mkDate (Fin t) (Fin t0))) = true <-> 0.5 < b).
Proof.
  assert (Hr : -90 <= 24.5 <= 90) by lra.
  pose proof (calculateSunPosition_value (Fin 73.0) t t0 Hr) as Ha.
  pose proof (declination_bound t t0) as Hd.
  assert (Hb : 42.05 <= 90 - Rabs (24.5 - declinationDeg t t0) <= 90).
  { unfold Rabs. destruct (Rcase_abs (24.5 - declinationDeg t t0)); lra. }
  unfold solarValidation. cbn [fst snd]. rewrite Ha.
  assert (Hg : forall sc,
            validateShadowDepth (Fin (90 - Rabs (24.5 - declinationDeg t t0))) sc
            = gtb sc (Fin 0.5)).
  { intros sc. unfold validateShadowDepth.
    replace (gtb (Fin (90 - Rabs (24.5 - declinationDeg t t0))) (Fin 30)) with true;
      [reflexivity|].
    symmetry. apply gtb_Fin. lra. }
  rewrite !Hg. cbn [value_or_else or_else]. rewrite Reqb_refl.
  split; [eexists; split; [exact Hb | reflexivity]|].
  assert (H8 : gtb (Fin 0.8) (Fin 0.5) = true) by (apply gtb_Fin; lra).
  rewrite H8. repeat (split; [reflexivity|]).
  intros b Hb0. rewrite Hg. cbn [value_or_else or_else].
  rewrite (proj2 (Reqb_false b 0)) by exact Hb0.
  rewrite gtb_Fin. lra.
Qed.

End AppSolar.

Section AppChart.

Local Open Scope R_scope.

Lemma floor_in_range u w :
  geb (Math_floor u) (Fin 0) && ltb (Math_floor u) (of_Z w) = true ->
  exists z, Math_floor u = Fin (IZR z) /\ (0 <= z < w)%Z.
Proof.
  destruct u as [| |a|]; cbn [Math_floor]; intros H;
    apply andb_true_iff in H as [H1 H2]; try discriminate.
  exists (Zfloor a). split; [reflexivity|].
  apply geb_Fin in H1. unfold of_Z in H2. apply ltb_Fin in H2.
  split; [now apply le_IZR | now apply lt_IZR].
Qed.

Lemma get_pixel (g : RasterData) (zx zy : Z) :
  grid_wf g -> (0 <= zx < width g)%Z -> (0 <= zy < height g)%Z ->
  exists a,
    ta_get (data g) (Z.to_nat (zy * width g + zx)) = Some a /\
    get (samples (data g)) (add (mul (Fin (IZR zy)) (of_Z (width g))) (Fin (IZR zx)))
      = Some a.
Proof.
  intros Hwf Hx Hy. unfold of_Z. cbn [mul add].
  rewrite <- mult_IZR, <- plus_IZR.
  unfold get, index_of, is_int. rewrite Zfloor_IZR, Reqb_refl.
  assert (H0 : (0 <= zy * width g + zx)%Z) by nia.
  rewrite (proj2 (Rltb_false _ 0)) by (now apply IZR_le).
  cbn [andb negb]. rewrite samples_nth.
  assert (Hlt : (Z.to_nat (zy * width g + zx) < ta_length (data g))%nat).
  { unfold grid_wf in Hwf. apply Nat2Z.inj_lt. rewrite Z2Nat.id by exact H0. nia. }
  rewrite <- samples_length in Hlt. apply nth_error_Some in Hlt.
  rewrite samples_nth in Hlt.
  destruct (ta_get (data g) (Z.to_nat (zy * width g + zx))) as [a|];
    [now exists a | contradiction].
Qed.

(** X27. A click that selects a pixel selects integer coordinates inside
    the past grid, whatever the numbers of the event and of the rectangle;
    on two grids of that shape that hold width x height samples, the chart
    of the pixel reads a sample of each grid at the index y * width + x, and
    its three points are the past value, the mean of the two and the
    present value. *)
Theorem chart_reads_selected_pixel (clientX clientY : num) (rect : DOMRect)
    (canvas : HTMLCanvasElement) (past present : RasterData) (x y : num) :
  grid_wf past -> grid_wf present ->
  width present = width past -> height present = height past ->
  handleCanvasClick clientX clientY rect canvas past = Some (x, y) ->
  exists (zx zy : Z) (a b : num),
    x = Fin (IZR zx) /\ y = Fin (IZR zy) /\
    (0 <= zx < width past)%Z /\ (0 <= zy < height past)%Z /\
    ta_get (data past) (Z.to_nat (zy * width past + zx)) = Some a /\
    ta_get (data present) (Z.to_nat (zy * width past + zx)) = Some b /\
    getChartData (Some (x, y)) past present
      = [ ("2023 (Past)"%string, a);
          ("2024 (Inter)"%string, div (add a b) (Fin 2));
          ("2025 (Present)"%string, b) ].
Proof.
  intros Hp Hq Hw Hh Hc. unfold handleCanvasClick in Hc. cbn zeta in Hc.
  match type of Hc with
  | (if ?gx && ?lx && ?gy && ?ly then _ else _) = _ =>
      destruct (gx && lx) eqn:Ex; [|discriminate Hc];
      destruct (gy && ly) eqn:Ey;
        [|rewrite <- andb_assoc, Ey in Hc; discriminate Hc]
  end.
  rewrite <- andb_assoc, Ey in Hc. cbn [andb] in Hc.
  destruct (floor_in_range _ _ Ex) as (zx & Ezx & Bx).
  destruct (floor_in_range _ _ Ey) as (zy & Ezy & By).
  rewrite Ezx, Ezy in Hc. injection Hc as <- <-.
  destruct (@get_pixel past zx zy Hp Bx By) as (a & Ha & Hga).
  destruct (@get_pixel present zx zy Hq ltac:(lia) ltac:(lia)) as (b & Hb & Hgb).
  rewrite Hw in Hb, Hgb.
  exists zx, zy, a, b. repeat (split; [assumption || reflexivity || lia|]).
  unfold getChartData. cbn zeta. rewrite Hga, Hgb. reflexivity.
Qed.

Lemma chart_reads_selected_pixel_witness :
  exists (zx zy : Z) (a b : num),
    Fin 1 = Fin (IZR zx) /\ Fin 0 = Fin (IZR zy) /\
    (0 <= zx < width scenario_past)%Z /\ (0 <= zy < height scenario_past)%Z /\
    ta_get (data scenario_past) (Z.to_nat (zy * width scenario_past + zx)) = Some a /\
    ta_get (data scenario_present) (Z.to_nat (zy * width scenario_past + zx)) = Some b /\
    getChartData (Some (Fin 1, Fin 0)) scenario_past scenario_present
      = [ ("2023 (Past)"%string, a);
          ("2024 (Inter)"%string, div (add a b) (Fin 2));
          ("2025 (Present)"%string, b) ].
Proof.
  apply (@chart_reads_selected_pixel (Fin 150) (Fin 20)
           (mkRect (Fin 0) (Fin 0) (Fin 200) (Fin 100))
           (mkCanvas None 2 2) scenario_past scenario_present (Fin 1) (Fin 0));
    try reflexivity.
  unfold handleCanvasClick, of_Z. cbn [rect_left rect_top rect_width rect_height
    canvas_width canvas_height sub neg add div mul width height scenario_past].
  rewrite (proj2 (Reqb_false 200 0)) by lra.
  rewrite (proj2 (Reqb_false 100 0)) by lra.
  cbn [mul Math_floor].
  rewrite (@Zfloor_spec ((150 + - 0) * (2 / 200)) 1) by lra.
  rewrite (@Zfloor_spec ((20 + - 0) * (2 / 100)) 0) by lra.
  rewrite (proj2 (geb_Fin 1 0)) by lra.
  rewrite (proj2 (ltb_Fin 1 2)) by lra.
  rewrite (proj2 (geb_Fin 0 0)) by lra.
  rewrite (proj2 (ltb_Fin 0 2)) by lra.
  reflexivity.
Defined.

End AppChart.

Section Colours.

Import DataSimulator.
Local Open Scope R_scope.

(** X28. With the outcomes of Math.random in [0, 1), the panel and the map
    agree on a simulated zone: the risk score of a sacred grove is at most
    0.5, so its class is the green one, as its marker is; the one of a
    mining drift exceeds 0.5, so its class is the red one, as its marker
    is. *)
Theorem risk_colour_matches_type (dayString : nat -> string) (id0 name0 : string)
    (lat0 lon0 : num) (type0 : ZoneType) (s : rng) :
  unit_rng s ->
  (type0 = sacred_grove /\
   riskClass (fst (generateZoneData dayString id0 name0 lat0 lon0 type0 s))
     = "text-green-600"%string /\
   markerColor (fst (generateZoneData dayString id0 name0 lat0 lon0 type0 s))
     = "#22c55e"%string) \/
  (type0 = mining_drift /\
   riskClass (fst (generateZoneData dayString id0 name0 lat0 lon0 type0 s))
     = "text-red-600"%string /\
   markerColor (fst (generateZoneData dayString id0 name0 lat0 lon0 type0 s))
     = "#ef4444"%string).
Proof.
  intros Hs.
  destruct (@generateZoneData_ok dayString id0 name0 lat0 lon0 type0 s Hs)
    as (h & r & s' & E & _ & _ & Hr & _).
  rewrite E. cbn [fst]. unfold riskClass, markerColor. cbn [riskScore type].
  destruct type0; [left | right]; (split; [reflexivity|]); split; try reflexivity.
  - replace (gtb (Fin r) (Fin 0.5)) with false; [reflexivity|].
    symmetry. apply not_true_is_false. rewrite gtb_Fin. lra.
  - replace (gtb (Fin r) (Fin 0.5)) with true; [reflexivity|].
    symmetry. apply gtb_Fin. lra.
Qed.

Lemma risk_colour_matches_type_witness :
  (mining_drift = sacred_grove /\
   riskClass (fst (generateZoneData (fun _ => "2023-01-01"%string) "z3"%string
                     "Sector Gamma (Drift)"%string (Fin 24.58) (Fin 73.715)
                     mining_drift (fun _ => 0)))
     = "text-green-600"%string /\
   markerColor (fst (generateZoneData (fun _ => "2023-01-01"%string) "z3"%string
                       "Sector Gamma (Drift)"%string (Fin 24.58) (Fin 73.715)
                       mining_drift (fun _ => 0)))
     = "#22c55e"%string) \/
  (mining_drift = mining_drift /\
   riskClass (fst (generateZoneData (fun _ => "2023-01-01"%string) "z3"%string
                     "Sector Gamma (Drift)"%string (Fin 24.58) (Fin 73.715)
                     mining_drift (fun _ => 0)))
     = "text-red-600"%string /\
   markerColor (fst (generateZoneData (fun _ => "2023-01-01"%string) "z3"%string
                       "Sector Gamma (Drift)"%string (Fin 24.58) (Fin 73.715)
                       mining_drift (fun _ => 0)))
     = "#ef4444"%string).
Proof.
  apply (@risk_colour_matches_type (fun _ => "2023-01-01"%string) "z3"%string
           "Sector Gamma (Drift)"%string (Fin 24.58) (Fin 73.715) mining_drift
           (fun _ => 0)).
  intros k. lra.
Defined.

End Colours.

